(** * SatisfactoryModManagerAPI: the SML handler and the flatpak Steam install finder

    A shallow embedding of

      - the SML handler ([getSMLVersion], [getSMLVersionCache], [installSML],
        [uninstallSML]), and
      - [src/installfinders/linux/steamFlatpak.ts] ([getGameVersionFromExe],
        [setupSteam], [getInstalls]),

    together with the properties of the loader cache, of the launch-options
    patch and of install discovery that the specification states.

    Conventions of the embedding.

      - A JavaScript string is the list of its UTF-16 code units ([jsstring]).
      - A file or a directory is named by the components of its absolute
        path ([path]); [path.dirname] drops the last one, and a directory
        joined with fixed names is the components of the directory followed
        by the names. Where [getInstalls] joins strings it has read from the
        manifests of Steam, [path.join] is [pathJoin], which normalizes its
        result as Node does, and [locate] gives the file that the resulting
        string names for the process.
      - Code that reads or writes the file system, the network, the process
        table or the log runs in the monad [M]: a state monad over [world]
        with exceptions ([exn]), the state being kept when an exception is
        thrown.
      - What the repository imports from npm packages, from native bindings
        or from modules that are not part of the two files is gathered in
        the record [Platform] (pure collaborators) or kept as data of the
        [world] (remote servers, running processes). *)

From Stdlib Require Import List NArith Ascii String Bool Lia.
From stdpp Require Import base option list gmap.

Set Warnings "-register-all".
Local Open Scope N_scope.

(** ** JavaScript strings *)

Module JS.

Abbreviation jsstring := (list N).

(** The code units of an ASCII literal. *)
Definition lit (s : string) : jsstring :=
  map N_of_ascii (list_ascii_of_string s).
Arguments lit s%_string : simpl never.

Definition BACKSLASH : N := 92.
Definition DQUOTE : N := 34.
Definition DOLLAR : N := 36.
Definition BACKTICK : N := 96.
Definition AMPERSAND : N := 38.
Definition QUOTE : N := 39.

(** [s.startsWith(pat)] *)
Fixpoint startsWith (pat s : jsstring) : bool :=
  match pat, s with
  | [], _ => true
  | p :: pat', c :: s' => (p =? c) && startsWith pat' s'
  | _ :: _, [] => false
  end.

(** [s.indexOf(pat)], [None] standing for -1. *)
Fixpoint indexOf (pat s : jsstring) {struct s} : option nat :=
  if startsWith pat s then Some 0%nat
  else match s with
       | [] => None
       | _ :: s' => S <$> indexOf pat s'
       end.

(** [s.includes(pat)] *)
Definition includes (pat s : jsstring) : bool :=
  match indexOf pat s with Some _ => true | None => false end.

(** GetSubstitution of ECMA-262 for a string pattern: there are no captures,
    so only [$$], [$&], [$`] and [$'] are special in the replacement text. *)
Fixpoint GetSubstitution (matched before after template : jsstring) : jsstring :=
  match template with
  | [] => []
  | c :: t =>
      if c =? DOLLAR then
        match t with
        | [] => [c]
        | d :: t' =>
            if d =? DOLLAR then DOLLAR :: GetSubstitution matched before after t'
            else if d =? AMPERSAND then matched ++ GetSubstitution matched before after t'
            else if d =? BACKTICK then before ++ GetSubstitution matched before after t'
            else if d =? QUOTE then after ++ GetSubstitution matched before after t'
            else c :: GetSubstitution matched before after t
        end
      else c :: GetSubstitution matched before after t
  end.

(** [s.replace(pat, replacement)] with a string pattern: the first occurrence
    only, the replacement text going through [GetSubstitution]. *)
Definition replace (s pat replacement : jsstring) : jsstring :=
  match indexOf pat s with
  | None => s
  | Some i =>
      let before := take i s in
      let after := drop (i + length pat) s in
      before ++ GetSubstitution pat before after replacement ++ after
  end.

(** Number of (possibly overlapping) occurrences of [pat] in [s]. *)
Fixpoint occurrences (pat s : jsstring) {struct s} : nat :=
  ((if startsWith pat s then 1 else 0) +
   match s with
   | [] => 0
   | _ :: s' => occurrences pat s'
   end)%nat.

(** The line terminators, which [.] does not match in a regular expression
    without the [s] flag. *)
Definition isLineTerminator (c : N) : bool :=
  (c =? 10) || (c =? 13) || (c =? 8232) || (c =? 8233).

Definition isDigit (c : N) : bool := (48 <=? c) && (c <=? 57).

(** [s.toLowerCase()] on the ASCII letters: no other code unit is mapped to
    a letter of the word the result is compared with at line 137. *)
Definition toLowerCase (s : jsstring) : jsstring :=
  map (fun c => if (65 <=? c) && (c <=? 90) then c + 32 else c) s.

Definition eqb (a b : jsstring) : bool := bool_decide (a = b).

End JS.
Import JS.

(** ** Values read from VDF files

    [vdf.parse] yields nested objects whose leaves are strings; an object is
    kept as the list of its entries, in enumeration order. *)

Inductive vdf : Type :=
| VStr (s : jsstring)
| VObj (entries : list (jsstring * vdf)).

(** A JavaScript value of the kind the code handles: [None] is [undefined]. *)
Abbreviation jsval := (option vdf).

(** ToBoolean *)
Definition truthy (v : jsval) : bool :=
  match v with
  | None => false
  | Some (VStr []) => false
  | Some _ => true
  end.

(** ToString, for a value that is not [undefined]. *)
Definition ToString (v : vdf) : jsstring :=
  match v with
  | VStr s => s
  | VObj _ => lit "[object Object]"
  end.

(** ToBoolean of a value that is a string or [undefined]. *)
Definition truthyStr (v : option jsstring) : bool :=
  match v with
  | None => false
  | Some [] => false
  | Some _ => true
  end.

(** A string that is truthy, [None] for [undefined], [null] and the empty
    string: what passes a test [if (!v) throw]. *)
Definition whenTruthy (v : option jsstring) : option jsstring :=
  if truthyStr v then v else None.

Fixpoint assoc (k : jsstring) (entries : list (jsstring * vdf)) : jsval :=
  match entries with
  | [] => None
  | (k', v) :: rest => if JS.eqb k' k then Some v else assoc k rest
  end.

(** [obj[k] = v] on the entries of an object: an existing key keeps its
    place, a new key goes last. *)
Fixpoint assocSet (k : jsstring) (v : vdf) (entries : list (jsstring * vdf))
  : list (jsstring * vdf) :=
  match entries with
  | [] => [(k, v)]
  | (k', v') :: rest =>
      if JS.eqb k' k then (k, v) :: rest else (k', v') :: assocSet k v rest
  end.

(** The value under a chain of keys: [v.k1.k2...], [None] when a key is
    missing or a string is met on the way. *)
Fixpoint lookupPath (keys : list jsstring) (v : jsval) : jsval :=
  match keys with
  | [] => v
  | k :: keys' =>
      match v with
      | Some (VObj entries) => lookupPath keys' (assoc k entries)
      | _ => None
      end
  end.

(** ** The launch-options patch (steamFlatpak.ts, lines 72-94) *)

Module LaunchOptions.

(** [msdia140.dll,xinput1_3.dll=n,b] *)
Definition REQUIRED : jsstring := lit "msdia140.dll,xinput1_3.dll=n,b".

(** [msdia140.dll,xinput1_3.dll=n,b;msdia140.dll,xinput1_3.dll=n,b] *)
Definition DUPLICATED : jsstring := REQUIRED ++ lit ";" ++ REQUIRED.

(** The text WINEDLLOVERRIDES= followed by a backslash and a double quote,
    which is how the opening quote of the value is escaped in the file. *)
Definition BLOCK_OPEN : jsstring := lit "WINEDLLOVERRIDES=" ++ [BACKSLASH; DQUOTE].

(** A backslash and a double quote: the escaped closing quote. *)
Definition BLOCK_CLOSE : jsstring := [BACKSLASH; DQUOTE].

(** The template literal of lines 76, 79, 87 and 92: [value] between
    [BLOCK_OPEN] and [BLOCK_CLOSE]. *)
Definition block (value : jsstring) : jsstring := BLOCK_OPEN ++ value ++ BLOCK_CLOSE.

(** The regular expression of line 74, [BLOCK_OPEN (.*?) BLOCK_CLOSE], tried
    at the start of [s]: the lazy group stops at the first [BLOCK_CLOSE], and
    [.] does not cross a line terminator. The result is the captured group. *)
Definition matchHere (s : jsstring) : option jsstring :=
  if startsWith BLOCK_OPEN s then
    let rest := drop (length BLOCK_OPEN) s in
    match indexOf BLOCK_CLOSE rest with
    | Some k =>
        let group := take k rest in
        if forallb (fun c => negb (isLineTerminator c)) group
        then Some group else None
    | None => None
    end
  else None.

(** [exec] of the regular expression of line 74 on [s]: the leftmost match
    of a fresh expression. The result is [wineDllOverrides[1]]; [wineDllOverrides[0]] is
    [block] of it. *)
Fixpoint exec (s : jsstring) : option jsstring :=
  match matchHere s with
  | Some group => Some group
  | None => match s with
            | [] => None
            | _ :: s' => exec s'
            end
  end.

(** The loop of lines 84-86, [fuel] bounding the number of iterations. *)
Fixpoint dedupLoop (fuel : nat) (deduplicated : jsstring) : jsstring :=
  match fuel with
  | O => deduplicated
  | S fuel' =>
      if includes DUPLICATED deduplicated
      then dedupLoop fuel' (replace deduplicated (lit ";" ++ REQUIRED) [])
      else deduplicated
  end.

(** Every iteration shortens the string, so its length is fuel enough
    (see [dedupLoop_fuel] and [deduplicate_done]). *)
Definition deduplicate (group : jsstring) : jsstring :=
  dedupLoop (length group) group.

(** Lines 72-94: the new value of [launchOptions] and of [changed]. *)
Definition patch (launchOptions : jsval) : jsstring * bool :=
  match launchOptions with
  | Some v =>
      if truthy launchOptions then
        let launchOptions := ToString v in
        match exec launchOptions with
        | None =>
            (block REQUIRED ++ lit " " ++ launchOptions, true)
        | Some group =>
            if negb (includes REQUIRED group) then
              let newWineDllOverrides := block (group ++ lit ";" ++ REQUIRED) in
              (replace launchOptions (block group) newWineDllOverrides, true)
            else if includes DUPLICATED group then
              let deduplicated := deduplicate group in
              let newWineDllOverrides := block (deduplicated ++ lit ";" ++ REQUIRED) in
              (replace launchOptions (block group) newWineDllOverrides, true)
            else (launchOptions, false)
        end
      else (block REQUIRED ++ lit " %command%", true)
  | None => (block REQUIRED ++ lit " %command%", true)
  end.

(** The patch as a function on launch-options strings. *)
Definition patchString (launchOptions : jsstring) : jsstring :=
  fst (patch (Some (VStr launchOptions))).

(** A launch-options string that needs no change: it has a WINEDLLOVERRIDES
    block, the block holds the required value, and the required value is not
    doubled in it. *)
Definition conformant (launchOptions : jsstring) : bool :=
  match exec launchOptions with
  | Some group => includes REQUIRED group && negb (includes DUPLICATED group)
  | None => false
  end.

(** The launch-options string has a WINEDLLOVERRIDES block in which the
    required value is doubled. *)
Definition duplicated (launchOptions : jsstring) : bool :=
  match exec launchOptions with
  | Some group => includes DUPLICATED group
  | None => false
  end.

End LaunchOptions.

Import LaunchOptions.

(** ** Paths, files, the world *)

Abbreviation path := (list jsstring).

(** The components of a path given as text: the pieces between slashes. *)
Fixpoint componentsFrom (current : jsstring) (s : jsstring) : path :=
  match s with
  | [] => match current with [] => [] | _ => [rev current] end
  | c :: s' =>
      if c =? 47 then
        match current with
        | [] => componentsFrom [] s'
        | _ => rev current :: componentsFrom [] s'
        end
      else componentsFrom (c :: current) s'
  end.

Definition components (s : jsstring) : path := componentsFrom [] s.

(** The pieces of a path with [.] and [..] resolved, as [path.normalize]
    resolves them; [kept] holds the pieces kept so far, the last one first.
    [.] is dropped and [..] takes back the piece before it; above the root
    there is nothing to take back, above a relative path [..] is kept. *)
Fixpoint normalizePieces (absolute : bool) (kept pieces : list jsstring) : list jsstring :=
  match pieces with
  | [] => rev kept
  | piece :: rest =>
      if JS.eqb piece (lit ".") then normalizePieces absolute kept rest
      else if JS.eqb piece (lit "..") then
        match kept with
        | top :: below =>
            if JS.eqb top (lit "..") then normalizePieces absolute (piece :: kept) rest
            else normalizePieces absolute below rest
        | [] =>
            if absolute then normalizePieces absolute [] rest
            else normalizePieces absolute [piece] rest
        end
      else normalizePieces absolute (piece :: kept) rest
  end.

(** Pieces put together with a slash between them. *)
Fixpoint joinPieces (pieces : list jsstring) : jsstring :=
  match pieces with
  | [] => []
  | [piece] => piece
  | piece :: rest => piece ++ 47 :: joinPieces rest
  end.

(** [path.isAbsolute] *)
Definition isAbsolute (s : jsstring) : bool :=
  match s with
  | c :: _ => c =? 47
  | [] => false
  end.

Definition endsWithSlash (s : jsstring) : bool :=
  match last s with
  | Some c => c =? 47
  | None => false
  end.

(** [path.normalize] of POSIX: slashes that follow each other count once,
    [.] and [..] are resolved, a slash at the end stays, and the empty path
    is [.]. *)
Definition pathNormalize (s : jsstring) : jsstring :=
  match s with
  | [] => lit "."
  | _ =>
      match joinPieces (normalizePieces (isAbsolute s) [] (components s)) with
      | [] =>
          if isAbsolute s then lit "/"
          else if endsWithSlash s then lit "./" else lit "."
      | pieces =>
          (if isAbsolute s then lit "/" else [])
          ++ pieces ++ (if endsWithSlash s then lit "/" else [])
      end
  end.

(** [path.join] of POSIX on arguments that are strings: the arguments that
    are not empty, with a slash between them, normalized. *)
Definition pathJoin (paths : list jsstring) : jsstring :=
  pathNormalize (joinPieces (List.filter (fun arg => negb (JS.eqb arg [])) paths)).

(** The file or directory that the path [s] names in a process whose working
    directory is [cwd]: a relative path starts from there, and [.] and [..]
    are followed on the way (in what [path.join] returns, [..] is left at
    the start of a relative path only). *)
Definition locate (cwd : path) (s : jsstring) : path :=
  normalizePieces true [] ((if isAbsolute s then [] else cwd) ++ components s).

Arguments pathJoin : simpl never.
Arguments locate : simpl never.

(** The text of a path. *)
Definition pathText (p : path) : jsstring :=
  concat (map (fun c => 47 :: c) p).

(** [path.dirname] *)
Definition dirname (p : path) : path := removelast p.

(** A path with all the paths above it, as [mkdir -p] creates them. *)
Fixpoint ancestors (p : path) : list path :=
  match p with
  | [] => [[]]
  | c :: p' => [] :: map (cons c) (ancestors p')
  end.

(** The bytes of a file. *)
Abbreviation content := jsstring.

Inductive exn : Type :=
| ModNotFoundError (message modID version : jsstring)
| SetupError (message : jsstring)
| TypeError
| ENOENT (p : path)
| DownloadFailed (url : jsstring)
| VdfSyntaxError
| ExifToolError.

Inductive logline : Type :=
| LogDebug (message : jsstring)
| LogInfo (message : jsstring)
| LogError (message : jsstring)
| LogErrorOf (e : exn).

(** What the code does to the world outside the process, the log apart. *)
Inductive effect : Type :=
| NetVersionInfo (version : jsstring)
| NetDownload (url : jsstring)
| ProcIsRunning (name : jsstring)
| FsMkdir (p : path)
| FsWriteFile (p : path) (c : content)
| FsCopyFile (src dst : path)
| FsUnlink (p : path)
| ExifToolEnd.

Record world : Type := World {
  files : gmap path content;        (* the regular files *)
  dirs : gset path;                 (* the directories *)
  ficsitApp : gmap jsstring jsstring; (* SML version -> link of its release *)
  web : gmap jsstring content;      (* url -> what a download of it yields *)
  processes : gset jsstring;        (* names of the running processes *)
  effects : list effect;            (* oldest first *)
  logged : list logline             (* oldest first *)
}.

Definition emptyWorld : world :=
  World ∅ ∅ ∅ ∅ ∅ [] [].

Definition withFiles (f : gmap path content -> gmap path content) (w : world) : world :=
  World (f (files w)) (dirs w) (ficsitApp w) (web w) (processes w) (effects w) (logged w).

Definition withDirs (f : gset path -> gset path) (w : world) : world :=
  World (files w) (f (dirs w)) (ficsitApp w) (web w) (processes w) (effects w) (logged w).

Definition record (e : effect) (w : world) : world :=
  World (files w) (dirs w) (ficsitApp w) (web w) (processes w) (effects w ++ [e]) (logged w).

Definition logLine (l : logline) (w : world) : world :=
  World (files w) (dirs w) (ficsitApp w) (web w) (processes w) (effects w) (logged w ++ [l]).

(** The collaborators that are pure functions of their arguments, and the
    constants the two files import. *)
Record Platform : Type := {
  (* [smlCacheDir] of ./paths *)
  smlCacheDir : path;
  (* [process.env.HOME] *)
  HOME : jsstring;
  (* [process.cwd()] *)
  cwd : path;
  (* [valid(coerce(version))] of the semver package, [None] being [null] *)
  semver_valid_coerce : jsstring -> option jsstring;
  (* the native binding [smlVersion], on the bytes of the file it is given *)
  smlVersionNative : content -> option jsstring;
  (* [vdf.parse], [None] when it throws *)
  vdf_parse : content -> option vdf;
  (* [vdf.dump] *)
  vdf_dump : vdf -> content;
  (* [exiftool.read] on the bytes of an executable: [None] when the promise
     rejects, otherwise the tag [ProductVersion], which may be missing *)
  exiftool_read : content -> option (option jsstring)
}.

(** ** The monad of effects *)

Definition M (A : Type) : Type := world -> (exn + A) * world.

Definition ret {A} (a : A) : M A := fun w => (inr a, w).

Definition throw {A} (e : exn) : M A := fun w => (inl e, w).

Definition bind {A B} (m : M A) (k : A -> M B) : M B :=
  fun w => match m w with
           | (inl e, w') => (inl e, w')
           | (inr a, w') => k a w'
           end.

(** [try { body } catch (e) { handler e }] *)
Definition tryCatch {A} (body : M A) (handler : exn -> M A) : M A :=
  fun w => match body w with
           | (inl e, w') => handler e w'
           | (inr a, w') => (inr a, w')
           end.

Declare Scope js_scope.
Delimit Scope js_scope with js.
Notation "x <- c1 ;; c2" := (bind c1 (fun x => c2))
  (at level 100, c1 at next level, right associativity) : js_scope.
Notation "c1 ;; c2" := (bind c1 (fun _ => c2))
  (at level 100, right associativity) : js_scope.
Local Open Scope js_scope.

Definition fromOption {A} (e : exn) (o : option A) : M A :=
  match o with Some a => ret a | None => throw e end.

(** [v.k], which throws when [v] is [undefined]. A string has none of the
    keys the code asks for. *)
Definition getProp (v : jsval) (k : jsstring) : M jsval :=
  match v with
  | None => throw TypeError
  | Some (VStr _) => ret None
  | Some (VObj entries) => ret (assoc k entries)
  end.

(** A value used where a string is required (an argument of [path.join]). *)
Definition asString (v : jsval) : M jsstring :=
  match v with
  | Some (VStr s) => ret s
  | _ => throw TypeError
  end.

(** The outcome of a computation as a value: how a promise settled. *)
Definition settle {A} (m : M A) : M (exn + A) :=
  fun w => let (r, w') := m w in (inr r, w').

(** [m], run in [w], ends with a result and in a world that satisfy [Q]. *)
Definition outcome {A} (m : M A) (w : world) (Q : exn + A -> world -> Prop) : Prop :=
  Q (fst (m w)) (snd (m w)).
Arguments outcome : simpl never.

(** Two worlds with the same files and directories. *)
Definition sameFS (w w' : world) : Prop := files w = files w' ∧ dirs w = dirs w'.

(** The world with more lines in the log, and nothing else changed. *)
Definition logLines (lines : list logline) (w : world) : world :=
  World (files w) (dirs w) (ficsitApp w) (web w) (processes w) (effects w)
        (logged w ++ lines).

(** A line of the log written by [error(e)] for an exception. *)
Definition isErrorOf (l : logline) : bool :=
  match l with LogErrorOf _ => true | _ => false end.

(** The files of [w'] are those of [w], but for the paths of [touched],
    which may have been written; no file is gone. *)
Definition filesGrow (touched : list path) (w w' : world) : Prop :=
  (∀ p : path, is_Some (files w !! p) → is_Some (files w' !! p))
  ∧ (∀ p : path, p ∉ touched → files w' !! p = files w !! p).

(** *** The log *)

Definition debug (message : jsstring) : M unit := fun w => (inr tt, logLine (LogDebug message) w).
Definition info (message : jsstring) : M unit := fun w => (inr tt, logLine (LogInfo message) w).
Definition error (message : jsstring) : M unit := fun w => (inr tt, logLine (LogError message) w).
Definition errorOf (e : exn) : M unit := fun w => (inr tt, logLine (LogErrorOf e) w).

(** *** The file system *)

Definition pathExists (p : path) (w : world) : bool :=
  bool_decide (p ∈ dirs w) || bool_decide (is_Some (files w !! p)).

(** [fs.existsSync] *)
Definition existsSync (p : path) : M bool := fun w => (inr (pathExists p w), w).

(** [fs.readFileSync] *)
Definition readFileSync (p : path) : M content :=
  fun w => match files w !! p with
           | Some c => (inr c, w)
           | None => (inl (ENOENT p), w)
           end.

(** [fs.writeFileSync] *)
Definition writeFileSync (p : path) (c : content) : M unit :=
  fun w => (inr tt, record (FsWriteFile p c) (withFiles (insert p c) w)).

(** [fs.copyFileSync] *)
Definition copyFileSync (src dst : path) : M unit :=
  fun w => match files w !! src with
           | Some c => (inr tt, record (FsCopyFile src dst) (withFiles (insert dst c) w))
           | None => (inl (ENOENT src), w)
           end.

(** [fs.unlinkSync] *)
Definition unlinkSync (p : path) : M unit :=
  fun w => match files w !! p with
           | Some _ => (inr tt, record (FsUnlink p) (withFiles (delete p) w))
           | None => (inl (ENOENT p), w)
           end.

(** [fs.readdirSync]: the names of the entries of a directory. *)
Definition readdirSync (p : path) : M (list jsstring) :=
  fun w =>
    if bool_decide (p ∈ dirs w) then
      (inr (omap (fun q => if bool_decide (q ≠ [] ∧ dirname q = p)
                           then last q else None)
                 (elements (dirs w ∪ dom (files w)))), w)
    else (inl (ENOENT p), w).

(** Modelled from the spec: [ensureExists] of ./paths is not under src/; it
    creates the directory, and the directories above it, if it is missing. *)
Definition ensureExists (folder : path) : M unit :=
  fun w =>
    (inr tt,
     if pathExists folder w then w
     else record (FsMkdir folder)
            (withDirs (fun d => d ∪ list_to_set (ancestors folder)) w)).

(** A file system in which whatever exists lies in a directory that exists. *)
Definition consistent (w : world) : Prop :=
  (∀ p : path, is_Some (files w !! p) → dirname p ∈ dirs w)
  ∧ (∀ p : path, p ∈ dirs w → dirname p ∈ dirs w).

(** The files with [body] written at [file], if there is a [body]: the
    outcome of a download that may fail, of a copy whose source may be
    missing. *)
Definition withFile (file : path) (body : option content)
    (fs : gmap path content) : gmap path content :=
  match body with
  | Some bytes => <[file := bytes]> fs
  | None => fs
  end.

(** *** The network and the process table *)

(** Modelled from the spec: [getSMLVersionInfo] of ./ficsitApp is not under
    src/; it asks the metadata source for the release of a version. The
    result is the [link] of the answer, [None] when there is no answer or no
    link. *)
Definition getSMLVersionInfo_link (version : jsstring) : M (option jsstring) :=
  fun w => (inr (ficsitApp w !! version), record (NetVersionInfo version) w).

(** Modelled from the spec: [downloadFile] of ./utils is not under src/; it
    fetches [url] and writes the body at [file], creating the directory of
    [file] (nothing else creates a version's cache directory); a failed
    download throws and writes nothing. The label and the version only feed
    the progress display. *)
Definition downloadFile (url : jsstring) (file : path) (name version : jsstring) : M unit :=
  fun w =>
    match web w !! url with
    | Some body =>
        (ensureExists (dirname file) ;; writeFileSync file body) (record (NetDownload url) w)
    | None => (inl (DownloadFailed url), record (NetDownload url) w)
    end.

(** Modelled from the spec: [isRunning] of ./utils is not under src/; it
    tells whether a process of that name is running. *)
Definition isRunning (name : jsstring) : M bool :=
  fun w => (inr (bool_decide (name ∈ processes w)), record (ProcIsRunning name) w).

(** ** The SML handler *)

Module SML.
Section SMLHandler.

Variable P : Platform.

Definition SMLDLLFileName : jsstring := lit "UE4-SML-Win64-Shipping.dll".
Definition SMLPakFileName : jsstring := lit "SML.pak".

Definition SMLDLLRelativePath : path := [lit "loaders"; SMLDLLFileName].
Definition SMLPakRelativePath : path := [lit "loaders"; SMLPakFileName].

(** The native reader is given the path of the DLL; by the spec a missing
    file means that no loader is installed. *)
Definition getSMLVersion (satisfactoryPath : path) (w : world) : option jsstring :=
  match files w !! (satisfactoryPath ++ SMLDLLRelativePath) with
  | Some dll => smlVersionNative P dll
  | None => None
  end.

Definition getModsDir (satisfactoryPath : path) : path :=
  satisfactoryPath ++ [lit "mods"].

(** The message of lines 32 and 41. *)
Definition notFound (version : jsstring) : exn :=
  ModNotFoundError (lit "SML@" ++ version ++ lit " not found.") (lit "SML") version.

(** [path.join(smlCacheDir, validVersion)] *)
Definition versionCacheDir (validVersion : jsstring) : path :=
  smlCacheDir P ++ [validVersion].

(** The download links of lines 43 and 44. *)
Definition downloadLink (smlReleaseURL fileName : jsstring) : jsstring :=
  replace smlReleaseURL (lit "/tag/") (lit "/download/") ++ lit "/" ++ fileName.

Definition getSMLVersionCache (version : jsstring) : M path :=
  match whenTruthy (semver_valid_coerce P version) with
  | None => throw (notFound version)
  | Some validVersion =>
      let smlVersionCacheDir := versionCacheDir validVersion in
      let smlDLLVerionCacheFile := smlVersionCacheDir ++ [SMLDLLFileName] in
      let smlPakVerionCacheFile := smlVersionCacheDir ++ [SMLPakFileName] in
      cached <- existsSync smlVersionCacheDir ;;
      (if negb cached then
         debug (lit "SML@" ++ version ++ lit " is not cached. Downloading") ;;
         smlReleaseURL <- getSMLVersionInfo_link version ;;
         match whenTruthy smlReleaseURL with
         | Some smlReleaseURL =>
             let smlDLLDownloadLink := downloadLink smlReleaseURL SMLDLLFileName in
             let smlPakDownloadLink := downloadLink smlReleaseURL SMLPakFileName in
             hasPak <- tryCatch
                         (downloadFile smlPakDownloadLink smlPakVerionCacheFile
                                       (lit "SML (1/2)") validVersion ;;
                          ret true)
                         (fun e =>
                            debug (lit "Pak of SML version " ++ version ++ lit " not found.") ;;
                            ret false) ;;
             downloadFile smlDLLDownloadLink smlDLLVerionCacheFile
                          (lit "SML " ++ (if hasPak : bool then lit "(2/2)" else lit "(1/1)"))
                          validVersion
         | None => throw (notFound version)
         end
       else ret tt) ;;
      ret smlVersionCacheDir
  end.

Definition installSML (version : jsstring) (satisfactoryPath : path) : M unit :=
  fun w =>
    if negb (truthyStr (getSMLVersion satisfactoryPath w)) then
      (debug (lit "Installing SML") ;;
       smlVersionCache <- getSMLVersionCache version ;;
       ensureExists (dirname (satisfactoryPath ++ SMLDLLRelativePath)) ;;
       ensureExists (dirname (satisfactoryPath ++ SMLPakRelativePath)) ;;
       copyFileSync (smlVersionCache ++ [SMLDLLFileName]) (satisfactoryPath ++ SMLDLLRelativePath) ;;
       hasPak <- existsSync (smlVersionCache ++ [SMLPakFileName]) ;;
       if hasPak : bool then
         copyFileSync (smlVersionCache ++ [SMLPakFileName]) (satisfactoryPath ++ SMLPakRelativePath)
       else ret tt) w
    else debug (lit "SML is already installed") w.

Definition uninstallSML (satisfactoryPath : path) : M unit :=
  fun w =>
    let smlVersion := getSMLVersion satisfactoryPath w in
    if negb (truthyStr smlVersion) then debug (lit "No SML to uninstall") w
    else
      (debug (lit "Uninstalling SML") ;;
       hasDLL <- existsSync (satisfactoryPath ++ SMLDLLRelativePath) ;;
       (if hasDLL : bool then unlinkSync (satisfactoryPath ++ SMLDLLRelativePath) else ret tt) ;;
       hasPak <- existsSync (satisfactoryPath ++ SMLPakRelativePath) ;;
       if hasPak : bool then unlinkSync (satisfactoryPath ++ SMLPakRelativePath) else ret tt) w.

(** *** Notions the properties of the cache are stated with *)

(** Every version directory of the cache that exists holds the DLL. *)
Definition cacheComplete (w : world) : Prop :=
  ∀ v : jsstring,
    pathExists (versionCacheDir v) w = true →
    is_Some (files w !! (versionCacheDir v ++ [SMLDLLFileName])).

(** A call of [getSMLVersionCache] for [version] on [w] misses the cache,
    downloads the pak and then fails to download the DLL. *)
Definition pakWithoutDLL (version : jsstring) (w : world) : Prop :=
  ∃ validVersion smlReleaseURL : jsstring,
    whenTruthy (semver_valid_coerce P version) = Some validVersion
    ∧ pathExists (versionCacheDir validVersion) w = false
    ∧ whenTruthy (ficsitApp w !! version) = Some smlReleaseURL
    ∧ is_Some (web w !! downloadLink smlReleaseURL SMLPakFileName)
    ∧ web w !! downloadLink smlReleaseURL SMLDLLFileName = None.

End SMLHandler.
End SML.

(** ** The flatpak Steam install finder *)

Module SteamFlatpak.

Inductive setupAction : Type := SetupSteam.

(** The arguments [SatisfactoryInstall] is constructed with (the class is
    defined in ../../satisfactoryInstall). *)
Record SatisfactoryInstall : Type := {
  name : jsstring;
  version : jsstring;
  branch : jsstring;
  installLocation : jsstring;
  launchPath : jsstring;
  setup : option setupAction
}.

Record InstallFindResult : Type := {
  installs : list SatisfactoryInstall;
  invalidInstalls : list jsstring
}.

(** The read of an executable that a callback of [getInstalls] awaits. *)
Record pendingRead : Type := {
  pr_manifest : vdf;
  pr_fullInstallPath : jsstring;
  pr_gameExe : jsstring
}.

(** The digits at the start of [s]: [\d+] is greedy. *)
Fixpoint takeDigits (s : jsstring) : jsstring :=
  match s with
  | c :: s' => if isDigit c then c :: takeDigits s' else []
  | [] => []
  end.

(** [/CL-(?<version>\d+)/] tried at the start of [s]. *)
Definition matchCLHere (s : jsstring) : option jsstring :=
  if startsWith (lit "CL-") s then
    match takeDigits (drop 3 s) with
    | [] => None
    | digits => Some digits
    end
  else None.

(** [s.match(/CL-(?<version>\d+)/)?.groups.version] *)
Fixpoint matchCL (s : jsstring) : option jsstring :=
  match matchCLHere s with
  | Some digits => Some digits
  | None => match s with
            | [] => None
            | _ :: s' => matchCL s'
            end
  end.

(** The completion order of [pending] reads: [completion] names, step by
    step, which of the reads still in flight completes next. *)
Fixpoint completionOrder {A} (fuel : nat) (completion : list nat) (pending : list A) : list A :=
  match fuel with
  | O => []
  | S fuel' =>
      let i := (hd O completion `mod` length pending)%nat in
      match pending !! i with
      | Some t => t :: completionOrder fuel' (tl completion) (delete i pending)
      | None => []
      end
  end.

(** In a trace, every write of a file comes right after a check that Steam
    is not running. *)
Fixpoint guardedWrites (trace : list effect) : bool :=
  match trace with
  | [] => true
  | ProcIsRunning name :: FsWriteFile _ _ :: rest =>
      JS.eqb name (lit "steam") && guardedWrites rest
  | FsWriteFile _ _ :: _ => false
  | _ :: rest => guardedWrites rest
  end.

(** No file is written in a trace. *)
Definition noWrites (trace : list effect) : bool :=
  forallb (fun e => match e with FsWriteFile _ _ => false | _ => true end) trace.

(** Modelled from the spec: [forEachAsync] of ./utils is not under src/; the
    callback is run for every element, a rejected callback does not stop the
    others, and the first rejection is the outcome of the whole. *)
Fixpoint forEachAsync {A} (callback : A -> M unit) (l : list A) : M unit :=
  match l with
  | [] => ret tt
  | x :: rest =>
      r <- settle (callback x) ;;
      rs <- settle (forEachAsync callback rest) ;;
      match r, rs with
      | inl e, _ => throw e
      | inr _, inl e => throw e
      | inr _, inr _ => ret tt
      end
  end.

Section Finder.

Variable P : Platform.

Definition getGameVersionFromExe (exePath : path) : M jsstring :=
  fun w =>
    match files w !! exePath with
    | None => (inl ExifToolError, w)
    | Some bytes =>
        match exiftool_read P bytes with
        | None => (inl ExifToolError, w)
        | Some None => (inl TypeError, w)
        | Some (Some productVersion) =>
            match matchCL productVersion with
            | Some version => (inr version, w)
            | None => (inr (lit "0"), w)
            end
        end
    end.

Definition STEAM_DATA_LOCATION : jsstring :=
  HOME P ++ lit "/.var/app/com.valvesoftware.Steam/.steam/steam".

Definition STEAM_APP : jsstring := lit "526870".

Definition configFilePath (user : jsstring) : path :=
  components STEAM_DATA_LOCATION ++ [lit "userdata"; user; lit "config"; lit "localconfig.vdf"].

Definition steamIsRunningMessage : jsstring :=
  lit "Could not set the WINEDLLOVERRIDES launch options because Steam is currently running. Please close Steam and retry.".

(** [configFile] with the object at [keys] replaced by [new]. *)
Fixpoint setIn (keys : list jsstring) (new : vdf) (v : vdf) : vdf :=
  match keys with
  | [] => new
  | k :: keys' =>
      match v with
      | VObj entries =>
          match assoc k entries with
          | Some child => VObj (assocSet k (setIn keys' new child) entries)
          | None => v
          end
      | VStr _ => v
      end
  end.

Definition steamKeys : list jsstring :=
  [lit "UserLocalConfigStore"; lit "Software"; lit "Valve"; lit "Steam"].

(** [configFile] after the assignments of lines 69 and 100. When [aliased],
    line 69 has made [apps] the very object [Apps] is, so the assignment of
    line 100 shows under both keys. *)
Definition withLaunchOptions (configFile : vdf) (steam apps entry : list (jsstring * vdf))
    (aliased : bool) (launchOptions : jsstring) : vdf :=
  let entry' := VObj (assocSet (lit "LaunchOptions") (VStr launchOptions) entry) in
  let apps' := VObj (assocSet STEAM_APP entry' apps) in
  let steam' :=
    if aliased then assocSet (lit "apps") apps' (assocSet (lit "Apps") apps' steam)
    else assocSet (lit "apps") apps' steam in
  setIn steamKeys (VObj steam') configFile.

(** The line of the log written at line 66. *)
Definition appsKeyMissing (user : jsstring) : jsstring :=
  lit "Apps key not found in steam user config file " ++ pathText (configFilePath user).

(** Lines 62-71: the launch options of the user, with what line 100 needs to
    assign them; [None] when neither [apps] nor [Apps] is there (line 67). *)
Definition readLaunchOptions (user : jsstring)
  : M (option (vdf * list (jsstring * vdf) * jsval * bool * jsval * jsval)) :=
  configFile <- (text <- readFileSync (configFilePath user) ;;
                 fromOption VdfSyntaxError (vdf_parse P text)) ;;
  store <- getProp (Some configFile) (lit "UserLocalConfigStore") ;;
  software <- getProp store (lit "Software") ;;
  valve <- getProp software (lit "Valve") ;;
  steam <- getProp valve (lit "Steam") ;;
  apps <- getProp steam (lit "apps") ;;
  Apps <- (if truthy apps then ret None else getProp steam (lit "Apps")) ;;
  if negb (truthy apps) && negb (truthy Apps) then
    error (appsKeyMissing user) ;;
    ret None
  else
    let aliased := negb (truthy apps) in
    let apps := if aliased then Apps else apps in
    entry <- getProp apps STEAM_APP ;;
    launchOptions <- getProp entry (lit "LaunchOptions") ;;
    let steamEntries := match steam with Some (VObj es) => es | _ => [] end in
    ret (Some (configFile, steamEntries, apps, aliased, entry, launchOptions)).

(** The callback of [setupSteam] (lines 60-109) for one user. *)
Definition setupSteamUser (user : jsstring) : M unit :=
  tryCatch
    (found <- readLaunchOptions user ;;
     match found with
     | None => ret tt
     | Some (configFile, steam, apps, aliased, entry, launchOptions) =>
         let '(launchOptions, changed) := patch launchOptions in
         if changed : bool then
           running <- isRunning (lit "steam") ;;
           if running : bool then throw (SetupError steamIsRunningMessage)
           else
             match apps, entry with
             | Some (VObj apps), Some (VObj entry) =>
                 writeFileSync (configFilePath user)
                   (vdf_dump P (withLaunchOptions configFile steam apps entry aliased launchOptions))
             | _, _ => throw TypeError
             end
         else ret tt
     end)
    (fun e =>
       match e with
       | SetupError _ => throw e
       | _ => errorOf e
       end).

Definition setupSteam : M unit :=
  users <- readdirSync (components STEAM_DATA_LOCATION ++ [lit "userdata"]) ;;
  forEachAsync setupSteamUser users.

(** *** Notions the properties of [setupSteam] are stated with *)

(** The launch options lines 62-71 find for a user, if they get that far. *)
Definition launchOptionsRead (user : jsstring) (w : world) : option jsval :=
  match fst (readLaunchOptions user w) with
  | inr (Some (_, _, _, _, _, launchOptions)) => Some launchOptions
  | _ => None
  end.

(** The launch options of the user are a conformant string. *)
Definition profileConformant (user : jsstring) (w : world) : bool :=
  match launchOptionsRead user w with
  | Some (Some (VStr launchOptions)) => conformant launchOptions
  | _ => false
  end.

(** Lines 72-94 set [changed] for the user. *)
Definition profileNeedsChange (user : jsstring) (w : world) : bool :=
  match launchOptionsRead user w with
  | Some launchOptions => snd (patch launchOptions)
  | None => false
  end.

(** The text line 101 writes for the user, when line 100 can assign. *)
Definition patchedConfig (user : jsstring) (w : world) : option content :=
  match fst (readLaunchOptions user w) with
  | inr (Some (configFile, steam, Some (VObj apps), aliased, Some (VObj entry), launchOptions)) =>
      Some (vdf_dump P (withLaunchOptions configFile steam apps entry aliased
                          (fst (patch launchOptions))))
  | _ => None
  end.

(** [/^\d+$/.test(key)] *)
Definition isNumericKey (key : jsstring) : bool :=
  match key with
  | [] => false
  | _ => forallb isDigit key
  end.

(** [Object.entries(v)]: the entries of an object, the code units of a
    string under their indices (every such key passes the filter of line 119,
    so the keys are left out here); it throws on [undefined]. *)
Definition numericEntries (v : jsval) : M (list vdf) :=
  match v with
  | None => throw TypeError
  | Some (VStr s) => ret (map (fun c => VStr [c]) s)
  | Some (VObj entries) =>
      ret (map snd (List.filter (fun entry => isNumericKey (fst entry)) entries))
  end.

(** The callback of line 121 up to its first [await]: it settles at once
    ([None]), after a push on [invalidInstalls] in the case of line 132, or it
    is left awaiting the read of the executable. An exception is the promise
    of the callback being rejected. *)
Definition libraryFolderStart (libraryFolder : vdf) (invalidInstalls : list jsstring)
  : M (list jsstring * option pendingRead) :=
  libraryFolder <- asString (Some libraryFolder) ;;
  let sfManifestPath :=
    pathJoin [libraryFolder; lit "steamapps"; lit "appmanifest_526870.acf"] in
  found <- existsSync (locate (cwd P) sfManifestPath) ;;
  if found : bool then
    manifest <- (text <- readFileSync (locate (cwd P) sfManifestPath) ;;
                 fromOption VdfSyntaxError (vdf_parse P text)) ;;
    AppState <- getProp (Some manifest) (lit "AppState") ;;
    if negb (truthy (Some manifest)) || negb (truthy AppState) then
      info (lit "Invalid steam manifest " ++ sfManifestPath) ;;
      ret (invalidInstalls, None)
    else
      installdir <- (v <- getProp AppState (lit "installdir") ;; asString v) ;;
      let fullInstallPath :=
        pathJoin [libraryFolder; lit "steamapps"; lit "common"; installdir] in
      let gameExe :=
        pathJoin [fullInstallPath; lit "FactoryGame"; lit "Binaries"; lit "Win64";
                  lit "FactoryGame-Win64-Shipping.exe"] in
      exeFound <- existsSync (locate (cwd P) gameExe) ;;
      if negb exeFound then ret (invalidInstalls ++ [fullInstallPath], None)
      else ret (invalidInstalls, Some (Build_pendingRead manifest fullInstallPath gameExe))
  else ret (invalidInstalls, None).

(** The rest of the callback (lines 135-143), run when the read completes. *)
Definition libraryFolderResume (t : pendingRead) (installs : list SatisfactoryInstall)
  : M (list SatisfactoryInstall) :=
  gameVersion <- getGameVersionFromExe (locate (cwd P) (pr_gameExe t)) ;;
  AppState <- getProp (Some (pr_manifest t)) (lit "AppState") ;;
  name <- getProp AppState (lit "name") ;;
  UserConfig <- getProp AppState (lit "UserConfig") ;;
  betakey <- getProp UserConfig (lit "betakey") ;;
  experimental <- match betakey with
                  | None => ret false
                  | Some (VStr s) => ret (JS.eqb (toLowerCase s) (lit "experimental"))
                  | Some (VObj _) => throw TypeError
                  end ;;
  ret (installs ++
       [{| name := match name with Some v => ToString v | None => lit "undefined" end
                   ++ lit " "
                   ++ (if experimental : bool then lit "Experimental" else lit "Early Access")
                   ++ lit " (Steam)";
           version := gameVersion;
           branch := match betakey with
                     | Some v => if truthy betakey then ToString v else lit "EA"
                     | None => lit "EA"
                     end;
           installLocation := pr_fullInstallPath t;
           launchPath := lit "flatpak run com.valvesoftware.Steam steam://rungameid/526870";
           setup := Some SetupSteam |}]).

(** [libraryfolders.map(async ...)]: the callbacks start in order, each running
    up to its first [await]. The result lists how the promises stand when
    [map] returns: rejected, fulfilled, or awaiting a read. *)
Fixpoint startAll (libraryfolders : list vdf) (invalidInstalls : list jsstring)
  : M (list jsstring * list (exn + option pendingRead)) :=
  match libraryfolders with
  | [] => ret (invalidInstalls, [])
  | libraryFolder :: rest =>
      r <- settle (libraryFolderStart libraryFolder invalidInstalls) ;;
      match r with
      | inl e =>
          started <- startAll rest invalidInstalls ;;
          ret (fst started, inl e :: snd started)
      | inr (invalidInstalls, p) =>
          started <- startAll rest invalidInstalls ;;
          ret (fst started, inr p :: snd started)
      end
  end.

(** The reads complete one after the other; when a callback throws, the
    promise of [Promise.all] is rejected and the reads that are still in
    flight are not waited for. *)
Fixpoint awaitReads (ordered : list pendingRead) (installs : list SatisfactoryInstall)
  : M (list SatisfactoryInstall * option exn) :=
  match ordered with
  | [] => ret (installs, None)
  | t :: rest =>
      r <- settle (libraryFolderResume t installs) ;;
      match r with
      | inl e => ret (installs, Some e)
      | inr installs => awaitReads rest installs
      end
  end.

(** [await Promise.all(promises)]: a promise that is rejected when [map]
    returns rejects the whole before any read can complete (the reaction jobs
    of settled promises run before the events of the exiftool process are
    handled); the first one in the list is the reason. Otherwise the reads
    complete in the order [completion] gives. The result is the contents of
    [installs] when the [await] returns and the exception it throws, if any. *)
Definition promiseAll (completion : list nat) (promises : list (exn + option pendingRead))
  : M (list SatisfactoryInstall * option exn) :=
  match omap (fun p => match p with inl e => Some e | inr _ => None end) promises with
  | e :: _ => ret ([], Some e)
  | [] =>
      let pending := omap (fun p => match p with inr t => t | inl _ => None end) promises in
      awaitReads (completionOrder (length pending) completion pending) []
  end.

(** [exiftool.end()] *)
Definition exiftool_end : M unit := fun w => (inr tt, record ExifToolEnd w).

(** Lines 118-120: the library folders to look into. *)
Definition readLibraryFolders : M (list vdf) :=
  let steamAppsPath := components STEAM_DATA_LOCATION ++ [lit "steamapps"] in
  libraryfoldersManifest <-
    (text <- readFileSync (steamAppsPath ++ [lit "libraryfolders.vdf"]) ;;
     fromOption VdfSyntaxError (vdf_parse P text)) ;;
  LibraryFolders <- getProp (Some libraryfoldersManifest) (lit "LibraryFolders") ;;
  libraryfolders <- numericEntries LibraryFolders ;;
  ret (libraryfolders ++ [VStr STEAM_DATA_LOCATION]).

(** Lines 121-145 with the [catch] of line 146 for what [Promise.all] throws:
    the two arrays when the [await] is over. *)
Definition awaitLibraryFolders (completion : list nat) (libraryfolders : list vdf)
  : M InstallFindResult :=
  started <- startAll libraryfolders [] ;;
  awaited <- promiseAll completion (snd started) ;;
  match snd awaited with
  | Some e => errorOf e
  | None => ret tt
  end ;;
  ret {| installs := fst awaited; invalidInstalls := fst started |}.

(** [getInstalls]; [completion] is the order in which the reads of the
    executables complete. The arrays of the result are given as they are when
    the promise of [getInstalls] is fulfilled. *)
Definition getInstalls (completion : list nat) : M InstallFindResult :=
  let steamAppsPath := components STEAM_DATA_LOCATION ++ [lit "steamapps"] in
  found <- existsSync steamAppsPath ;;
  result <- (if found : bool then
               tryCatch
                 (libraryfolders <- readLibraryFolders ;;
                  awaitLibraryFolders completion libraryfolders)
                 (fun e =>
                    errorOf e ;;
                    ret {| installs := []; invalidInstalls := [] |})
             else
               debug (lit "Steam-flatpak is not installed") ;;
               ret {| installs := []; invalidInstalls := [] |}) ;;
  exiftool_end ;;
  ret result.

(** *** Notions the properties of [getInstalls] are stated with *)

(** [sfManifestPath] of line 122, [fullInstallPath] of line 129 and
    [gameExe] of line 130, as the strings [path.join] returns. *)
Definition manifestPath (libraryFolder : jsstring) : jsstring :=
  pathJoin [libraryFolder; lit "steamapps"; lit "appmanifest_526870.acf"].

Definition installPath (libraryFolder installdir : jsstring) : jsstring :=
  pathJoin [libraryFolder; lit "steamapps"; lit "common"; installdir].

Definition exePath (fullInstallPath : jsstring) : jsstring :=
  pathJoin [fullInstallPath; lit "FactoryGame"; lit "Binaries"; lit "Win64";
            lit "FactoryGame-Win64-Shipping.exe"].

(** The install directory an app manifest declares, when it has an
    [AppState] object with a string [installdir]. *)
Definition declaredInstallDir (manifest : vdf) : option jsstring :=
  match manifest with
  | VObj entries =>
      match assoc (lit "AppState") entries with
      | Some (VObj AppState) =>
          match assoc (lit "installdir") AppState with
          | Some (VStr installdir) => Some installdir
          | _ => None
          end
      | _ => None
      end
  | VStr _ => None
  end.

(** A read is awaited only for an executable that exists. *)
Definition awaitsExe (w : world) (awaiting : option pendingRead) : Prop :=
  match awaiting with
  | Some t => pr_gameExe t = exePath (pr_fullInstallPath t)
              ∧ pathExists (locate (cwd P) (pr_gameExe t)) w = true
  | None => True
  end.

(** [r] is one more install than [acc], at the path of the read [t], or an
    exception. *)
Definition installsAt (t : pendingRead) (acc : list SatisfactoryInstall)
    (r : exn + list SatisfactoryInstall) : Prop :=
  match r with
  | inl _ => True
  | inr installs =>
      ∃ i, installs = acc ++ [i] ∧ installLocation i = pr_fullInstallPath t
  end.

(** The app manifest of the library folder [root] parses and declares the
    install directory [installdir], and the executable of the game is not
    there. *)
Definition exeMissingAt (root installdir : jsstring) (w : world) : Prop :=
  ∃ text manifest,
    files w !! locate (cwd P) (manifestPath root) = Some text
    ∧ vdf_parse P text = Some manifest
    ∧ declaredInstallDir manifest = Some installdir
    ∧ pathExists (locate (cwd P) (exePath (installPath root installdir))) w = false.

(** The app manifest of the library folder [root] parses and declares the
    install directory [installdir], and the executable of the game is there. *)
Definition exeFoundAt (root installdir : jsstring) (w : world) : Prop :=
  ∃ text manifest,
    files w !! locate (cwd P) (manifestPath root) = Some text
    ∧ vdf_parse P text = Some manifest
    ∧ declaredInstallDir manifest = Some installdir
    ∧ pathExists (locate (cwd P) (exePath (installPath root installdir))) w = true.


(** The library folder [root] has an app manifest on which [vdf.parse]
    throws. *)
Definition corruptManifestAt (root : jsstring) (w : world) : Prop :=
  ∃ text, files w !! locate (cwd P) (manifestPath root) = Some text
          ∧ vdf_parse P text = None.

(** The promises that await a read await it for an executable that exists. *)
Definition promisesFor (w : world) (promises : list (exn + option pendingRead)) : Prop :=
  ∀ awaiting, inr awaiting ∈ promises → awaitsExe w awaiting.

End Finder.
End SteamFlatpak.

(** ** A concrete platform and concrete worlds

    The instances the examples below are run on. *)

Module Example.

Import SML SteamFlatpak.

(** A serialisation of VDF values, keys and strings between brackets. *)
Fixpoint dump (v : vdf) : content :=
  match v with
  | VStr s => lit "[" ++ s ++ lit "]"
  | VObj entries =>
      lit "{"
      ++ (fix dumpEntries (entries : list (jsstring * vdf)) : content :=
            match entries with
            | [] => []
            | (k, v) :: rest => lit "[" ++ k ++ lit "]" ++ dump v ++ dumpEntries rest
            end) entries
      ++ lit "}"
  end.

(** [o] nested under the keys [keys]. *)
Definition under (keys : list jsstring) (o : vdf) : vdf :=
  fold_right (fun k v => VObj [(k, v)]) o keys.

(** A user configuration whose only content is the launch options of the game. *)
Definition userConfig (launchOptions : jsstring) : vdf :=
  under (steamKeys ++ [lit "apps"; STEAM_APP; lit "LaunchOptions"]) (VStr launchOptions).

Definition libraryfolders : vdf :=
  VObj [(lit "LibraryFolders",
         VObj [(lit "TimeNextStatsReport", VStr (lit "1600000000"));
               (lit "ContentStatsID", VStr (lit "-1"));
               (lit "1", VStr (lit "/mnt/games"));
               (lit "2", VStr (lit "/mnt/empty"))])].

Definition appManifest : vdf :=
  VObj [(lit "AppState",
         VObj [(lit "name", VStr (lit "Satisfactory"));
               (lit "installdir", VStr (lit "Satisfactory"));
               (lit "UserConfig", VObj [(lit "betakey", VStr (lit "Experimental"))])])].

(** The files the parser of the example reads: a text that starts with
    [launch:] is a user configuration holding the rest of the text as launch
    options; two more texts stand for a library-folders manifest and an app
    manifest; anything else is a syntax error. *)
Definition parse (text : content) : option vdf :=
  if startsWith (lit "launch:") text then Some (userConfig (drop 7 text))
  else if JS.eqb text (lit "libraryfolders") then Some libraryfolders
  else if JS.eqb text (lit "appmanifest") then Some appManifest
  else None.

Definition platform : Platform := {|
  smlCacheDir := [lit "home"; lit "user"; lit ".cache"; lit "SatisfactoryModManager"; lit "smlCache"];
  HOME := lit "/home/user";
  cwd := [lit "home"; lit "user"];
  (* agrees with semver on the two versions used below *)
  semver_valid_coerce := fun v => if JS.eqb v (lit "v2.2.1") then Some (lit "2.2.1") else None;
  smlVersionNative :=
    fun bytes =>
      if startsWith (lit "SML ") bytes then
        match drop 4 bytes with
        | [] => None
        | version => Some version
        end
      else None;
  vdf_parse := parse;
  vdf_dump := dump;
  exiftool_read := fun bytes => if startsWith (lit "EXE ") bytes then Some (Some (drop 4 bytes)) else None
|}.

Definition releaseLink : jsstring :=
  lit "https://github.com/satisfactorymodding/SatisfactoryModLoader/releases/tag/v2.2.1".

Definition pakURL : jsstring :=
  lit "https://github.com/satisfactorymodding/SatisfactoryModLoader/releases/download/v2.2.1/SML.pak".

Definition dllURL : jsstring :=
  lit "https://github.com/satisfactorymodding/SatisfactoryModLoader/releases/download/v2.2.1/UE4-SML-Win64-Shipping.dll".

(** Nothing is cached; the release is known, its pak can be downloaded, its
    DLL cannot. *)
Definition pakOnlyWorld : world :=
  World ∅ (list_to_set (ancestors (smlCacheDir platform)))
        {[ lit "v2.2.1" := releaseLink ]} {[ pakURL := lit "PAK" ]} ∅ [] [].

(** Nothing is cached; the release is known, its DLL can be downloaded, its
    pak cannot. *)
Definition dllOnlyWorld : world :=
  World ∅ (list_to_set (ancestors (smlCacheDir platform)))
        {[ lit "v2.2.1" := releaseLink ]} {[ dllURL := lit "SML 2.2.1" ]} ∅ [] [].

Definition gameDir : path := [lit "games"; lit "Satisfactory"].

(** A game directory with SML 2.2.0 installed. *)
Definition installedWorld : world :=
  World {[ gameDir ++ SMLDLLRelativePath := lit "SML 2.2.0" ]}
        {[ gameDir; gameDir ++ [lit "loaders"] ]} ∅ ∅ ∅ [] [].

Definition steamRoot : path :=
  [lit "home"; lit "user"; lit ".var"; lit "app"; lit "com.valvesoftware.Steam";
   lit ".steam"; lit "steam"].

Definition gameExeBytes : content := lit "EXE ++FactoryGame+rel-main-CL-211839".

(** Steam with a second library folder, [/mnt/games]. The app manifest under
    the Steam directory is sound and the executable it leads to is there; the
    app manifest under [/mnt/games] holds [manifestOfGames]. *)
Definition steamWorld (manifestOfGames : content) : world :=
  World {[ steamRoot ++ [lit "steamapps"; lit "libraryfolders.vdf"] := lit "libraryfolders";
           locate (cwd platform) (manifestPath (lit "/mnt/games")) := manifestOfGames;
           locate (cwd platform) (manifestPath (STEAM_DATA_LOCATION platform))
             := lit "appmanifest";
           locate (cwd platform)
             (exePath (installPath (STEAM_DATA_LOCATION platform) (lit "Satisfactory")))
             := gameExeBytes ]}
        (list_to_set (ancestors (steamRoot ++ [lit "steamapps"])))
        ∅ ∅ ∅ [] [].

(** The install found under the Steam directory. *)
Definition steamInstall : SatisfactoryInstall :=
  {| name := lit "Satisfactory Experimental (Steam)";
     version := lit "211839";
     branch := lit "Experimental";
     installLocation := installPath (STEAM_DATA_LOCATION platform) (lit "Satisfactory");
     launchPath := lit "flatpak run com.valvesoftware.Steam steam://rungameid/526870";
     setup := Some SetupSteam |}.

(** The launch options of the game with the required value doubled in the
    block, and with more around the doubled value. *)
Definition doubledOptions : jsstring :=
  block DUPLICATED ++ lit " %command%".

Definition mixedOptions : jsstring :=
  block (lit "a;" ++ DUPLICATED ++ lit ";b;" ++ REQUIRED) ++ lit " %command%".

Definition conformantOptions : jsstring :=
  block REQUIRED ++ lit " %command%".

(** Steam with the user profiles [profiles] (user, text of the configuration
    file) and the running processes [running]. *)
Definition profilesWorld (profiles : list (jsstring * content)) (running : list jsstring)
  : world :=
  World (list_to_map (map (fun p => (configFilePath platform (fst p), snd p)) profiles))
        (list_to_set
           ((steamRoot ++ [lit "userdata"])
            :: map (fun p => steamRoot ++ [lit "userdata"; fst p]) profiles))
        ∅ ∅ (list_to_set running) [] [].

(** Three profiles: conformant launch options, launch options without the
    block, a configuration that does not parse. *)
Definition threeProfiles : list (jsstring * content) :=
  [(lit "1001", lit "launch:" ++ conformantOptions);
   (lit "1002", lit "launch:%command%");
   (lit "1003", lit "junk")].

(** The cache holds both artifacts of SML 2.2.1; the game directory has no
    loader. *)
Definition cachedWorld : world :=
  World {[ versionCacheDir platform (lit "2.2.1") ++ [SMLDLLFileName] := lit "SML 2.2.1";
           versionCacheDir platform (lit "2.2.1") ++ [SMLPakFileName] := lit "PAK" ]}
        (list_to_set (ancestors (versionCacheDir platform (lit "2.2.1"))))
        ∅ ∅ ∅ [] [].

(** A user configuration of the older layout: the entry of the game is
    under [Apps]. *)
Definition legacyConfig (launchOptions : jsstring) : vdf :=
  under (steamKeys ++ [lit "Apps"; STEAM_APP; lit "LaunchOptions"]) (VStr launchOptions).

(** [legacyConfig] with the launch options patched in the object that both
    [Apps] and [apps] then hold. *)
Definition legacyPatched (launchOptions : jsstring) : vdf :=
  let apps := under [STEAM_APP; lit "LaunchOptions"] (VStr launchOptions) in
  under steamKeys (VObj [(lit "Apps", apps); (lit "apps", apps)]).

(** A parser that reads back what [dump] writes for the configurations it
    knows. *)
Definition parseKnown (known : list vdf) (text : content) : option vdf :=
  find (fun config => JS.eqb (dump config) text) known.

(** The platform of the examples, with that parser. *)
Definition legacyPlatform : Platform := {|
  smlCacheDir := smlCacheDir platform;
  HOME := HOME platform;
  cwd := cwd platform;
  semver_valid_coerce := semver_valid_coerce platform;
  smlVersionNative := smlVersionNative platform;
  vdf_parse := parseKnown [legacyConfig (lit "%command%"); legacyPatched conformantOptions];
  vdf_dump := dump;
  exiftool_read := exiftool_read platform
|}.

(** One profile of the older layout, with launch options that have no block. *)
Definition legacyWorld (running : list jsstring) : world :=
  World {[ configFilePath legacyPlatform (lit "1001") := dump (legacyConfig (lit "%command%")) ]}
        {[ steamRoot ++ [lit "userdata"]; steamRoot ++ [lit "userdata"; lit "1001"] ]}
        ∅ ∅ (list_to_set running) [] [].

(** [legacyWorld] after the patch of its profile. *)
Definition legacyPatchedWorld (running : list jsstring) : world :=
  World {[ configFilePath legacyPlatform (lit "1001") := dump (legacyPatched conformantOptions) ]}
        {[ steamRoot ++ [lit "userdata"]; steamRoot ++ [lit "userdata"; lit "1001"] ]}
        ∅ ∅ (list_to_set running) [] [].

(** An app manifest whose install directory goes down and up again. *)
Definition dottedManifest : vdf :=
  VObj [(lit "AppState",
         VObj [(lit "name", VStr (lit "Satisfactory"));
               (lit "installdir", VStr (lit "Sub/.."));
               (lit "UserConfig", VObj [])])].

(** The platform of the examples, reading that manifest too. *)
Definition dottedPlatform : Platform := {|
  smlCacheDir := smlCacheDir platform;
  HOME := HOME platform;
  cwd := cwd platform;
  semver_valid_coerce := semver_valid_coerce platform;
  smlVersionNative := smlVersionNative platform;
  vdf_parse := fun text => if JS.eqb text (lit "dotted") then Some dottedManifest
                           else parse text;
  vdf_dump := dump;
  exiftool_read := exiftool_read platform
|}.

(** The library folder [/mnt/games] with that manifest, the game being right
    under [steamapps/common]; nothing under the Steam directory. *)
Definition dottedWorld : world :=
  World {[ steamRoot ++ [lit "steamapps"; lit "libraryfolders.vdf"] := lit "libraryfolders";
           [lit "mnt"; lit "games"; lit "steamapps"; lit "appmanifest_526870.acf"]
             := lit "dotted";
           [lit "mnt"; lit "games"; lit "steamapps"; lit "common"; lit "FactoryGame";
            lit "Binaries"; lit "Win64"; lit "FactoryGame-Win64-Shipping.exe"]
             := gameExeBytes ]}
        (list_to_set (ancestors (steamRoot ++ [lit "steamapps"])))
        ∅ ∅ ∅ [] [].


End Example.

(** * Properties *)

(** Literals are left folded by [simpl]; concrete examples are evaluated
    with [vm_compute]. *)
Opaque lit.

(** ** Paths and the file system *)

Section FileSystem.

Implicit Types (p q : path) (w : world).

Lemma dirname_snoc p (c : jsstring) : dirname (p ++ [c]) = p.
Proof. apply removelast_last. Qed.

Lemma dirname_snoc2 p (c d : jsstring) : dirname (p ++ [c; d]) = p ++ [c].
Proof.
  change [c; d] with ([c] ++ [d]). rewrite app_assoc. apply dirname_snoc.
Qed.

Lemma ancestors_prefix p q : q ∈ ancestors p ↔ q `prefix_of` p.
Proof.
  revert q. induction p as [|c p IH]; intros q; simpl.
  - rewrite list_elem_of_singleton. split.
    + intros ->. done.
    + intros [k Hk]. symmetry in Hk. by apply app_eq_nil in Hk as [-> _].
  - rewrite elem_of_cons, list_elem_of_fmap. split.
    + intros [-> | (q' & -> & Hq')]; [apply prefix_nil|].
      apply IH in Hq'. by apply prefix_cons.
    + intros Hpre. destruct q as [|c' q']; [by left|right].
      pose proof (prefix_cons_inv_1 _ _ _ _ Hpre) as ->.
      apply prefix_cons_inv_2 in Hpre. exists q'. split; [done|by apply IH].
Qed.

Lemma ancestors_self p : p ∈ ancestors p.
Proof. by apply ancestors_prefix. Qed.

(** A path of the same length as [p] is above [p] only if it is [p]. *)
Lemma ancestors_same_length p q :
  q ∈ ancestors p → length q = length p → q = p.
Proof.
  intros [k ->]%ancestors_prefix Hlen. rewrite length_app in Hlen.
  destruct k; [by rewrite app_nil_r|simpl in Hlen; lia].
Qed.

Lemma pathExists_dir p w : p ∈ dirs w → pathExists p w = true.
Proof. intros H. unfold pathExists. by rewrite bool_decide_eq_true_2. Qed.

Lemma pathExists_file p w : is_Some (files w !! p) → pathExists p w = true.
Proof.
  intros H. unfold pathExists.
  rewrite (bool_decide_eq_true_2 (is_Some _)) by done. apply orb_true_r.
Qed.

Lemma pathExists_false p w :
  pathExists p w = false ↔ (p ∉ dirs w) ∧ files w !! p = None.
Proof.
  unfold pathExists. rewrite orb_false_iff, !bool_decide_eq_false.
  by rewrite <- eq_None_not_Some.
Qed.

Lemma pathExists_true p w :
  pathExists p w = true ↔ p ∈ dirs w ∨ is_Some (files w !! p).
Proof. unfold pathExists. by rewrite orb_true_iff, !bool_decide_eq_true. Qed.

Lemma pathExists_ext p w' w :
  files w' = files w → dirs w' = dirs w → pathExists p w' = pathExists p w.
Proof. unfold pathExists. by intros -> ->. Qed.

(** In a consistent file system nothing exists under a missing directory. *)
Lemma consistent_missing p (c : jsstring) w :
  consistent w → pathExists p w = false → pathExists (p ++ [c]) w = false.
Proof.
  intros [Hfiles Hdirs] [Hdir _]%pathExists_false. apply pathExists_false. split.
  - intros Hin%Hdirs. by rewrite dirname_snoc in Hin.
  - apply eq_None_not_Some. intros Hin%Hfiles. by rewrite dirname_snoc in Hin.
Qed.

End FileSystem.

(** ** Strings *)

Section Strings.

Implicit Types (pat s t : jsstring).

Lemma startsWith_prefix pat s : startsWith pat s = true ↔ pat `prefix_of` s.
Proof.
  revert s. induction pat as [|p pat IH]; intros [|c s]; simpl.
  - split; [intros _; apply prefix_nil|done].
  - split; [intros _; apply prefix_nil|done].
  - split; [done|]. intros [k Hk]. discriminate.
  - rewrite andb_true_iff, N.eqb_eq, IH. split.
    + intros [-> Hpre]. by apply prefix_cons.
    + intros Hpre. split.
      * by apply prefix_cons_inv_1 in Hpre.
      * by apply prefix_cons_inv_2 in Hpre.
Qed.

Lemma startsWith_app pat t : startsWith pat (pat ++ t) = true.
Proof. apply startsWith_prefix. by exists t. Qed.

Lemma indexOf_here pat s : startsWith pat s = true → indexOf pat s = Some 0%nat.
Proof. intros H. destruct s; simpl; by rewrite H. Qed.

(** [indexOf] finds an occurrence, at the index it returns. *)
Lemma indexOf_Some pat s i :
  indexOf pat s = Some i →
  s = take i s ++ pat ++ drop (i + length pat) s ∧ (i + length pat ≤ length s)%nat.
Proof.
  revert i. induction s as [|c s IH]; intros i; simpl.
  - destruct (startsWith pat []) eqn:Hsw; [|done].
    intros [= <-]. apply startsWith_prefix in Hsw as [k Hk].
    symmetry in Hk. apply app_eq_nil in Hk as [-> ->]. done.
  - destruct (startsWith pat (c :: s)) eqn:Hsw.
    + intros [= <-]. apply startsWith_prefix in Hsw as [k Hk].
      pose proof (f_equal length Hk) as Hl. rewrite length_app in Hl. simpl in Hl.
      rewrite Hk. change (0 + length pat)%nat with (length pat).
      rewrite take_0, drop_app_length. split; [done|lia].
    + destruct (indexOf pat s) as [j|] eqn:Hj; [|done].
      simpl. intros [= <-]. destruct (IH j eq_refl) as [Heq Hlen].
      simpl. split; [by rewrite <- Heq|lia].
Qed.

(** Where there is an occurrence, [indexOf] finds one. *)
Lemma indexOf_occurrence pat s t u : s = t ++ pat ++ u → is_Some (indexOf pat s).
Proof.
  revert s. induction t as [|c t IH]; intros s ->; simpl.
  - rewrite indexOf_here by apply startsWith_app. eauto.
  - destruct (startsWith pat (c :: t ++ pat ++ u)); [eauto|].
    destruct (IH _ eq_refl) as [j ->]. simpl. eauto.
Qed.

Lemma includes_occurrence pat s t u : s = t ++ pat ++ u → includes pat s = true.
Proof.
  intros H. unfold includes. by destruct (indexOf_occurrence pat s t u H) as [i ->].
Qed.

Lemma includes_true pat s :
  includes pat s = true → ∃ t u, s = t ++ pat ++ u.
Proof.
  unfold includes. destruct (indexOf pat s) as [i|] eqn:Hi; [|done].
  intros _. apply indexOf_Some in Hi as [Heq _]. eauto.
Qed.

(** Removing the first occurrence of a pattern. *)
Lemma replace_empty_length pat s :
  includes pat s = true → (length (replace s pat []) + length pat = length s)%nat.
Proof.
  unfold includes, replace. destruct (indexOf pat s) as [i|] eqn:Hi; [|done].
  intros _. apply indexOf_Some in Hi as [_ Hlen]. simpl.
  rewrite length_app, length_take, length_drop. lia.
Qed.

(** Two ways to cut a string around the separator [c]: when [r] holds no
    separator, the cut at [a] is not inside the first [r]. *)
Lemma occurrence_split (t u a b r : jsstring) (c : N) :
  t ++ r ++ [c] ++ r ++ u = a ++ [c] ++ r ++ b →
  c ∉ r →
  (∃ k, a = t ++ r ++ k) ∨ (∃ k, b = k ++ r ++ u).
Proof.
  intros Heq Hc.
  destruct (decide (length t + length r ≤ length a)%nat) as [Hle|Hgt].
  { left. exists (take (length a - length (t ++ r)) ([c] ++ r ++ u)).
    apply (f_equal (take (length a))) in Heq.
    rewrite (take_app_length a) in Heq.
    rewrite (app_assoc t r), take_app_ge in Heq by (rewrite length_app; lia).
    by rewrite <- app_assoc in Heq. }
  destruct (decide (length a ≤ length t)%nat) as [Hle|Hgt'].
  { right. exists (drop (length a + 1 + length r) (t ++ r ++ [c])).
    replace (t ++ r ++ [c] ++ r ++ u) with ((t ++ r ++ [c]) ++ r ++ u) in Heq
      by (by rewrite <- !app_assoc).
    replace (a ++ [c] ++ r ++ b) with ((a ++ [c] ++ r) ++ b) in Heq
      by (by rewrite <- !app_assoc).
    apply (f_equal (drop (length a + 1 + length r))) in Heq.
    rewrite (drop_app_length' (a ++ _)) in Heq by (rewrite !length_app; simpl; lia).
    rewrite drop_app_le in Heq by (rewrite !length_app; simpl; lia).
    done. }
  exfalso. apply Hc.
  apply (f_equal (fun l => l !! length a)) in Heq.
  rewrite (lookup_app_r a), Nat.sub_diag in Heq by lia. simpl in Heq.
  rewrite lookup_app_r, lookup_app_l in Heq by lia.
  by apply list_elem_of_lookup_2 in Heq.
Qed.

Lemma occurrences_cons pat c s :
  occurrences pat (c :: s)
  = ((if startsWith pat (c :: s) then 1 else 0) + occurrences pat s)%nat.
Proof. done. Qed.

Lemma occurrences_suffix pat t u :
  (occurrences pat u ≤ occurrences pat (t ++ u))%nat.
Proof. induction t as [|c t IH]; simpl; lia. Qed.

Lemma occurrences_here pat u : (1 ≤ occurrences pat (pat ++ u))%nat.
Proof.
  pose proof (startsWith_app pat u) as H.
  destruct (pat ++ u); simpl; rewrite H; lia.
Qed.

(** Two occurrences that do not overlap are counted twice. *)
Lemma occurrences_twice pat t k u :
  pat ≠ [] → (2 ≤ occurrences pat (t ++ pat ++ k ++ pat ++ u))%nat.
Proof.
  intros Hpat. etrans; [|apply occurrences_suffix].
  pose proof (startsWith_app pat (k ++ pat ++ u)) as H.
  destruct pat as [|c pat]; [done|].
  change ((c :: pat) ++ k ++ (c :: pat) ++ u)
    with (c :: pat ++ k ++ (c :: pat) ++ u) in *.
  rewrite occurrences_cons, H.
  pose proof (occurrences_suffix (c :: pat) (pat ++ k) ((c :: pat) ++ u)) as Hs.
  pose proof (occurrences_here (c :: pat) u) as Hh.
  rewrite <- app_assoc in Hs. lia.
Qed.

End Strings.

(** ** The launch-options patch *)

Section LaunchOptionsProperties.

Implicit Types (s group : jsstring).

Lemma includes_duplicated_separator s :
  includes DUPLICATED s = true → includes (lit ";" ++ REQUIRED) s = true.
Proof.
  intros (t & u & ->)%includes_true.
  apply (includes_occurrence _ _ (t ++ REQUIRED) u).
  unfold DUPLICATED. by rewrite <- !app_assoc.
Qed.

Lemma required_no_separator : 59 ∉ REQUIRED.
Proof. apply (bool_decide_unpack _). by vm_compute. Qed.

Lemma required_not_empty : REQUIRED ≠ [].
Proof. intros H. vm_compute in H. discriminate. Qed.

Lemma includes_duplicated_required s :
  includes DUPLICATED s = true → includes REQUIRED s = true.
Proof.
  intros (t & u & ->)%includes_true.
  apply (includes_occurrence _ _ t (lit ";" ++ REQUIRED ++ u)).
  unfold DUPLICATED. by rewrite <- !app_assoc.
Qed.

(** One turn of the loop of lines 84-86 takes out the first separator
    followed by the required value; as the required value is doubled, one of
    the two is left. *)
Lemma replace_separator_keeps_required s :
  includes DUPLICATED s = true →
  includes REQUIRED (replace s (lit ";" ++ REQUIRED) []) = true.
Proof.
  intros Hdup. pose proof (includes_duplicated_separator _ Hdup) as Hsep.
  apply includes_true in Hdup as (t & u & Hs).
  unfold includes in Hsep. unfold replace.
  destruct (indexOf (lit ";" ++ REQUIRED) s) as [i|] eqn:Hi; [|done].
  apply indexOf_Some in Hi as [Heq _]. simpl GetSubstitution. simpl app at 2.
  set (a := take i s) in *. set (b := drop _ s) in *. clearbody a b.
  rewrite Hs in Heq. unfold DUPLICATED in Heq.
  change (lit ";") with [59] in Heq.
  rewrite <- !app_assoc in Heq.
  destruct (occurrence_split _ _ _ _ _ _ Heq required_no_separator) as [[k ->]|[k ->]].
  - apply (includes_occurrence _ _ t (k ++ b)). by rewrite <- !app_assoc.
  - apply (includes_occurrence _ _ (a ++ k) u). by rewrite <- !app_assoc.
Qed.

Lemma dedupLoop_keeps_required fuel s :
  includes REQUIRED s = true → includes REQUIRED (dedupLoop fuel s) = true.
Proof.
  revert s. induction fuel as [|fuel IH]; intros s Hs; simpl; [done|].
  destruct (includes DUPLICATED s) eqn:Hdup; [|done].
  by apply IH, replace_separator_keeps_required.
Qed.

(** The defect behind C3, in general: the loop leaves one required value in
    the group and line 87 appends another, so the block that is built holds
    the required value at least twice. *)
Lemma deduplicated_block_doubled group :
  includes DUPLICATED group = true →
  (2 ≤ occurrences REQUIRED (deduplicate group ++ lit ";" ++ REQUIRED))%nat.
Proof.
  intros Hdup%includes_duplicated_required.
  apply (dedupLoop_keeps_required (length group)), includes_true in Hdup
    as (t & u & Heq).
  unfold deduplicate. rewrite Heq.
  pose proof (occurrences_twice REQUIRED t (u ++ lit ";") [] required_not_empty) as H.
  by rewrite <- !app_assoc, app_nil_r in *.
Qed.

Lemma dedupLoop_fuel fuel s :
  (length s ≤ fuel)%nat → includes DUPLICATED (dedupLoop fuel s) = false.
Proof.
  revert s. induction fuel as [|fuel IH]; intros s Hlen; simpl.
  - destruct s; [by vm_compute|simpl in Hlen; lia].
  - destruct (includes DUPLICATED s) eqn:Hdup; [|done].
    apply IH. apply includes_duplicated_separator, replace_empty_length in Hdup.
    rewrite length_app in Hdup. change (length (lit ";")) with 1%nat in Hdup. lia.
Qed.

(** The loop of lines 84-86 ends, and it ends on a string in which the
    required value is not doubled. *)
Lemma deduplicate_done group : includes DUPLICATED (deduplicate group) = false.
Proof. by apply dedupLoop_fuel. Qed.

Lemma includes_duplicated_nil : includes DUPLICATED [] = false.
Proof. by vm_compute. Qed.

(** Fuel beyond the length changes nothing. *)
Lemma dedupLoop_enough fuel group :
  (length group ≤ fuel)%nat → dedupLoop fuel group = deduplicate group.
Proof.
  unfold deduplicate.
  assert (H : ∀ n m s, (length s ≤ n)%nat → (length s ≤ m)%nat →
                       dedupLoop n s = dedupLoop m s); [|by auto].
  induction n as [|n IH]; intros m s Hn Hm.
  - destruct s; [|simpl in Hn; lia].
    destruct m; simpl; [done|by rewrite includes_duplicated_nil].
  - destruct m as [|m].
    + destruct s; [|simpl in Hm; lia]. simpl. by rewrite includes_duplicated_nil.
    + simpl. destruct (includes DUPLICATED s) eqn:Hdup; [|done].
      apply includes_duplicated_separator, replace_empty_length in Hdup.
      rewrite length_app in Hdup. change (length (lit ";")) with 1%nat in Hdup.
      apply IH; lia.
Qed.

Lemma exec_nil : exec [] = None.
Proof. by vm_compute. Qed.

(** A conformant string is left as it is, and [changed] stays false. *)
Lemma patch_conformant s : conformant s = true → patch (Some (VStr s)) = (s, false).
Proof.
  unfold conformant, patch. destruct s as [|c s]; [by rewrite exec_nil|].
  simpl truthy. cbv iota. simpl ToString.
  destruct (exec (c :: s)) as [group|]; [|done].
  intros [-> ->%negb_true_iff]%andb_true_iff. done.
Qed.

Lemma patch_changed_not_conformant s :
  snd (patch (Some (VStr s))) = false → conformant s = true.
Proof.
  unfold conformant, patch. destruct s as [|c s]; [done|].
  simpl truthy. cbv iota. simpl ToString.
  destruct (exec (c :: s)) as [group|]; [|done].
  destruct (includes REQUIRED group); [|done].
  by destruct (includes DUPLICATED group).
Qed.

(** Lines 82-89 are the branch taken on a block in which the required value
    is doubled. *)
Lemma patch_duplicated s group :
  exec s = Some group → includes DUPLICATED group = true →
  patch (Some (VStr s))
  = (replace s (block group) (block (deduplicate group ++ lit ";" ++ REQUIRED)), true).
Proof.
  intros Hexec Hdup. unfold patch.
  destruct s as [|c s]; [by rewrite exec_nil in Hexec|].
  simpl truthy. cbv iota. simpl ToString. rewrite Hexec.
  by rewrite (includes_duplicated_required _ Hdup), Hdup.
Qed.

End LaunchOptionsProperties.

(** ** The SML handler *)

Section SMLProperties.

Import SML.

Variable P : Platform.

Implicit Types (V : jsstring) (G p : path) (w : world).

Lemma getSMLVersion_files G w w' :
  files w' = files w → getSMLVersion P G w' = getSMLVersion P G w.
Proof. unfold getSMLVersion. by intros ->. Qed.

Lemma getSMLVersion_no_file G w :
  files w !! (G ++ SMLDLLRelativePath) = None → getSMLVersion P G w = None.
Proof. unfold getSMLVersion. by intros ->. Qed.

Lemma getSMLVersion_truthy_file G w :
  truthyStr (getSMLVersion P G w) = true → is_Some (files w !! (G ++ SMLDLLRelativePath)).
Proof.
  unfold getSMLVersion. destruct (files w !! _); [eauto|discriminate].
Qed.

Lemma getSMLVersionCache_invalid V w :
  whenTruthy (semver_valid_coerce P V) = None →
  getSMLVersionCache P V w = (inl (notFound V), w).
Proof. unfold getSMLVersionCache. by intros ->. Qed.

(** Whatever the state of the game directory, it holds no readable loader
    once [uninstallSML] has run. *)
Lemma uninstallSML_no_file G w :
  truthyStr (getSMLVersion P G w) = true →
  files (snd (uninstallSML P G w)) !! (G ++ SMLDLLRelativePath) = None.
Proof.
  intros Htruthy. pose proof (getSMLVersion_truthy_file _ _ Htruthy) as [dll Hdll].
  unfold uninstallSML. rewrite Htruthy. simpl.
  unfold bind, debug, existsSync, unlinkSync, ret. simpl.
  rewrite pathExists_file by (simpl; eauto). simpl. rewrite Hdll. simpl.
  assert (Hne : G ++ SMLPakRelativePath ≠ G ++ SMLDLLRelativePath).
  { intros Heq%app_inv_head. discriminate. }
  destruct (pathExists (G ++ SMLPakRelativePath) _); simpl.
  - rewrite lookup_delete_ne by done.
    destruct (files w !! (G ++ SMLPakRelativePath)); simpl.
    + rewrite lookup_delete_ne by done. apply lookup_delete_eq.
    + apply lookup_delete_eq.
  - apply lookup_delete_eq.
Qed.

Lemma uninstallSML_absent G w :
  (∀ bytes, smlVersionNative P bytes ≠ Some []) →
  getSMLVersion P G (snd (uninstallSML P G w)) = None.
Proof.
  intros Hnative.
  destruct (truthyStr (getSMLVersion P G w)) eqn:Htruthy.
  - apply getSMLVersion_no_file. by apply uninstallSML_no_file.
  - unfold uninstallSML. rewrite Htruthy. simpl.
    unfold getSMLVersion in *. simpl.
    destruct (files w !! (G ++ SMLDLLRelativePath)) as [dll|]; [|done].
    destruct (smlVersionNative P dll) as [[|c v]|] eqn:Hv; [|discriminate|done].
    by apply Hnative in Hv.
Qed.

Lemma getSMLVersionCache_hit V w v :
  whenTruthy (semver_valid_coerce P V) = Some v →
  pathExists (versionCacheDir P v) w = true →
  getSMLVersionCache P V w = (inr (versionCacheDir P v), w).
Proof.
  intros Hv Hhit. unfold getSMLVersionCache. rewrite Hv.
  unfold bind, existsSync, ret. by rewrite Hhit.
Qed.

Lemma getSMLVersionCache_unknown V w v :
  whenTruthy (semver_valid_coerce P V) = Some v →
  pathExists (versionCacheDir P v) w = false →
  whenTruthy (ficsitApp w !! V) = None →
  fst (getSMLVersionCache P V w) = inl (notFound V)
  ∧ files (snd (getSMLVersionCache P V w)) = files w
  ∧ dirs (snd (getSMLVersionCache P V w)) = dirs w.
Proof.
  intros Hv Hmiss Hlink. unfold getSMLVersionCache. rewrite Hv.
  unfold bind, existsSync, debug, getSMLVersionInfo_link, throw.
  rewrite Hmiss. simpl. by rewrite Hlink.
Qed.

Lemma downloadFile_fail url file n v w :
  web w !! url = None →
  downloadFile url file n v w = (inl (DownloadFailed url), record (NetDownload url) w).
Proof. unfold downloadFile. by intros ->. Qed.

Lemma downloadFile_ok url dir (f : jsstring) n v w body :
  web w !! url = Some body →
  downloadFile url (dir ++ [f]) n v w
  = (inr tt,
     record (FsWriteFile (dir ++ [f]) body)
       (withFiles <[dir ++ [f] := body]>
          (snd (ensureExists dir (record (NetDownload url) w))))).
Proof.
  unfold downloadFile. intros ->. rewrite dirname_snoc.
  unfold bind, ensureExists, writeFileSync. done.
Qed.

Lemma getSMLVersionCache_miss_run V w v link :
  whenTruthy (semver_valid_coerce P V) = Some v →
  pathExists (versionCacheDir P v) w = false →
  whenTruthy (ficsitApp w !! V) = Some link →
  ∃ w',
    getSMLVersionCache P V w
    = (match web w !! downloadLink link SMLDLLFileName with
       | Some _ => inr (versionCacheDir P v)
       | None => inl (DownloadFailed (downloadLink link SMLDLLFileName))
       end, w')
    ∧ files w'
      = withFile (versionCacheDir P v ++ [SMLDLLFileName])
          (web w !! downloadLink link SMLDLLFileName)
          (withFile (versionCacheDir P v ++ [SMLPakFileName])
             (web w !! downloadLink link SMLPakFileName) (files w))
    ∧ dirs w'
      = match web w !! downloadLink link SMLPakFileName,
              web w !! downloadLink link SMLDLLFileName with
        | None, None => dirs w
        | _, _ => dirs w ∪ list_to_set (ancestors (versionCacheDir P v))
        end.
Proof.
  intros Hv Hmiss Hlink.
  unfold getSMLVersionCache. rewrite Hv.
  unfold bind at 1, existsSync at 1. rewrite Hmiss. cbv beta iota. simpl negb. cbv iota.
  unfold bind at 1 2. unfold debug at 1. unfold bind at 1, getSMLVersionInfo_link at 1.
  change (ficsitApp (logLine _ w)) with (ficsitApp w). rewrite Hlink.
  unfold bind at 1, tryCatch at 1, bind at 1.
  set (w1 := record (NetVersionInfo V) (logLine _ w)).
  assert (Hw1 : web w1 = web w) by done.
  assert (Hf1 : files w1 = files w) by done.
  assert (Hd1 : dirs w1 = dirs w) by done.
  assert (Hm1 : pathExists (versionCacheDir P v) w1 = false)
    by (by rewrite (pathExists_ext _ _ w)).
  clearbody w1.
  destruct (web w !! downloadLink link SMLPakFileName) as [pak|] eqn:Hpak.
  - rewrite downloadFile_ok with (body := pak) by (by rewrite Hw1).
    unfold ensureExists. cbv beta iota. unfold snd at 1.
    rewrite (pathExists_ext _ _ w1), Hm1 by done. unfold ret at 1. cbv beta iota.
    set (w2 := record _ (withFiles _ _)).
    assert (Hw2 : web w2 = web w) by done.
    assert (Hf2 : files w2 = <[versionCacheDir P v ++ [SMLPakFileName] := pak]> (files w))
      by (by rewrite <- Hf1).
    assert (Hd2 : dirs w2 = dirs w ∪ list_to_set (ancestors (versionCacheDir P v)))
      by (by rewrite <- Hd1).
    clearbody w2.
    destruct (web w !! downloadLink link SMLDLLFileName) as [dll|] eqn:Hdll.
    + rewrite downloadFile_ok with (body := dll) by (by rewrite Hw2).
      unfold ensureExists. cbv beta iota. unfold snd at 1.
      rewrite (pathExists_ext _ _ w2), pathExists_dir
        by (done || rewrite Hd2; apply elem_of_union_r, elem_of_list_to_set, ancestors_self).
      unfold ret. eexists. split; [reflexivity|]. simpl. by rewrite Hf2, Hd2.
    + rewrite downloadFile_fail by (by rewrite Hw2).
      eexists. split; [reflexivity|]. simpl. by rewrite Hf2, Hd2.
  - rewrite downloadFile_fail by (by rewrite Hw1).
    unfold bind at 1, debug at 1, ret at 1. cbv beta iota.
    set (w2 := logLine _ (record _ w1)).
    assert (Hw2 : web w2 = web w) by done.
    assert (Hf2 : files w2 = files w) by (by rewrite <- Hf1).
    assert (Hd2 : dirs w2 = dirs w) by (by rewrite <- Hd1).
    assert (Hm2 : pathExists (versionCacheDir P v) w2 = false)
      by (by rewrite (pathExists_ext _ _ w)).
    clearbody w2.
    destruct (web w !! downloadLink link SMLDLLFileName) as [dll|] eqn:Hdll.
    + rewrite downloadFile_ok with (body := dll) by (by rewrite Hw2).
      unfold ensureExists. cbv beta iota. unfold snd at 1.
      rewrite (pathExists_ext _ _ w2), Hm2 by done. unfold ret. eexists. split; [reflexivity|]. simpl.
      by rewrite Hf2, Hd2.
    + rewrite downloadFile_fail by (by rewrite Hw2).
      eexists. split; [reflexivity|]. simpl. by rewrite Hf2, Hd2.
Qed.

(** What a call that misses the cache and finds the release does. *)
Lemma getSMLVersionCache_miss V w v link :
  whenTruthy (semver_valid_coerce P V) = Some v →
  pathExists (versionCacheDir P v) w = false →
  whenTruthy (ficsitApp w !! V) = Some link →
  let pak := web w !! downloadLink link SMLPakFileName in
  let dll := web w !! downloadLink link SMLDLLFileName in
  let w' := snd (getSMLVersionCache P V w) in
  fst (getSMLVersionCache P V w)
  = match dll with
    | Some _ => inr (versionCacheDir P v)
    | None => inl (DownloadFailed (downloadLink link SMLDLLFileName))
    end
  ∧ files w'
    = withFile (versionCacheDir P v ++ [SMLDLLFileName]) dll
        (withFile (versionCacheDir P v ++ [SMLPakFileName]) pak (files w))
  ∧ dirs w'
    = match pak, dll with
      | None, None => dirs w
      | _, _ => dirs w ∪ list_to_set (ancestors (versionCacheDir P v))
      end.
Proof.
  intros Hv Hmiss Hlink.
  destruct (getSMLVersionCache_miss_run V w v link Hv Hmiss Hlink) as (w' & -> & Hf & Hd).
  done.
Qed.

Lemma ensureExists_files d w : files (snd (ensureExists d w)) = files w.
Proof. unfold ensureExists. simpl. by destruct (pathExists d w). Qed.

Lemma ensureExists_dirs d w :
  dirs (snd (ensureExists d w)) ⊆ dirs w ∪ list_to_set (ancestors d).
Proof.
  unfold ensureExists. simpl. destruct (pathExists d w); simpl; set_solver.
Qed.




Lemma names_differ : SMLPakFileName ≠ SMLDLLFileName ∧ SMLPakFileName ≠ lit "loaders".
Proof. split; intros H; vm_compute in H; discriminate. Qed.

Lemma ensureExists_run d w :
  ∃ w', ensureExists d w = (inr tt, w') ∧ files w' = files w
        ∧ dirs w' ⊆ dirs w ∪ list_to_set (ancestors d).
Proof.
  eexists. split; [reflexivity|]. split; simpl.
  - by destruct (pathExists d w).
  - destruct (pathExists d w); simpl; set_solver.
Qed.

Lemma installSML_cached V G w v dll :
  truthyStr (getSMLVersion P G w) = false →
  whenTruthy (semver_valid_coerce P V) = Some v →
  pathExists (versionCacheDir P v) w = true →
  files w !! (versionCacheDir P v ++ [SMLDLLFileName]) = Some dll →
  versionCacheDir P v ++ [SMLPakFileName] ∉ dirs w →
  ¬ versionCacheDir P v `prefix_of` G →
  ∃ w', installSML P V G w = (inr tt, w')
  ∧ files w'
    = withFile (G ++ SMLPakRelativePath)
        (files w !! (versionCacheDir P v ++ [SMLPakFileName]))
        (<[G ++ SMLDLLRelativePath := dll]> (files w)).
Proof.
  intros Hnone Hv Hhit Hdll Hnodir Hout.
  unfold installSML. rewrite Hnone. simpl.
  unfold bind at 1. unfold debug at 1.
  unfold bind at 1.
  rewrite (getSMLVersionCache_hit _ _ v) by (done || by rewrite (pathExists_ext _ _ w)).
  unfold SMLDLLRelativePath, SMLPakRelativePath. rewrite !dirname_snoc2.
  unfold bind at 1.
  destruct (ensureExists_run (G ++ [lit "loaders"]) (logLine (LogDebug (lit "Installing SML")) w))
    as (w1 & -> & Hf1 & Hd1).
  unfold bind at 1.
  destruct (ensureExists_run (G ++ [lit "loaders"]) w1) as (w2 & -> & Hf2 & Hd2).
  simpl in Hf1, Hd1.
  unfold bind, copyFileSync, existsSync, ret. rewrite Hf2, Hf1, Hdll.
  destruct names_differ as [Hpd Hpl].
  assert (Hne : G ++ [lit "loaders"; SMLDLLFileName] ≠ versionCacheDir P v ++ [SMLPakFileName]).
  { change [lit "loaders"; SMLDLLFileName] with ([lit "loaders"] ++ [SMLDLLFileName]).
    rewrite app_assoc. intros [_ H]%app_inj_tail. by apply Hpd. }
  destruct (files w !! (versionCacheDir P v ++ [SMLPakFileName])) as [pak|] eqn:Hpak; simpl.
  - rewrite pathExists_file
      by (simpl; rewrite lookup_insert_ne, Hf2, Hf1, Hpak by done; eauto).
    simpl. rewrite lookup_insert_ne, Hf2, Hf1, Hpak by done.
    eexists. split; [reflexivity|]. simpl. by rewrite Hf2, Hf1.
  - assert (Hmiss : pathExists (versionCacheDir P v ++ [SMLPakFileName])
              (record (FsCopyFile (versionCacheDir P v ++ [SMLDLLFileName])
                         (G ++ [lit "loaders"; SMLDLLFileName]))
                 (withFiles <[G ++ [lit "loaders"; SMLDLLFileName]:=dll]> w2)) = false).
    { apply pathExists_false. simpl. split.
      - intros Hin. apply Hd2, elem_of_union in Hin as [Hin|Hin];
          [apply Hd1, elem_of_union in Hin as [Hin|Hin]; [done|] |];
          apply elem_of_list_to_set, ancestors_prefix in Hin as [k Hk];
          (destruct k as [|c k _] using rev_ind;
            [rewrite app_nil_r in Hk; apply app_inj_tail in Hk as [_ Hk]; by apply Hpl
            |rewrite !app_assoc in Hk; apply app_inj_tail in Hk as [Hk _];
             apply Hout; exists ([SMLPakFileName] ++ k); by rewrite app_assoc]).
      - by rewrite lookup_insert_ne, Hf2, Hf1. }
    rewrite Hmiss. eexists. split; [reflexivity|]. simpl. by rewrite Hf2, Hf1.
Qed.

Lemma cacheComplete_ext w w' :
  files w' = files w → dirs w' = dirs w → cacheComplete P w → cacheComplete P w'.
Proof.
  intros Hf Hd Hc v Hex. rewrite Hf. apply Hc.
  by rewrite <- (pathExists_ext _ w' w).
Qed.

Lemma versionCacheDir_inj v v' : versionCacheDir P v = versionCacheDir P v' → v = v'.
Proof. unfold versionCacheDir. intros H%app_inv_head. by injection H. Qed.

Lemma versionCacheDir_length v v' :
  length (versionCacheDir P v) = length (versionCacheDir P v').
Proof. unfold versionCacheDir. by rewrite !length_app. Qed.

Lemma versionCacheDir_file_ne v v' (f : jsstring) :
  versionCacheDir P v ++ [f] ≠ versionCacheDir P v'.
Proof.
  intros H%(f_equal length). rewrite length_app, (versionCacheDir_length v v') in H.
  simpl in H. lia.
Qed.

(** Populating the directory of [v] makes no other version directory
    appear. *)
Lemma populate_other_version v v' pak dll w fs ds :
  v' ≠ v →
  fs = withFile (versionCacheDir P v ++ [SMLDLLFileName]) dll
         (withFile (versionCacheDir P v ++ [SMLPakFileName]) pak (files w)) →
  ds ⊆ dirs w ∪ list_to_set (ancestors (versionCacheDir P v)) →
  (versionCacheDir P v' ∈ ds ∨ is_Some (fs !! versionCacheDir P v')) →
  pathExists (versionCacheDir P v') w = true.
Proof.
  intros Hne -> Hds [Hdir | Hfile]; apply pathExists_true.
  - left. apply Hds, elem_of_union in Hdir as [Hdir | Hdir]; [done|].
    apply elem_of_list_to_set, ancestors_same_length in Hdir;
      [|apply versionCacheDir_length].
    by apply versionCacheDir_inj in Hdir.
  - right. revert Hfile. unfold withFile.
    destruct dll, pak;
      rewrite ?lookup_insert_ne by apply versionCacheDir_file_ne; done.
Qed.

(** C1 (amended): a call of [getSMLVersionCache] keeps the cache complete
    (every version directory that exists holds the DLL), in whatever way it
    ends, unless it is a call that downloads the pak and then fails to
    download the DLL. *)
Theorem cache_stays_complete V w :
  cacheComplete P w →
  ¬ pakWithoutDLL P V w →
  cacheComplete P (snd (getSMLVersionCache P V w)).
Proof.
  intros Hc Hnot.
  destruct (whenTruthy (semver_valid_coerce P V)) as [v|] eqn:Hv;
    [|by rewrite getSMLVersionCache_invalid].
  destruct (pathExists (versionCacheDir P v) w) eqn:Hex;
    [by rewrite (getSMLVersionCache_hit _ _ v)|].
  destruct (whenTruthy (ficsitApp w !! V)) as [link|] eqn:Hlink.
  2:{ destruct (getSMLVersionCache_unknown V w v) as (_ & Hf & Hd); [done..|].
      by apply (cacheComplete_ext w). }
  destruct (getSMLVersionCache_miss V w v link) as (_ & Hf & Hd); [done..|].
  destruct (web w !! downloadLink link SMLDLLFileName) as [dll|] eqn:Hdll.
  - intros v' Hex'. rewrite Hf.
    destruct (decide (v' = v)) as [->|Hne].
    + simpl. rewrite lookup_insert_eq. eauto.
    + assert (Hold : pathExists (versionCacheDir P v') w = true).
      { apply pathExists_true in Hex'. rewrite Hf in Hex'.
        eapply (populate_other_version v v' _ _ w _
                  (dirs (snd (getSMLVersionCache P V w))));
          [done|reflexivity| |exact Hex'].
        rewrite Hd. by destruct (web w !! downloadLink link SMLPakFileName). }
      apply Hc in Hold. revert Hold. simpl. unfold withFile.
      assert (∀ f g : jsstring, versionCacheDir P v ++ [f] ≠ versionCacheDir P v' ++ [g]).
      { intros f g [H _]%app_inj_tail. by apply versionCacheDir_inj in H. }
      destruct (web w !! downloadLink link SMLPakFileName);
        rewrite ?lookup_insert_ne by done; done.
  - destruct (web w !! downloadLink link SMLPakFileName) as [pak|] eqn:Hpak.
    + exfalso. apply Hnot. exists v, link. rewrite Hpak. eauto 10.
    + by apply (cacheComplete_ext w).
Qed.

(** C2 (amended): for a version that fails the coercion,
    [getSMLVersionCache] throws [ModNotFoundError] with the component [SML]
    and the raw version and leaves the world as it is; [installSML] throws
    the same error when no loader is installed in the game directory and
    returns normally when one is; either way it writes no file, creates no
    directory and causes no effect outside the log. *)
Theorem invalid_version_not_found V G w :
  semver_valid_coerce P V = None →
  getSMLVersionCache P V w
  = (inl (ModNotFoundError (lit "SML@" ++ V ++ lit " not found.") (lit "SML") V), w)
  ∧ fst (installSML P V G w)
    = (if truthyStr (getSMLVersion P G w) then inr tt
       else inl (ModNotFoundError (lit "SML@" ++ V ++ lit " not found.") (lit "SML") V))
  ∧ files (snd (installSML P V G w)) = files w
  ∧ dirs (snd (installSML P V G w)) = dirs w
  ∧ effects (snd (installSML P V G w)) = effects w.
Proof.
  intros Hv.
  assert (Hc : ∀ w, getSMLVersionCache P V w = (inl (notFound V), w)).
  { intros w0. apply getSMLVersionCache_invalid. by rewrite Hv. }
  split; [apply Hc|].
  unfold installSML. destruct (truthyStr (getSMLVersion P G w)); simpl.
  - done.
  - unfold bind, debug. by rewrite Hc.
Qed.

(** C5: on a cache miss for a known release, a failed download of the DLL
    makes [getSMLVersionCache] throw; a failed download of the pak followed by
    a successful download of the DLL makes it return the cache directory,
    holding the DLL as the only new file, and an [installSML] that follows
    copies the DLL into the game directory and nothing else. *)
Theorem pak_is_optional V G w v link :
  whenTruthy (semver_valid_coerce P V) = Some v →
  pathExists (versionCacheDir P v) w = false →
  whenTruthy (ficsitApp w !! V) = Some link →
  (web w !! downloadLink link SMLDLLFileName = None →
   fst (getSMLVersionCache P V w)
   = inl (DownloadFailed (downloadLink link SMLDLLFileName)))
  ∧ (∀ dll,
       web w !! downloadLink link SMLPakFileName = None →
       web w !! downloadLink link SMLDLLFileName = Some dll →
       consistent w →
       ¬ versionCacheDir P v `prefix_of` G →
       truthyStr (getSMLVersion P G (snd (getSMLVersionCache P V w))) = false →
       fst (getSMLVersionCache P V w) = inr (versionCacheDir P v)
       ∧ files (snd (getSMLVersionCache P V w))
         = <[versionCacheDir P v ++ [SMLDLLFileName] := dll]> (files w)
       ∧ fst (installSML P V G (snd (getSMLVersionCache P V w))) = inr tt
       ∧ files (snd (installSML P V G (snd (getSMLVersionCache P V w))))
         = <[G ++ SMLDLLRelativePath := dll]>
             (files (snd (getSMLVersionCache P V w)))).
Proof.
  intros Hv Hmiss Hlink.
  destruct (getSMLVersionCache_miss V w v link) as (Hr & Hf & Hd); [done..|].
  simpl in Hr, Hf, Hd. split.
  - intros Hdll. by rewrite Hr, Hdll.
  - intros dll Hpak Hdll Hcons Hout Hnone.
    rewrite Hpak, Hdll in *. simpl in Hf.
    pose proof (consistent_missing _ SMLPakFileName _ Hcons Hmiss)
      as [Hpakdir Hpakfile]%pathExists_false.
    destruct names_differ as [Hpd _].
    assert (Hne : versionCacheDir P v ++ [SMLDLLFileName]
                  ≠ versionCacheDir P v ++ [SMLPakFileName]).
    { intros [_ H]%app_inj_tail. by apply Hpd. }
    destruct (installSML_cached V G (snd (getSMLVersionCache P V w)) v dll)
      as (w2 & Hrun & Hf2); try done.
    + apply pathExists_dir. rewrite Hd.
      apply elem_of_union_r, elem_of_list_to_set, ancestors_self.
    + rewrite Hf. apply lookup_insert_eq.
    + rewrite Hd. intros [Hin|Hin]%elem_of_union; [done|].
      apply elem_of_list_to_set, ancestors_prefix in Hin as [k Hk].
      apply (f_equal length) in Hk. rewrite !length_app in Hk. simpl in Hk. lia.
    + rewrite Hrun. simpl. rewrite Hf2.
      assert (files (snd (getSMLVersionCache P V w))
                !! (versionCacheDir P v ++ [SMLPakFileName]) = None) as ->
        by (by rewrite Hf, lookup_insert_ne).
      done.
Qed.

(** C7: whatever the version and whatever the cache holds (a pak or none),
    once [installSML] and then [uninstallSML] have run on a game directory,
    [getSMLVersion] reports no loader there. The native reader is assumed
    never to give the empty string for a version. *)
Theorem install_then_uninstall V G w :
  (∀ bytes, smlVersionNative P bytes ≠ Some []) →
  getSMLVersion P G (snd (uninstallSML P G (snd (installSML P V G w)))) = None.
Proof. intros Hnative. by apply uninstallSML_absent. Qed.

End SMLProperties.

(** ** The Steam launch options of the user profiles *)

Section SetupSteamProperties.

Import SteamFlatpak.

Variable P : Platform.

Implicit Types (user : jsstring) (w : world).

(** Reading the launch options changes nothing but the log, and it never
    throws [SetupError]. *)
Lemma readLaunchOptions_world user w :
  snd (readLaunchOptions P user w)
  = match fst (readLaunchOptions P user w) with
    | inr None => logLine (LogError (appsKeyMissing P user)) w
    | _ => w
    end
  ∧ ∀ m, fst (readLaunchOptions P user w) ≠ inl (SetupError m).
Proof.
  unfold readLaunchOptions.
  unfold bind, readFileSync, fromOption, getProp, error, ret, throw.
  repeat (simpl; case_match; simplify_eq; try done).
Qed.

Lemma setupSteamUser_read_fails user w e :
  fst (readLaunchOptions P user w) = inl e →
  setupSteamUser P user w = (inr tt, logLine (LogErrorOf e) w).
Proof.
  intros He. destruct (readLaunchOptions_world user w) as [Hw Hns].
  unfold setupSteamUser, tryCatch, bind.
  destruct (readLaunchOptions P user w) as [r w']. simpl in *. subst r w'.
  destruct e; try done. by destruct (Hns message).
Qed.

Lemma setupSteamUser_no_apps user w :
  fst (readLaunchOptions P user w) = inr None →
  setupSteamUser P user w = (inr tt, logLine (LogError (appsKeyMissing P user)) w).
Proof.
  intros He. destruct (readLaunchOptions_world user w) as [Hw _].
  unfold setupSteamUser, tryCatch, bind.
  destruct (readLaunchOptions P user w) as [r w']. simpl in *. by subst r w'.
Qed.

(** Lines 96-102, for a user whose launch options were read. *)
Lemma setupSteamUser_read user w configFile steam apps aliased entry launchOptions :
  fst (readLaunchOptions P user w)
  = inr (Some (configFile, steam, apps, aliased, entry, launchOptions)) →
  setupSteamUser P user w
  = if snd (patch launchOptions) then
      if bool_decide (lit "steam" ∈ processes w) then
        (inl (SetupError steamIsRunningMessage), record (ProcIsRunning (lit "steam")) w)
      else
        match patchedConfig P user w with
        | Some text =>
            (inr tt, record (FsWriteFile (configFilePath P user) text)
                       (withFiles <[configFilePath P user := text]>
                          (record (ProcIsRunning (lit "steam")) w)))
        | None =>
            (inr tt, logLine (LogErrorOf TypeError) (record (ProcIsRunning (lit "steam")) w))
        end
    else (inr tt, w).
Proof.
  intros He. destruct (readLaunchOptions_world user w) as [Hw _].
  unfold patchedConfig. unfold setupSteamUser, tryCatch, bind.
  destruct (readLaunchOptions P user w) as [r w']. simpl in *. subst r w'.
  destruct (patch launchOptions) as [launchOptions' changed]. simpl.
  destruct changed; [|done].
  unfold isRunning, throw, writeFileSync, errorOf. simpl.
  destruct (bool_decide (lit "steam" ∈ processes w)); [done|].
  destruct apps as [[|apps]|], entry as [[|entry]|]; done.
Qed.




Lemma profileConformant_read user w :
  profileConformant P user w = true →
  ∃ configFile steam apps aliased entry launchOptions,
    fst (readLaunchOptions P user w)
    = inr (Some (configFile, steam, apps, aliased, entry, Some (VStr launchOptions)))
    ∧ conformant launchOptions = true.
Proof.
  unfold profileConformant, launchOptionsRead.
  destruct (fst (readLaunchOptions P user w)) as [e|[[[[[[c s] a] al] en] lo]|]];
    [done| |done].
  destruct lo as [[lo|]|]; [|done..].
  intros H. by exists c, s, a, al, en, lo.
Qed.


Lemma forEachAsync_cons {A} (callback : A → M unit) x rest w :
  forEachAsync callback (x :: rest) w
  = (match fst (callback x w) with
     | inl e => inl e
     | inr _ => fst (forEachAsync callback rest (snd (callback x w)))
     end,
     snd (forEachAsync callback rest (snd (callback x w)))).
Proof.
  simpl. unfold bind, settle, throw, ret.
  destruct (callback x w) as [r w1]. simpl.
  destruct (forEachAsync callback rest w1) as [rs w2]. simpl.
  destruct r as [e|[]], rs as [e'|[]]; done.
Qed.

Lemma guardedWrites_check name t :
  guardedWrites t = true → guardedWrites (ProcIsRunning name :: t) = true.
Proof. destruct t as [|[] t]; simpl; try done. Qed.

Lemma noWrites_guarded t : noWrites t = true → guardedWrites t = true.
Proof.
  induction t as [|e t IH]; [done|]. simpl. intros [He Ht]%andb_true_iff.
  destruct e; try (by apply IH). 
  - by apply guardedWrites_check, IH.
  - done.
Qed.




Lemma setupSteam_users w users :
  fst (readdirSync (components (STEAM_DATA_LOCATION P) ++ [lit "userdata"]) w) = inr users →
  setupSteam P w = forEachAsync (setupSteamUser P) users w.
Proof.
  unfold setupSteam, bind, readdirSync.
  destruct (bool_decide _); [|done]. simpl. by intros [= <-].
Qed.

(** C10: the callback of [setupSteam] leaves the world exactly as it is for
    a user whose launch options are conformant: no check whether Steam runs,
    no write, no line in the log; and when this holds for every user listed,
    [setupSteam] returns normally and leaves the world as it is, whether or
    not Steam is running. *)
Theorem conformant_profiles_untouched w :
  (∀ user, profileConformant P user w = true →
           setupSteamUser P user w = (inr tt, w))
  ∧ (∀ users,
       fst (readdirSync (components (STEAM_DATA_LOCATION P) ++ [lit "userdata"]) w)
       = inr users →
       (∀ user, user ∈ users → profileConformant P user w = true) →
       setupSteam P w = (inr tt, w)).
Proof.
  assert (Hone : ∀ user, profileConformant P user w = true →
                         setupSteamUser P user w = (inr tt, w)).
  { intros user (c & s & a & al & en & lo & Hread & Hconf)%profileConformant_read.
    rewrite (setupSteamUser_read _ _ _ _ _ _ _ _ Hread).
    by rewrite (patch_conformant _ Hconf). }
  split; [exact Hone|].
  intros users Hls Hall. rewrite (setupSteam_users _ _ Hls). clear Hls.
  induction users as [|user users IH]; [done|].
  rewrite forEachAsync_cons, Hone by (apply Hall; left). simpl.
  rewrite IH by (intros u Hu; apply Hall; by right). done.
Qed.


End SetupSteamProperties.

(** ** Install discovery *)

Section Outcomes.

Context {A B : Type}.

Lemma outcome_bind (m : M A) (k : A → M B) w (Q : exn + B → world → Prop) :
  outcome m w (λ r w', match r with
                       | inl e => Q (inl e) w'
                       | inr a => outcome (k a) w' Q
                       end) →
  outcome (bind m k) w Q.
Proof.
  unfold outcome, bind. destruct (m w) as [[e|a] w']; simpl; done.
Qed.

Lemma outcome_weaken (m : M A) w (Q Q' : exn + A → world → Prop) :
  (∀ r w', Q r w' → Q' r w') → outcome m w Q → outcome m w Q'.
Proof. unfold outcome. auto. Qed.

End Outcomes.

Section DiscoveryProperties.

Import SteamFlatpak.

Variable P : Platform.

Implicit Types (w : world) (root : jsstring) (libraryFolder : vdf).

Lemma sameFS_refl w : sameFS w w.
Proof. done. Qed.

Lemma sameFS_trans w1 w2 w3 : sameFS w1 w2 → sameFS w2 w3 → sameFS w1 w3.
Proof. intros [? ?] [? ?]. split; congruence. Qed.

Lemma pathExists_sameFS p w w' : sameFS w w' → pathExists p w' = pathExists p w.
Proof. intros [? ?]. by apply pathExists_ext. Qed.

(** Whatever the library folder: the start of the callback leaves the file
    system as it is, keeps what was pushed before, and awaits a read only
    for an executable that exists. *)
Lemma libraryFolderStart_post libraryFolder acc w :
  outcome (libraryFolderStart P libraryFolder acc) w
    (λ r w', sameFS w w'
             ∧ match r with
               | inl _ => True
               | inr (acc', awaiting) => acc `prefix_of` acc' ∧ awaitsExe P w awaiting
               end).
Proof.
  unfold libraryFolderStart.
  apply outcome_bind. destruct libraryFolder as [root|entries]; [|done].
  unfold outcome at 1. simpl.
  apply outcome_bind. unfold outcome at 1. simpl.
  destruct (pathExists _ w) eqn:Hmanifest; [|done].
  apply outcome_bind, outcome_bind. unfold outcome at 1, readFileSync.
  destruct (files w !! _) as [text|]; [|done]. simpl.
  unfold outcome at 1, fromOption.
  destruct (vdf_parse P text) as [manifest|]; [|done]. simpl.
  assert (Hinvalid : outcome
            (info (lit "Invalid steam manifest "
                   ++ pathJoin [root; lit "steamapps"; lit "appmanifest_526870.acf"]) ;;
             ret (acc, None)) w
            (λ r w', sameFS w w'
                     ∧ match r with
                       | inl _ => True
                       | inr (acc', awaiting) => acc `prefix_of` acc' ∧ awaitsExe P w awaiting
                       end)).
  { apply outcome_bind. by unfold outcome. }
  apply outcome_bind. unfold outcome at 1, getProp.
  destruct manifest as [s|manifest]; simpl.
  { by rewrite orb_true_r. }
  destruct (assoc (lit "AppState") manifest) as [AppState|]; [|done].
  destruct (truthy (Some AppState)); [|done]. simpl.
  apply outcome_bind, outcome_bind. unfold outcome at 1.
  destruct AppState as [s|AppState]; simpl.
  { unfold outcome. by simpl. }
  unfold outcome at 1, asString.
  destruct (assoc (lit "installdir") AppState) as [[installdir|?]|]; [|by simpl..]. simpl.
  apply outcome_bind. unfold outcome at 1. simpl.
  match goal with
  | |- context [negb (pathExists ?p w)] => destruct (pathExists p w) eqn:Hexe
  end; simpl; unfold outcome; simpl.
  - split; [apply sameFS_refl|]. split; [done|]. unfold exePath. simpl. by split.
  - split; [apply sameFS_refl|]. split; [|done]. by apply prefix_app_r.
Qed.

(** What the awaited read leads to: one more install, at the path the
    executable was looked for. *)
Lemma libraryFolderResume_post t acc w :
  outcome (libraryFolderResume P t acc) w (λ r w', w' = w ∧ installsAt t acc r).
Proof.
  unfold libraryFolderResume, outcome, installsAt.
  unfold bind, getGameVersionFromExe, getProp, ret, throw.
  repeat (simpl; case_match; simplify_eq; try done); eauto.
Qed.

Lemma exeMissingAt_sameFS root installdir w w' :
  sameFS w w' → exeMissingAt P root installdir w → exeMissingAt P root installdir w'.
Proof.
  intros Hs (text & manifest & Hf & Hp & Hd & He). exists text, manifest.
  rewrite (pathExists_sameFS _ w w') by done. destruct Hs as [Hfs _].
  by rewrite <- Hfs.
Qed.

Lemma corruptManifestAt_sameFS root w w' :
  sameFS w w' → corruptManifestAt P root w → corruptManifestAt P root w'.
Proof. intros [Hfs _] (text & Hf & Hp). exists text. by rewrite <- Hfs. Qed.



Lemma libraryFolderStart_corrupt root acc w :
  corruptManifestAt P root w →
  libraryFolderStart P (VStr root) acc w = (inl VdfSyntaxError, w).
Proof.
  unfold corruptManifestAt, manifestPath, libraryFolderStart. intros (text & Hf & Hp).
  unfold bind, asString, ret, existsSync, readFileSync, fromOption.
  rewrite pathExists_file by eauto. by rewrite Hf, Hp.
Qed.

Lemma libraryFolderStart_exe_missing root installdir acc w :
  exeMissingAt P root installdir w →
  libraryFolderStart P (VStr root) acc w
  = (inr (acc ++ [installPath root installdir], None), w).
Proof.
  unfold exeMissingAt, manifestPath, installPath, exePath, libraryFolderStart.
  intros (text & manifest & Hf & Hp & Hd & He).
  unfold bind, asString, ret, existsSync, readFileSync, fromOption.
  rewrite pathExists_file by eauto. rewrite Hf, Hp.
  unfold declaredInstallDir in Hd.
  destruct manifest as [|manifest]; [done|]. simpl.
  destruct (assoc (lit "AppState") manifest) as [[|AppState]|]; [done| |done]. simpl.
  destruct (assoc (lit "installdir") AppState) as [[d|]|]; [|done..].
  injection Hd as ->. simpl in He |- *. unfold ret. by rewrite He.
Qed.

Lemma awaitsExe_sameFS w w' awaiting :
  sameFS w w' → awaitsExe P w' awaiting → awaitsExe P w awaiting.
Proof.
  intros Hs. destruct awaiting as [t|]; [|done]. simpl.
  by rewrite (pathExists_sameFS _ w w').
Qed.

(** [libraryfolders.map(async ...)]: the file system is left as it is; what
    was pushed before stays; a folder whose executable is missing has its
    install path pushed; a folder whose manifest is corrupt leaves a rejected
    promise; a read is awaited only for an executable that exists. *)
Lemma startAll_spec roots acc w :
  ∃ inv promises w',
    startAll P roots acc w = (inr (inv, promises), w')
    ∧ sameFS w w'
    ∧ acc `prefix_of` inv
    ∧ promisesFor P w promises
    ∧ (∀ root installdir,
         VStr root ∈ roots → exeMissingAt P root installdir w →
         installPath root installdir ∈ inv)
    ∧ (∀ root, VStr root ∈ roots → corruptManifestAt P root w →
               ∃ e, inl e ∈ promises).
Proof.
  revert acc w. induction roots as [|lf roots IH]; intros acc w.
  - exists acc, [], w. simpl. unfold ret, promisesFor.
    repeat split; try done; intros; by rewrite ?elem_of_nil in *.
  - pose proof (libraryFolderStart_post lf acc w) as Hpost.
    unfold outcome in Hpost. simpl. unfold bind at 1, settle at 1.
    destruct (libraryFolderStart P lf acc w) as [r w1] eqn:Hstart.
    simpl in Hpost. destruct Hpost as [Hs1 Hr].
    destruct r as [e|[acc1 awaiting]].
    + destruct (IH acc w1) as (inv & promises & w2 & Hrun & Hs2 & Hpre & Hpr & Hmiss & Hcor).
      unfold bind, ret. simpl. rewrite Hrun. simpl.
      exists inv, (inl e :: promises), w2. split; [done|].
      split; [by eapply sameFS_trans|]. split; [done|]. split; [|split].
      * intros a [Ha|Ha]%elem_of_cons; [done|].
        eapply awaitsExe_sameFS; [exact Hs1|by apply Hpr].
      * intros root installdir [Hin|Hin]%elem_of_cons Hm.
        -- subst lf. rewrite (libraryFolderStart_exe_missing _ _ _ _ Hm) in Hstart.
           done.
        -- apply (Hmiss root installdir Hin). by eapply exeMissingAt_sameFS.
      * intros root [Hin|Hin]%elem_of_cons Hc.
        -- exists e. by left.
        -- destruct (Hcor root Hin) as [e' He']; [by eapply corruptManifestAt_sameFS|].
           exists e'. by right.
    + destruct Hr as [Hpre1 Haw].
      destruct (IH acc1 w1) as (inv & promises & w2 & Hrun & Hs2 & Hpre & Hpr & Hmiss & Hcor).
      unfold bind, ret. simpl. rewrite Hrun. simpl.
      exists inv, (inr awaiting :: promises), w2. split; [done|].
      split; [by eapply sameFS_trans|]. split; [by etrans|]. split; [|split].
      * intros a [Ha|Ha]%elem_of_cons; [by simplify_eq|].
        eapply awaitsExe_sameFS; [exact Hs1|by apply Hpr].
      * intros root installdir [Hin|Hin]%elem_of_cons Hm.
        -- subst lf. rewrite (libraryFolderStart_exe_missing _ _ _ _ Hm) in Hstart.
           simplify_eq. destruct Hpre as [k ->].
           rewrite <- app_assoc. apply elem_of_app. right. by left.
        -- apply (Hmiss root installdir Hin). by eapply exeMissingAt_sameFS.
      * intros root [Hin|Hin]%elem_of_cons Hc.
        -- subst lf. by rewrite (libraryFolderStart_corrupt _ _ _ Hc) in Hstart.
        -- destruct (Hcor root Hin) as [e' He']; [by eapply corruptManifestAt_sameFS|].
           exists e'. by right.
Qed.

Lemma completionOrder_subset {A} fuel completion (pending : list A) x :
  x ∈ completionOrder fuel completion pending → x ∈ pending.
Proof.
  revert completion pending. induction fuel as [|fuel IH]; intros c l; simpl.
  - by intros ?%elem_of_nil.
  - destruct (l !! _) as [t|] eqn:Ht; [|by intros ?%elem_of_nil].
    intros [->|Hin]%elem_of_cons.
    + by eapply list_elem_of_lookup_2.
    + apply IH in Hin. by eapply list_elem_of_delete_inv.
Qed.

(** Every read completes: the completion order is a permutation of the
    reads in flight. *)
Lemma completionOrder_perm {A} completion (pending : list A) :
  completionOrder (length pending) completion pending ≡ₚ pending.
Proof.
  remember (length pending) as n eqn:Hn. revert completion pending Hn.
  induction n as [|n IH]; intros c l Hn.
  - by destruct l.
  - simpl. destruct l as [|x l]; [done|].
    assert (Hlt : (hd 0%nat c `mod` length (x :: l) < length (x :: l))%nat).
    { apply Nat.mod_upper_bound. simpl. lia. }
    destruct (lookup_lt_is_Some_2 _ _ Hlt) as [t Ht]. rewrite Ht.
    etrans; [|symmetry; apply (delete_Permutation (x :: l) _ t Ht)].
    constructor. apply IH. rewrite length_delete by eauto. simpl in *. lia.
Qed.

Lemma awaitReads_spec ordered acc w :
  ∃ installs thrown,
    awaitReads P ordered acc w = (inr (installs, thrown), w)
    ∧ ∀ i, i ∈ installs →
           i ∈ acc ∨ ∃ t, t ∈ ordered ∧ installLocation i = pr_fullInstallPath t.
Proof.
  revert acc. induction ordered as [|t ordered IH]; intros acc.
  - exists acc, None. split; [done|]. by left.
  - simpl. pose proof (libraryFolderResume_post t acc w) as Hpost.
    unfold outcome in Hpost. unfold bind at 1, settle at 1.
    destruct (libraryFolderResume P t acc w) as [r w1]. simpl in Hpost.
    destruct Hpost as [-> Hr]. destruct r as [e|installs]; simpl.
    + exists acc, (Some e). split; [done|]. by left.
    + destruct Hr as (i0 & -> & Hloc).
      destruct (IH (acc ++ [i0])) as (installs & thrown & -> & Hin).
      exists installs, thrown. split; [done|].
      intros i [[Hi| ->%list_elem_of_singleton]%elem_of_app|(t' & Ht' & Hl)]%Hin.
      * by left.
      * right. exists t. split; [by left|done].
      * right. exists t'. split; [by right|done].
Qed.

Lemma promiseAll_spec completion promises w :
  ∃ installs thrown,
    promiseAll P completion promises w = (inr (installs, thrown), w)
    ∧ (∀ i, i ∈ installs →
            ∃ t, inr (Some t) ∈ promises ∧ installLocation i = pr_fullInstallPath t)
    ∧ (∀ e, inl e ∈ promises → installs = [] ∧ is_Some thrown).
Proof.
  unfold promiseAll.
  destruct (omap (λ p, match p with inl e => Some e | inr _ => None end) promises)
    as [|e rejected] eqn:Hrej.
  - destruct (awaitReads_spec
                (completionOrder
                   (length (omap (λ p, match p with inr t => t | inl _ => None end) promises))
                   completion
                   (omap (λ p, match p with inr t => t | inl _ => None end) promises))
                [] w) as (installs & thrown & -> & Hin).
    exists installs, thrown. split; [done|]. split.
    + intros i [Hi|(t & Ht & Hl)]%Hin; [by apply elem_of_nil in Hi|].
      exists t. split; [|done].
      apply completionOrder_subset, list_elem_of_omap in Ht as (p & Hp & Hpt).
      destruct p as [|[t'|]]; simplify_eq. done.
    + intros e He. exfalso.
      assert (e ∈ omap (λ p : exn + option pendingRead,
                          match p with inl e => Some e | inr _ => None end) promises)
        as Hin' by (apply list_elem_of_omap; eauto).
      rewrite Hrej in Hin'. by apply elem_of_nil in Hin'.
  - exists [], (Some e). split; [done|]. split.
    + by intros i ?%elem_of_nil.
    + eauto.
Qed.

Lemma readLibraryFolders_world w : snd (readLibraryFolders P w) = w.
Proof.
  unfold readLibraryFolders.
  unfold bind, readFileSync, fromOption, getProp, numericEntries, ret, throw.
  repeat (simpl; case_match; simplify_eq; try done).
Qed.

Lemma getInstalls_found completion w roots :
  pathExists (components (STEAM_DATA_LOCATION P) ++ [lit "steamapps"]) w = true →
  fst (readLibraryFolders P w) = inr roots →
  (∃ res w', awaitLibraryFolders P completion roots w = (inr res, w')) →
  fst (getInstalls P completion w) = fst (awaitLibraryFolders P completion roots w).
Proof.
  intros Hfound Hroots (res & w' & Hrun).
  pose proof (readLibraryFolders_world w) as Hw.
  unfold getInstalls. unfold bind at 1, existsSync at 1. rewrite Hfound.
  unfold bind at 1, tryCatch at 1, bind at 1.
  destruct (readLibraryFolders P w) as [r w1]. simpl in Hroots, Hw. subst r w1.
  rewrite Hrun. done.
Qed.

Lemma awaitLibraryFolders_spec completion roots w :
  ∃ res w',
    awaitLibraryFolders P completion roots w = (inr res, w')
    ∧ (∀ root installdir,
         VStr root ∈ roots → exeMissingAt P root installdir w →
         installPath root installdir ∈ invalidInstalls res
         ∧ ∀ i, i ∈ installs res → installLocation i ≠ installPath root installdir)
    ∧ (∀ root, VStr root ∈ roots → corruptManifestAt P root w → installs res = []).
Proof.
  unfold awaitLibraryFolders.
  destruct (startAll_spec roots [] w)
    as (inv & promises & w1 & Hstart & Hs & _ & Hpr & Hmiss & Hcor).
  destruct (promiseAll_spec completion promises w1)
    as (installs & thrown & Hawait & Hin & Hrej).
  unfold bind. rewrite Hstart. simpl. rewrite Hawait. simpl.
  exists {| installs := installs; invalidInstalls := inv |},
    (match thrown with Some e => logLine (LogErrorOf e) w1 | None => w1 end).
  split; [by destruct thrown|]. simpl.
  split.
  - intros root installdir Hroot Hm. split; [by eapply Hmiss|].
    intros i (t & Ht & Hloc)%Hin Heq.
    apply Hpr in Ht as [Hexe Hfound]. simpl in *.
    destruct Hm as (_ & _ & _ & _ & _ & Hno).
    rewrite Hexe, <- Hloc, Heq in Hfound. congruence.
  - intros root Hroot Hc. destruct (Hcor root Hroot Hc) as [e He].
    by destruct (Hrej e He) as [-> _].
Qed.

Lemma startAll_cons lf rest acc w :
  startAll P (lf :: rest) acc w
  = let (r, w1) := libraryFolderStart P lf acc w in
    let (rs, w2) := startAll P rest (match r with
                                     | inr (acc1, _) => acc1
                                     | inl _ => acc
                                     end) w1 in
    (match rs with
     | inl e => inl e
     | inr (inv, promises) =>
         inr (inv, match r with
                   | inl e => inl e
                   | inr (_, awaiting) => inr awaiting
                   end :: promises)
     end, w2).
Proof.
  simpl. unfold bind at 1, settle at 1.
  destruct (libraryFolderStart P lf acc w) as [[e|[acc1 awaiting]] w1];
    unfold bind, ret; simpl;
    by destruct (startAll P rest _ w1) as [[e'|[inv promises]] w2].
Qed.





(** The defect behind C4, in general: a library folder whose app manifest
    does not parse empties [installs], whatever the other folders hold. *)
Lemma corrupt_manifest_empties_installs completion w roots root :
  pathExists (components (STEAM_DATA_LOCATION P) ++ [lit "steamapps"]) w = true →
  fst (readLibraryFolders P w) = inr roots →
  VStr root ∈ roots → corruptManifestAt P root w →
  ∃ res, fst (getInstalls P completion w) = inr res ∧ installs res = [].
Proof.
  intros Hfound Hroots Hin Hc.
  destruct (awaitLibraryFolders_spec completion roots w)
    as (res & w' & Hrun & _ & Hcor).
  exists res. split; [|by eapply Hcor].
  rewrite (getInstalls_found _ _ roots) by eauto. by rewrite Hrun.
Qed.

End DiscoveryProperties.

(** ** The properties on the concrete platform *)

Section Examples.

Import SML SteamFlatpak Example.

(** C3 (the code at the failing input): whenever the block holds the
    required value twice in a row, the patch takes the branch of lines 82-89
    and the block it builds holds the required value at least twice, not
    once. On the launch options that are just such a block, the patch sets
    [changed] and gives back the very same string, whose block still holds
    the required value twice. *)
Theorem doubled_value_is_not_collapsed :
  (∀ launchOptions group,
     exec launchOptions = Some group →
     includes DUPLICATED group = true →
     patch (Some (VStr launchOptions))
     = (replace launchOptions (block group)
          (block (deduplicate group ++ lit ";" ++ REQUIRED)), true)
     ∧ (2 ≤ occurrences REQUIRED (deduplicate group ++ lit ";" ++ REQUIRED))%nat)
  ∧ duplicated doubledOptions = true
  ∧ patch (Some (VStr doubledOptions)) = (doubledOptions, true)
  ∧ exec (fst (patch (Some (VStr doubledOptions)))) = Some DUPLICATED
  ∧ occurrences REQUIRED DUPLICATED = 2%nat.
Proof.
  split.
  - intros launchOptions group Hexec Hdup. split.
    + by apply patch_duplicated.
    + by apply deduplicated_block_doubled.
  - repeat split; by vm_compute.
Qed.

(** C6 (the code at the failing input): a conformant string is given back
    as it is, with [changed] false; but on a block that holds the required
    value twice in a row and once more further on, patching the patched
    string changes it again. *)
Theorem patch_is_not_idempotent :
  (∀ launchOptions,
     conformant launchOptions = true →
     patch (Some (VStr launchOptions)) = (launchOptions, false))
  ∧ patchString mixedOptions
    = block (lit "a;" ++ REQUIRED ++ lit ";b;" ++ DUPLICATED) ++ lit " %command%"
  ∧ patchString (patchString mixedOptions)
    = block (lit "a;b;" ++ DUPLICATED) ++ lit " %command%"
  ∧ patchString (patchString mixedOptions) ≠ patchString mixedOptions.
Proof.
  split; [exact patch_conformant|].
  split; [by vm_compute|]. split; [by vm_compute|].
  intros H. vm_compute in H. discriminate.
Qed.

(** C4 (the code at the failing input): a library folder whose app manifest
    does not parse leaves [installs] empty, whatever the other folders hold.
    With a sound app manifest and the executable under the Steam directory,
    and an app manifest that does not parse under the library folder
    /mnt/games, [getInstalls] returns no install at all, whatever the order
    in which reads complete; with a sound manifest under /mnt/games the
    install under the Steam directory is found. *)
Theorem corrupt_manifest_hides_valid_sibling completion :
  (∀ P w roots root,
     pathExists (components (STEAM_DATA_LOCATION P) ++ [lit "steamapps"]) w = true →
     fst (readLibraryFolders P w) = inr roots →
     VStr root ∈ roots → corruptManifestAt P root w →
     ∃ res, fst (getInstalls P completion w) = inr res ∧ installs res = [])
  ∧ corruptManifestAt platform (lit "/mnt/games") (steamWorld (lit "garbage"))
  ∧ exeFoundAt platform (STEAM_DATA_LOCATION platform) (lit "Satisfactory")
      (steamWorld (lit "garbage"))
  ∧ fst (readLibraryFolders platform (steamWorld (lit "garbage")))
    = inr [VStr (lit "/mnt/games"); VStr (lit "/mnt/empty");
           VStr (STEAM_DATA_LOCATION platform)]
  ∧ fst (getInstalls platform completion (steamWorld (lit "garbage")))
    = inr {| installs := []; invalidInstalls := [] |}
  ∧ fst (getInstalls platform [] (steamWorld (lit "appmanifest")))
    = inr {| installs := [steamInstall];
             invalidInstalls := [installPath (lit "/mnt/games") (lit "Satisfactory")] |}.
Proof.
  split; [intros P w roots root; apply corrupt_manifest_empties_installs|].
  split; [exists (lit "garbage"); split; by vm_compute|].
  split; [exists (lit "appmanifest"), appManifest; repeat split; by vm_compute|].
  repeat split; by vm_compute.
Qed.

Lemma ancestors_consistent (p : path) (fs : gmap path content) web1 web2 procs t l :
  (∀ q, is_Some (fs !! q) → dirname q ∈ ancestors p) →
  consistent (World fs (list_to_set (ancestors p)) web1 web2 procs t l).
Proof.
  intros Hfs. split; simpl.
  - intros q Hq. apply elem_of_list_to_set. by apply Hfs.
  - intros q [k ->]%elem_of_list_to_set%ancestors_prefix.
    apply elem_of_list_to_set, ancestors_prefix, prefix_app_r.
    destruct q as [|c q _] using rev_ind; [done|].
    rewrite dirname_snoc. by exists [c].
Qed.

Lemma pakOnlyWorld_complete : cacheComplete platform pakOnlyWorld.
Proof.
  intros v [Hdir|[bytes Hfile]]%pathExists_true; [|done]. exfalso.
  apply elem_of_list_to_set, ancestors_prefix in Hdir as [k Hk].
  apply (f_equal length) in Hk. rewrite !length_app in Hk. simpl in Hk. lia.
Qed.

(** The counterexample to C1: the pak is downloaded, the download of the DLL
    fails; the call throws and leaves the version directory with the pak
    alone, and the next call returns that directory as a cache hit. *)
Lemma failed_download_leaves_incomplete_cache :
  cacheComplete platform pakOnlyWorld
  ∧ fst (getSMLVersionCache platform (lit "v2.2.1") pakOnlyWorld)
    = inl (DownloadFailed dllURL)
  ∧ ¬ cacheComplete platform
        (snd (getSMLVersionCache platform (lit "v2.2.1") pakOnlyWorld))
  ∧ fst (getSMLVersionCache platform (lit "v2.2.1")
           (snd (getSMLVersionCache platform (lit "v2.2.1") pakOnlyWorld)))
    = inr (versionCacheDir platform (lit "2.2.1")).
Proof.
  split; [apply pakOnlyWorld_complete|]. split; [by vm_compute|].
  split; [|by vm_compute].
  intros Hc. specialize (Hc (lit "2.2.1")).
  assert (Hex : pathExists (versionCacheDir platform (lit "2.2.1"))
                  (snd (getSMLVersionCache platform (lit "v2.2.1") pakOnlyWorld)) = true)
    by (by vm_compute).
  apply Hc in Hex as [bytes Hbytes]. vm_compute in Hbytes. discriminate.
Qed.

Lemma dllOnlyWorld_complete : cacheComplete platform dllOnlyWorld.
Proof.
  intros v [Hdir|[bytes Hfile]]%pathExists_true; [|done]. exfalso.
  apply elem_of_list_to_set, ancestors_prefix in Hdir as [k Hk].
  apply (f_equal length) in Hk. rewrite !length_app in Hk. simpl in Hk. lia.
Qed.

Lemma dllOnlyWorld_no_pak : ¬ pakWithoutDLL platform (lit "v2.2.1") dllOnlyWorld.
Proof.
  intros (v & link & _ & _ & Hlink & Hpak & _).
  vm_compute in Hlink. injection Hlink as <-.
  destruct Hpak as [pak Hpak]. vm_compute in Hpak. discriminate.
Qed.

(** C1 (amended), applied. *)
Lemma cache_stays_complete_witness :
  cacheComplete platform dllOnlyWorld
  ∧ ¬ pakWithoutDLL platform (lit "v2.2.1") dllOnlyWorld
  ∧ cacheComplete platform
      (snd (getSMLVersionCache platform (lit "v2.2.1") dllOnlyWorld)).
Proof.
  split; [apply dllOnlyWorld_complete|]. split; [apply dllOnlyWorld_no_pak|].
  apply (cache_stays_complete platform (lit "v2.2.1") dllOnlyWorld).
  - apply dllOnlyWorld_complete.
  - apply dllOnlyWorld_no_pak.
Defined.

(** The counterexample to C2: the version does not coerce, a loader is
    installed in the game directory, and [installSML] returns normally. *)
Lemma install_of_invalid_version_can_succeed :
  semver_valid_coerce platform (lit "abc") = None
  ∧ truthyStr (getSMLVersion platform gameDir installedWorld) = true
  ∧ fst (installSML platform (lit "abc") gameDir installedWorld) = inr tt.
Proof. repeat split; by vm_compute. Qed.

(** C2 (amended), applied. *)
Lemma invalid_version_not_found_witness :
  semver_valid_coerce platform (lit "abc") = None
  ∧ fst (getSMLVersionCache platform (lit "abc") emptyWorld)
    = inl (ModNotFoundError (lit "SML@abc not found.") (lit "SML") (lit "abc"))
  ∧ fst (installSML platform (lit "abc") gameDir emptyWorld)
    = inl (ModNotFoundError (lit "SML@abc not found.") (lit "SML") (lit "abc"))
  ∧ fst (installSML platform (lit "abc") gameDir installedWorld) = inr tt
  ∧ files (snd (installSML platform (lit "abc") gameDir installedWorld))
    = files installedWorld.
Proof.
  assert (Hv : semver_valid_coerce platform (lit "abc") = None) by (by vm_compute).
  split; [exact Hv|].
  destruct (invalid_version_not_found platform (lit "abc") gameDir emptyWorld Hv)
    as (Hc & Hi & _).
  destruct (invalid_version_not_found platform (lit "abc") gameDir installedWorld Hv)
    as (_ & Hi' & Hf' & _).
  split; [by rewrite Hc; vm_compute|]. split; [by rewrite Hi; vm_compute|].
  split; [by rewrite Hi'; vm_compute|]. exact Hf'.
Defined.

Lemma dllOnlyWorld_consistent : consistent dllOnlyWorld.
Proof. apply ancestors_consistent. intros q [bytes Hq]. done. Qed.

(** C5, applied. *)
Lemma pak_is_optional_witness :
  whenTruthy (semver_valid_coerce platform (lit "v2.2.1")) = Some (lit "2.2.1")
  ∧ pathExists (versionCacheDir platform (lit "2.2.1")) dllOnlyWorld = false
  ∧ whenTruthy (ficsitApp dllOnlyWorld !! lit "v2.2.1") = Some releaseLink
  ∧ fst (getSMLVersionCache platform (lit "v2.2.1") dllOnlyWorld)
    = inr (versionCacheDir platform (lit "2.2.1"))
  ∧ fst (installSML platform (lit "v2.2.1") gameDir
           (snd (getSMLVersionCache platform (lit "v2.2.1") dllOnlyWorld)))
    = inr tt
  ∧ files (snd (installSML platform (lit "v2.2.1") gameDir
                  (snd (getSMLVersionCache platform (lit "v2.2.1") dllOnlyWorld))))
    = <[gameDir ++ SMLDLLRelativePath := lit "SML 2.2.1"]>
        (files (snd (getSMLVersionCache platform (lit "v2.2.1") dllOnlyWorld)))
  ∧ fst (getSMLVersionCache platform (lit "v2.2.1") pakOnlyWorld)
    = inl (DownloadFailed dllURL).
Proof.
  assert (H1 : whenTruthy (semver_valid_coerce platform (lit "v2.2.1"))
               = Some (lit "2.2.1")) by (by vm_compute).
  assert (H2 : pathExists (versionCacheDir platform (lit "2.2.1")) dllOnlyWorld = false)
    by (by vm_compute).
  assert (H3 : whenTruthy (ficsitApp dllOnlyWorld !! lit "v2.2.1") = Some releaseLink)
    by (by vm_compute).
  assert (H2' : pathExists (versionCacheDir platform (lit "2.2.1")) pakOnlyWorld = false)
    by (by vm_compute).
  assert (H3' : whenTruthy (ficsitApp pakOnlyWorld !! lit "v2.2.1") = Some releaseLink)
    by (by vm_compute).
  destruct (pak_is_optional platform (lit "v2.2.1") gameDir dllOnlyWorld
              (lit "2.2.1") releaseLink H1 H2 H3) as [_ Hok].
  destruct (pak_is_optional platform (lit "v2.2.1") gameDir pakOnlyWorld
              (lit "2.2.1") releaseLink H1 H2' H3') as [Hfail _].
  destruct (Hok (lit "SML 2.2.1")) as (Hr & _ & Hi & Hf).
  - by vm_compute.
  - by vm_compute.
  - apply dllOnlyWorld_consistent.
  - intros Hpre%prefix_length. vm_compute in Hpre. lia.
  - by vm_compute.
  - split; [exact H1|]. split; [exact H2|]. split; [exact H3|].
    split; [exact Hr|]. split; [exact Hi|]. split; [exact Hf|].
    apply Hfail. by vm_compute.
Defined.

Lemma native_version_not_empty bytes : smlVersionNative platform bytes ≠ Some [].
Proof.
  simpl. destruct (startsWith (lit "SML ") bytes); [|done].
  by destruct (drop 4 bytes).
Qed.

(** C7, applied: the DLL is cached, it is installed, it is gone again. *)
Lemma install_then_uninstall_witness :
  (∀ bytes, smlVersionNative platform bytes ≠ Some [])
  ∧ getSMLVersion platform gameDir
      (snd (installSML platform (lit "v2.2.1") gameDir dllOnlyWorld))
    = Some (lit "2.2.1")
  ∧ getSMLVersion platform gameDir
      (snd (uninstallSML platform gameDir
              (snd (installSML platform (lit "v2.2.1") gameDir dllOnlyWorld))))
    = None.
Proof.
  split; [exact native_version_not_empty|]. split; [by vm_compute|].
  apply (install_then_uninstall platform (lit "v2.2.1") gameDir dllOnlyWorld).
  exact native_version_not_empty.
Defined.

(** The install path is the string [path.join] returns: [..] takes back the
    directory before it, [.] and doubled slashes disappear, and the path of a
    relative library folder is relative; it names a file from the working
    directory. *)
Lemma installPath_is_normalized :
  installPath (lit "/mnt/games") (lit "Sub/..") = lit "/mnt/games/steamapps/common"
  ∧ installPath (lit "/mnt/./games//") (lit "Satisfactory")
    = lit "/mnt/games/steamapps/common/Satisfactory"
  ∧ installPath (lit "games") (lit "Satisfactory")
    = lit "games/steamapps/common/Satisfactory"
  ∧ locate (cwd platform) (installPath (lit "games") (lit "Satisfactory"))
    = [lit "home"; lit "user"; lit "games"; lit "steamapps"; lit "common";
       lit "Satisfactory"]
  ∧ locate (cwd platform) (installPath (lit "../games") (lit "Satisfactory"))
    = [lit "home"; lit "games"; lit "steamapps"; lit "common"; lit "Satisfactory"].
Proof. repeat split; by vm_compute. Qed.

(** An install directory that goes down and up again: the executable is
    looked for, and the install is listed, at the directory it comes to. *)
Lemma dotted_install_is_found :
  fst (getInstalls dottedPlatform [] dottedWorld)
  = inr {| installs := [{| name := lit "Satisfactory Early Access (Steam)";
                           version := lit "211839";
                           branch := lit "EA";
                           installLocation := lit "/mnt/games/steamapps/common";
                           launchPath :=
                             lit "flatpak run com.valvesoftware.Steam steam://rungameid/526870";
                           setup := Some SetupSteam |}];
           invalidInstalls := [] |}.
Proof. by vm_compute. Qed.




(** C10, applied: a conformant profile, Steam running. *)
Lemma conformant_profiles_untouched_witness :
  profileConformant platform (lit "1001")
    (profilesWorld [(lit "1001", lit "launch:" ++ conformantOptions)] [lit "steam"]) = true
  ∧ lit "steam" ∈ processes
      (profilesWorld [(lit "1001", lit "launch:" ++ conformantOptions)] [lit "steam"])
  ∧ setupSteam platform
      (profilesWorld [(lit "1001", lit "launch:" ++ conformantOptions)] [lit "steam"])
    = (inr tt, profilesWorld [(lit "1001", lit "launch:" ++ conformantOptions)] [lit "steam"]).
Proof.
  assert (Hc : profileConformant platform (lit "1001")
                 (profilesWorld [(lit "1001", lit "launch:" ++ conformantOptions)]
                    [lit "steam"]) = true) by (by vm_compute).
  split; [exact Hc|]. split; [by apply elem_of_list_to_set; left|].
  destruct (conformant_profiles_untouched platform
              (profilesWorld [(lit "1001", lit "launch:" ++ conformantOptions)]
                 [lit "steam"])) as [_ Hall].
  apply (Hall [lit "1001"]); [by vm_compute|].
  intros user ->%list_elem_of_singleton. exact Hc.
Defined.

End Examples.

(** * Further properties *)

(** ** More on strings *)

Section FurtherStrings.

Implicit Types (s pat : jsstring).

(** A replacement text without [$] is inserted as it is. *)
Lemma GetSubstitution_plain matched before after template :
  DOLLAR ∉ template → GetSubstitution matched before after template = template.
Proof.
  induction template as [|c t IH]; [done|]. intros Hc.
  apply not_elem_of_cons in Hc as [Hc Ht]. simpl.
  destruct (c =? DOLLAR) eqn:Heq; [by apply N.eqb_eq in Heq|].
  by rewrite IH.
Qed.

Lemma replace_at s pat r i :
  indexOf pat s = Some i → DOLLAR ∉ r →
  replace s pat r = take i s ++ r ++ drop (i + length pat) s.
Proof. intros Hi Hr. unfold replace. by rewrite Hi, GetSubstitution_plain. Qed.

Lemma replace_absent s pat r : includes pat s = false → replace s pat r = s.
Proof. unfold includes, replace. by destruct (indexOf pat s). Qed.

Lemma includes_cons pat c s : includes pat (c :: s) = false → includes pat s = false.
Proof.
  unfold includes. simpl. destruct (startsWith pat (c :: s)); [done|].
  by destruct (indexOf pat s).
Qed.

Lemma includes_startsWith pat s : includes pat s = false → startsWith pat s = false.
Proof.
  unfold includes. destruct s; simpl; by destruct (startsWith pat _).
Qed.

Lemma indexOf_tag a b :
  includes (lit "/tag") a = false →
  indexOf (lit "/tag/") (a ++ lit "/tag/" ++ b) = Some (length a).
Proof.
  induction a as [|c a IH]; intros Hno.
  - rewrite app_nil_l. apply indexOf_here, startsWith_app.
  - pose proof (includes_startsWith _ _ Hno) as Hhere.
    simpl app. simpl indexOf. rewrite (IH (includes_cons _ _ _ Hno)). simpl.
    assert (startsWith (lit "/tag/") (c :: a ++ lit "/tag/" ++ b) = false) as ->; [|done].
    revert Hhere. change (lit "/tag/") with [47; 116; 97; 103; 47].
    change (lit "/tag") with [47; 116; 97; 103].
    destruct a as [|c1 [|c2 [|c3 a]]]; cbn [startsWith app].
    + intros _. apply andb_false_r.
    + intros _. destruct (N.eqb 47 c); [|done]. simpl. apply andb_false_r.
    + intros _. destruct (N.eqb 47 c); [|done]. destruct (N.eqb 116 c1); [|done]. simpl.
      apply andb_false_r.
    + destruct (N.eqb 47 c); [|done]. destruct (N.eqb 116 c1); [|done].
      destruct (N.eqb 97 c2); [|done]. by destruct (N.eqb 103 c3).
Qed.
End FurtherStrings.

(** ** The launch-options patch, branch by branch *)

Section FurtherPatch.

Implicit Types (s group rest : jsstring).

Lemma indexOf_cons (pat : jsstring) (d : N) (s : jsstring) :
  indexOf pat (d :: s)
  = if startsWith pat (d :: s) then Some 0%nat else S <$> indexOf pat s.
Proof. done. Qed.

(** The first occurrence of a pattern after a text its first code unit is
    not in. *)
Lemma indexOf_after (c : N) (pat a b : jsstring) :
  c ∉ a → indexOf (c :: pat) (a ++ (c :: pat) ++ b) = Some (length a).
Proof.
  intros Ha. induction a as [|d a IH].
  - rewrite app_nil_l. apply indexOf_here, startsWith_app.
  - apply not_elem_of_cons in Ha as [Hd Ha].
    change ((d :: a) ++ (c :: pat) ++ b) with (d :: a ++ (c :: pat) ++ b).
    rewrite indexOf_cons, IH by done. cbn [startsWith].
    destruct (N.eqb c d) eqn:Heq; [apply N.eqb_eq in Heq; congruence|done].
Qed.

(** The regular expression of line 74 on a string that starts with a block
    whose value holds no backslash and no line terminator. *)
Lemma exec_block group rest :
  BACKSLASH ∉ group →
  forallb (fun c => negb (isLineTerminator c)) group = true →
  exec (block group ++ rest) = Some group.
Proof.
  intros Hb Hl.
  assert (matchHere (block group ++ rest) = Some group) as Hhere.
  { unfold matchHere, block. rewrite <- !app_assoc, startsWith_app, drop_app_length.
    unfold BLOCK_CLOSE. rewrite (indexOf_after BACKSLASH [DQUOTE] group rest Hb).
    by rewrite take_app_length, Hl. }
  destruct (block group ++ rest); simpl; by rewrite Hhere.
Qed.

Lemma block_not_empty group rest : block group ++ rest ≠ [].
Proof. intros H. apply (f_equal length) in H. by vm_compute in H. Qed.

Lemma appended_value_not_doubled group :
  includes REQUIRED group = false →
  includes DUPLICATED (group ++ lit ";" ++ REQUIRED) = false.
Proof.
  intros Hno. destruct (includes DUPLICATED _) eqn:Hdup; [|done].
  apply includes_true in Hdup as (t & u & Heq). unfold DUPLICATED in Heq.
  pose proof (f_equal length Heq) as Hlen. rewrite !length_app in Hlen.
  assert (Hg : group = (t ++ REQUIRED) ++ take (length group - length (t ++ REQUIRED))
                                               (lit ";" ++ REQUIRED ++ u)).
  { apply (f_equal (take (length group))) in Heq.
    rewrite take_app_length in Heq.
    replace (t ++ (REQUIRED ++ lit ";" ++ REQUIRED) ++ u)
      with ((t ++ REQUIRED) ++ lit ";" ++ REQUIRED ++ u) in Heq
      by (by rewrite <- !app_assoc).
    rewrite take_app_ge in Heq by (rewrite length_app; lia). done. }
  rewrite <- app_assoc in Hg.
  by rewrite (includes_occurrence _ _ _ _ Hg) in Hno.
Qed.

(** X12: launch options that are missing or empty become the block with
    the required value followed by [%command%]; launch options without a
    block get that block in front, the old text kept after a space; either
    result is conformant, so patching it again changes nothing. *)
Theorem missing_block_is_prepended :
  (∀ launchOptions,
     truthy launchOptions = false →
     patch launchOptions = (block REQUIRED ++ lit " %command%", true))
  ∧ (∀ v,
       truthy (Some v) = true → exec (ToString v) = None →
       patch (Some v) = (block REQUIRED ++ lit " " ++ ToString v, true))
  ∧ (∀ rest,
       conformant (block REQUIRED ++ rest) = true
       ∧ patch (Some (VStr (block REQUIRED ++ rest))) = (block REQUIRED ++ rest, false)).
Proof.
  split; [|split].
  - intros [[[|c s]|es]|]; done.
  - intros v Ht Hexec. unfold patch. by rewrite Ht, Hexec.
  - intros rest. assert (conformant (block REQUIRED ++ rest) = true) by (by vm_compute).
    split; [done|]. by apply patch_conformant.
Qed.

(** X13: launch options that start with a block whose value lacks the
    required value get it appended to that value after a semicolon, what
    follows the block kept, and the result is conformant. The value is one
    without backslash, dollar sign or line terminator. *)
Theorem missing_value_is_appended group rest :
  BACKSLASH ∉ group → DOLLAR ∉ group →
  forallb (fun c => negb (isLineTerminator c)) group = true →
  includes REQUIRED group = false →
  patch (Some (VStr (block group ++ rest)))
  = (block (group ++ lit ";" ++ REQUIRED) ++ rest, true)
  ∧ conformant (block (group ++ lit ";" ++ REQUIRED) ++ rest) = true.
Proof.
  intros Hb Hd Hl Hno. split.
  - pose proof (exec_block group rest Hb Hl) as Hexec.
    unfold patch.
    destruct (block group ++ rest) as [|c s] eqn:Hs; [by apply block_not_empty in Hs|].
    simpl truthy. cbv iota. simpl ToString. rewrite Hexec, Hno. simpl negb. cbv iota.
    rewrite <- Hs. f_equal.
    rewrite (replace_at _ _ _ 0).
    + rewrite take_0, Nat.add_0_l, drop_app_length. done.
    + apply indexOf_here, startsWith_app.
    + unfold block. rewrite !not_elem_of_app. repeat split; try done;
        apply (bool_decide_unpack _); by vm_compute.
  - unfold conformant. rewrite exec_block.
    + rewrite (includes_occurrence REQUIRED _ (group ++ lit ";") [])
        by (by rewrite <- !app_assoc, app_nil_r).
      by rewrite appended_value_not_doubled.
    + rewrite !not_elem_of_app. repeat split; try done;
        apply (bool_decide_unpack _); by vm_compute.
    + rewrite !forallb_app, Hl. by vm_compute.
Qed.
End FurtherPatch.

(** ** The SML handler: cache, install, uninstall *)

Section FurtherSML.

Import SML.
Variable P : Platform.
Implicit Types (V : jsstring) (G p : path) (w : world).

(** What a call does to the files, whatever way it takes. *)
Lemma getSMLVersionCache_files V w v :
  whenTruthy (semver_valid_coerce P V) = Some v →
  ∃ dll pak,
    files (snd (getSMLVersionCache P V w))
    = withFile (versionCacheDir P v ++ [SMLDLLFileName]) dll
        (withFile (versionCacheDir P v ++ [SMLPakFileName]) pak (files w))
    ∧ (fst (getSMLVersionCache P V w) = inr (versionCacheDir P v)
       ∨ ∃ e, fst (getSMLVersionCache P V w) = inl e).
Proof.
  intros Hv.
  destruct (pathExists (versionCacheDir P v) w) eqn:Hex.
  { rewrite (getSMLVersionCache_hit _ _ _ v Hv Hex). exists None, None. eauto. }
  destruct (whenTruthy (ficsitApp w !! V)) as [link|] eqn:Hlink.
  - destruct (getSMLVersionCache_miss P V w v link) as (Hr & Hf & _); [done..|].
    simpl in Hr, Hf. eexists _, _. split; [exact Hf|]. rewrite Hr.
    destruct (web w !! downloadLink link SMLDLLFileName); eauto.
  - destruct (getSMLVersionCache_unknown P V w v) as (Hr & Hf & _); [done..|].
    exists None, None. split; [done|]. right. eauto.
Qed.

(** X1: once [getSMLVersionCache] has returned for a version, it returned
    the directory of the coerced version, and a call that follows, for any
    string that coerces to the same version, returns that directory again
    and leaves the world as it is: nothing is asked of the network, nothing
    is logged. *)
Theorem resolved_version_is_cached V V' w v :
  whenTruthy (semver_valid_coerce P V) = Some v →
  whenTruthy (semver_valid_coerce P V') = Some v →
  (∃ d, fst (getSMLVersionCache P V w) = inr d) →
  fst (getSMLVersionCache P V w) = inr (versionCacheDir P v)
  ∧ getSMLVersionCache P V' (snd (getSMLVersionCache P V w))
    = (inr (versionCacheDir P v), snd (getSMLVersionCache P V w)).
Proof.
  intros Hv Hv' [d Hd].
  assert (Hres : fst (getSMLVersionCache P V w) = inr (versionCacheDir P v)
                 ∧ pathExists (versionCacheDir P v) (snd (getSMLVersionCache P V w)) = true).
  { destruct (pathExists (versionCacheDir P v) w) eqn:Hex.
    { by rewrite (getSMLVersionCache_hit _ _ _ v Hv Hex). }
    destruct (whenTruthy (ficsitApp w !! V)) as [link|] eqn:Hlink.
    - destruct (getSMLVersionCache_miss P V w v link) as (Hr & _ & Hdirs); [done..|].
      simpl in Hr, Hdirs. rewrite Hr in *.
      destruct (web w !! downloadLink link SMLDLLFileName); [|done].
      split; [done|]. apply pathExists_dir. rewrite Hdirs.
      destruct (web w !! downloadLink link SMLPakFileName);
        apply elem_of_union_r, elem_of_list_to_set, ancestors_self.
    - destruct (getSMLVersionCache_unknown P V w v) as (Hr & _); [done..|].
      by rewrite Hr in Hd. }
  destruct Hres as [Hr Hex]. split; [done|].
  by apply getSMLVersionCache_hit.
Qed.

(** X2: [getSMLVersionCache] fails in two ways only. It throws
    [ModNotFoundError] for [SML] and the version as given, with no file and
    no directory changed and no download started (at most the release was
    asked for); or the release is known and the download of its DLL failed,
    which is the exception thrown. *)
Theorem resolve_failures V w e :
  fst (getSMLVersionCache P V w) = inl e →
  (e = notFound V
   ∧ files (snd (getSMLVersionCache P V w)) = files w
   ∧ dirs (snd (getSMLVersionCache P V w)) = dirs w
   ∧ (effects (snd (getSMLVersionCache P V w)) = effects w
      ∨ effects (snd (getSMLVersionCache P V w)) = effects w ++ [NetVersionInfo V]))
  ∨ (∃ link,
       whenTruthy (ficsitApp w !! V) = Some link
       ∧ web w !! downloadLink link SMLDLLFileName = None
       ∧ e = DownloadFailed (downloadLink link SMLDLLFileName)).
Proof.
  destruct (whenTruthy (semver_valid_coerce P V)) as [v|] eqn:Hv.
  2:{ rewrite getSMLVersionCache_invalid by done. simpl. intros [= <-]. left. eauto. }
  destruct (pathExists (versionCacheDir P v) w) eqn:Hex.
  { by rewrite (getSMLVersionCache_hit _ _ _ v Hv Hex). }
  destruct (whenTruthy (ficsitApp w !! V)) as [link|] eqn:Hlink.
  - destruct (getSMLVersionCache_miss P V w v link) as (Hr & _); [done..|].
    simpl in Hr. rewrite Hr.
    destruct (web w !! downloadLink link SMLDLLFileName) eqn:Hdll; [done|].
    intros [= <-]. right. eauto.
  - unfold getSMLVersionCache. rewrite Hv.
    unfold bind, existsSync, debug, getSMLVersionInfo_link, throw.
    rewrite Hex. simpl. rewrite Hlink. simpl. intros [= <-]. left. eauto.
Qed.

Lemma ensureExists_twice d w :
  ensureExists d (snd (ensureExists d w)) = (inr tt, snd (ensureExists d w)).
Proof.
  unfold ensureExists at 1. f_equal.
  assert (pathExists d (snd (ensureExists d w)) = true) as ->; [|done].
  unfold ensureExists. simpl. destruct (pathExists d w) eqn:Hex; [done|].
  apply pathExists_dir. simpl. apply elem_of_union_r, elem_of_list_to_set, ancestors_self.
Qed.

(** The run of [installSML] on a cache hit, up to the copy of the DLL. *)
Lemma installSML_hit_run V G w v :
  truthyStr (getSMLVersion P G w) = false →
  whenTruthy (semver_valid_coerce P V) = Some v →
  pathExists (versionCacheDir P v) w = true →
  installSML P V G w
  = (copyFileSync (versionCacheDir P v ++ [SMLDLLFileName]) (G ++ SMLDLLRelativePath) ;;
     hasPak <- existsSync (versionCacheDir P v ++ [SMLPakFileName]) ;;
     if hasPak : bool then
       copyFileSync (versionCacheDir P v ++ [SMLPakFileName]) (G ++ SMLPakRelativePath)
     else ret tt)
      (snd (ensureExists (G ++ [lit "loaders"]) (logLine (LogDebug (lit "Installing SML")) w))).
Proof.
  intros Hnone Hv Hhit.
  unfold installSML. rewrite Hnone. simpl.
  unfold bind at 1. unfold debug at 1.
  unfold bind at 1.
  rewrite (getSMLVersionCache_hit _ _ _ v) by (done || by rewrite (pathExists_ext _ _ w)).
  unfold SMLDLLRelativePath, SMLPakRelativePath. rewrite !dirname_snoc2.
  unfold bind at 1.
  set (w0 := logLine _ w).
  destruct (ensureExists (G ++ [lit "loaders"]) w0) as [r w1] eqn:H1.
  assert (r = inr tt) as -> by (by injection H1 as <- _).
  unfold bind at 1.
  assert (w1 = snd (ensureExists (G ++ [lit "loaders"]) w0)) as -> by (by rewrite H1).
  by rewrite ensureExists_twice.
Qed.

Lemma installSML_both V G w v dll pak :
  truthyStr (getSMLVersion P G w) = false →
  whenTruthy (semver_valid_coerce P V) = Some v →
  files w !! (versionCacheDir P v ++ [SMLDLLFileName]) = Some dll →
  files w !! (versionCacheDir P v ++ [SMLPakFileName]) = Some pak →
  pathExists (versionCacheDir P v) w = true →
  let w' := snd (installSML P V G w) in
  fst (installSML P V G w) = inr tt
  ∧ files w' = <[G ++ SMLPakRelativePath := pak]> (<[G ++ SMLDLLRelativePath := dll]> (files w))
  ∧ getSMLVersion P G w' = smlVersionNative P dll
  ∧ pathExists (G ++ [lit "loaders"]) w' = true
  ∧ effects w'
    = effects w
      ++ (if pathExists (G ++ [lit "loaders"]) w then [] else [FsMkdir (G ++ [lit "loaders"])])
      ++ [FsCopyFile (versionCacheDir P v ++ [SMLDLLFileName]) (G ++ SMLDLLRelativePath);
          FsCopyFile (versionCacheDir P v ++ [SMLPakFileName]) (G ++ SMLPakRelativePath)].
Proof.
  intros Hnone Hv Hdll Hpak Hhit. cbv zeta.
  rewrite (installSML_hit_run V G w v) by done.
  set (w0 := logLine (LogDebug (lit "Installing SML")) w).
  assert (Hf1 : files (snd (ensureExists (G ++ [lit "loaders"]) w0)) = files w)
    by (by rewrite ensureExists_files).
  assert (He1 : effects (snd (ensureExists (G ++ [lit "loaders"]) w0))
                = effects w ++ (if pathExists (G ++ [lit "loaders"]) w then []
                                else [FsMkdir (G ++ [lit "loaders"])])).
  { unfold ensureExists. simpl. change (pathExists (G ++ [lit "loaders"]) w0)
      with (pathExists (G ++ [lit "loaders"]) w).
    destruct (pathExists (G ++ [lit "loaders"]) w); simpl; by rewrite ?app_nil_r. }
  assert (Hd1 : pathExists (G ++ [lit "loaders"]) (snd (ensureExists (G ++ [lit "loaders"]) w0)) = true).
  { unfold ensureExists. simpl. destruct (pathExists (G ++ [lit "loaders"]) w0) eqn:Hex; [done|].
    apply pathExists_dir. simpl. apply elem_of_union_r, elem_of_list_to_set, ancestors_self. }
  set (w1 := snd (ensureExists (G ++ [lit "loaders"]) w0)) in *. clearbody w1.
  destruct names_differ as [Hpd _].
  assert (Hne : G ++ SMLDLLRelativePath ≠ versionCacheDir P v ++ [SMLPakFileName]).
  { unfold SMLDLLRelativePath.
    change [lit "loaders"; SMLDLLFileName] with ([lit "loaders"] ++ [SMLDLLFileName]).
    rewrite app_assoc. intros [_ H]%app_inj_tail. by apply Hpd. }
  assert (Hne' : G ++ SMLPakRelativePath ≠ G ++ SMLDLLRelativePath).
  { intros H%app_inv_head. injection H as H. by apply Hpd. }
  unfold bind, copyFileSync, existsSync, ret. rewrite Hf1, Hdll. simpl.
  rewrite pathExists_file by (simpl; rewrite lookup_insert_ne, Hf1, Hpak by done; eauto).
  simpl. rewrite lookup_insert_ne, Hf1, Hpak by done. simpl.
  rewrite Hf1, He1. split; [done|]. split; [done|]. split.
  - unfold getSMLVersion. simpl. by rewrite lookup_insert_ne, lookup_insert_eq.
  - split; [|by rewrite <- !app_assoc].
    apply pathExists_true in Hd1 as [Hd|Hf]; [by apply pathExists_dir|].
    apply pathExists_file. simpl. rewrite !lookup_insert_is_Some'. eauto.
Qed.

(** X5: after an install from a cache that holds both artifacts, when the
    native reader recognises the DLL, a second [installSML], whatever
    version it is asked for, writes one line in the log and changes nothing
    else; the loader installed first stays. *)
Theorem second_install_changes_nothing V V' G w v dll pak :
  truthyStr (getSMLVersion P G w) = false →
  whenTruthy (semver_valid_coerce P V) = Some v →
  files w !! (versionCacheDir P v ++ [SMLDLLFileName]) = Some dll →
  files w !! (versionCacheDir P v ++ [SMLPakFileName]) = Some pak →
  pathExists (versionCacheDir P v) w = true →
  truthyStr (smlVersionNative P dll) = true →
  let w1 := snd (installSML P V G w) in
  installSML P V' G w1 = (inr tt, logLine (LogDebug (lit "SML is already installed")) w1)
  ∧ getSMLVersion P G (snd (installSML P V' G w1)) = smlVersionNative P dll.
Proof.
  intros Hnone Hv Hdll Hpak Hhit Hread. cbv zeta.
  destruct (installSML_both V G w v dll pak) as (_ & _ & Hver & _); [done..|].
  cbv zeta in Hver.
  assert (Hrun : installSML P V' G (snd (installSML P V G w))
                 = (inr tt, logLine (LogDebug (lit "SML is already installed"))
                              (snd (installSML P V G w)))).
  { unfold installSML at 1. by rewrite Hver, Hread. }
  rewrite Hrun. split; [done|]. simpl. by rewrite <- Hver.
Qed.

Lemma uninstallSML_falsy G w :
  truthyStr (getSMLVersion P G w) = false →
  uninstallSML P G w = (inr tt, logLine (LogDebug (lit "No SML to uninstall")) w).
Proof. intros H. unfold uninstallSML. by rewrite H. Qed.

(** The files after [uninstallSML] on a game directory with a loader. *)
Lemma uninstallSML_truthy_files G w :
  truthyStr (getSMLVersion P G w) = true →
  files (snd (uninstallSML P G w))
  = delete (G ++ SMLPakRelativePath) (delete (G ++ SMLDLLRelativePath) (files w))
  ∧ dirs (snd (uninstallSML P G w)) = dirs w.
Proof.
  intros Htruthy. pose proof (getSMLVersion_truthy_file _ _ _ Htruthy) as [dll Hdll].
  unfold uninstallSML. rewrite Htruthy. simpl.
  unfold bind, debug, existsSync, unlinkSync, ret. simpl.
  rewrite pathExists_file by (simpl; eauto). simpl. rewrite Hdll. simpl.
  destruct (pathExists (G ++ SMLPakRelativePath) _) eqn:Hex; simpl.
  - destruct (delete (G ++ SMLDLLRelativePath) (files w) !! (G ++ SMLPakRelativePath))
      eqn:Hpak; simpl; [done|].
    by rewrite (delete_id _ _ Hpak).
  - apply pathExists_false in Hex as [_ Hpak]. simpl in Hpak.
    by rewrite (delete_id _ _ Hpak).
Qed.

Lemma modsDir_not_loader G (rest : path) (f : jsstring) :
  getModsDir G ++ rest ≠ G ++ [lit "loaders"; f].
Proof.
  unfold getModsDir. rewrite <- app_assoc. intros H%app_inv_head.
  injection H as H _. vm_compute in H. discriminate.
Qed.

(** X7: [uninstallSML] leaves the directories and every file other than
    the two loader files as they are, the files under the mods directory
    among them; when [getSMLVersion] reports a loader both loader files are
    gone afterwards; when it reports none no file is removed, not even a pak
    left without its DLL. *)
Theorem uninstall_removes_the_loader_only G w :
  let w' := snd (uninstallSML P G w) in
  dirs w' = dirs w
  ∧ (∀ p, p ≠ G ++ SMLDLLRelativePath → p ≠ G ++ SMLPakRelativePath →
          files w' !! p = files w !! p)
  ∧ (∀ rest, files w' !! (getModsDir G ++ rest) = files w !! (getModsDir G ++ rest))
  ∧ (truthyStr (getSMLVersion P G w) = true →
     files w' !! (G ++ SMLDLLRelativePath) = None
     ∧ files w' !! (G ++ SMLPakRelativePath) = None)
  ∧ (truthyStr (getSMLVersion P G w) = false → files w' = files w).
Proof.
  cbv zeta.
  assert (Hframe : ∀ p, p ≠ G ++ SMLDLLRelativePath → p ≠ G ++ SMLPakRelativePath →
                        files (snd (uninstallSML P G w)) !! p = files w !! p).
  { intros p Hdll Hpak. destruct (truthyStr (getSMLVersion P G w)) eqn:Htruthy.
    - destruct (uninstallSML_truthy_files G w Htruthy) as [-> _].
      by rewrite !lookup_delete_ne.
    - by rewrite uninstallSML_falsy. }
  split; [|split; [exact Hframe|split; [|split]]].
  - destruct (truthyStr (getSMLVersion P G w)) eqn:Htruthy.
    + by destruct (uninstallSML_truthy_files G w Htruthy) as [_ ->].
    + by rewrite uninstallSML_falsy.
  - intros rest. apply Hframe; apply modsDir_not_loader.
  - intros Htruthy. destruct (uninstallSML_truthy_files G w Htruthy) as [-> _]. split.
    + assert (G ++ SMLPakRelativePath ≠ G ++ SMLDLLRelativePath)
        by (intros H%app_inv_head; discriminate).
      rewrite lookup_delete_ne by done. apply lookup_delete_eq.
    + apply lookup_delete_eq.
  - intros Hfalsy. by rewrite uninstallSML_falsy.
Qed.

(** X8: a second [uninstallSML] finds no loader: it writes one line in the
    log and changes nothing else. *)
Theorem uninstall_twice G w :
  uninstallSML P G (snd (uninstallSML P G w))
  = (inr tt, logLine (LogDebug (lit "No SML to uninstall")) (snd (uninstallSML P G w))).
Proof.
  apply uninstallSML_falsy.
  destruct (truthyStr (getSMLVersion P G w)) eqn:Htruthy.
  - rewrite (getSMLVersion_no_file P G); [done|]. by apply uninstallSML_no_file.
  - rewrite uninstallSML_falsy by done. simpl.
    by rewrite (getSMLVersion_files P G w) by done.
Qed.

Lemma filesGrow_files S w w' : files w' = files w → filesGrow S w w'.
Proof. intros H. split; intros p; by rewrite H. Qed.

Lemma filesGrow_trans S w1 w2 w3 :
  filesGrow S w1 w2 → filesGrow S w2 w3 → filesGrow S w1 w3.
Proof.
  intros [Hk1 Hf1] [Hk2 Hf2]. split.
  - intros p Hp. by apply Hk2, Hk1.
  - intros p Hp. by rewrite Hf2, Hf1.
Qed.

Lemma filesGrow_insert S w w' p c :
  p ∈ S → files w' = <[p := c]> (files w) → filesGrow S w w'.
Proof.
  intros Hin Hf. split; intros q Hq; rewrite Hf.
  - rewrite lookup_insert_is_Some'. by right.
  - apply lookup_insert_ne. by intros ->.
Qed.

Lemma filesGrow_withFile S w w' p c :
  p ∈ S → files w' = withFile p c (files w) → filesGrow S w w'.
Proof.
  destruct c as [c|]; simpl.
  - apply filesGrow_insert.
  - intros _. apply filesGrow_files.
Qed.

Lemma copyFileSync_grow S src dst w :
  dst ∈ S → filesGrow S w (snd (copyFileSync src dst w)).
Proof.
  intros Hin. unfold copyFileSync. destruct (files w !! src) as [c|]; simpl.
  - by apply (filesGrow_insert _ _ _ dst c).
  - by apply filesGrow_files.
Qed.

Lemma getSMLVersionCache_grow S V w :
  (∀ v, whenTruthy (semver_valid_coerce P V) = Some v →
        versionCacheDir P v ++ [SMLDLLFileName] ∈ S
        ∧ versionCacheDir P v ++ [SMLPakFileName] ∈ S) →
  filesGrow S w (snd (getSMLVersionCache P V w)).
Proof.
  intros HS. destruct (whenTruthy (semver_valid_coerce P V)) as [v|] eqn:Hv.
  - destruct (HS v eq_refl) as [Hdll Hpak].
    destruct (getSMLVersionCache_files V w v Hv) as (dll & pak & Hf & _).
    apply (filesGrow_trans _ _
             (withFiles (withFile (versionCacheDir P v ++ [SMLPakFileName]) pak) w)).
    + by apply (filesGrow_withFile _ _ _ (versionCacheDir P v ++ [SMLPakFileName]) pak).
    + by apply (filesGrow_withFile _ _ _ (versionCacheDir P v ++ [SMLDLLFileName]) dll).
  - rewrite getSMLVersionCache_invalid by done. by apply filesGrow_files.
Qed.

(** X6: whatever way [installSML] ends, it removes no file, and the only
    files it can write are the two loader files of the game directory and
    the two files of the cache directory of the coerced version. *)
Theorem install_writes_loader_and_cache_only V G w :
  filesGrow
    ([G ++ SMLDLLRelativePath; G ++ SMLPakRelativePath]
     ++ match whenTruthy (semver_valid_coerce P V) with
        | Some v => [versionCacheDir P v ++ [SMLDLLFileName];
                     versionCacheDir P v ++ [SMLPakFileName]]
        | None => []
        end)
    w (snd (installSML P V G w)).
Proof.
  set (S := _ ++ _).
  assert (HS1 : G ++ SMLDLLRelativePath ∈ S) by (by left).
  assert (HS2 : G ++ SMLPakRelativePath ∈ S) by (right; by left).
  assert (HS3 : ∀ v, whenTruthy (semver_valid_coerce P V) = Some v →
                     versionCacheDir P v ++ [SMLDLLFileName] ∈ S
                     ∧ versionCacheDir P v ++ [SMLPakFileName] ∈ S).
  { intros v Hv. unfold S. rewrite Hv. split; do 2 right; [by left|right; by left]. }
  clearbody S.
  unfold installSML. destruct (truthyStr (getSMLVersion P G w)); simpl;
    [by apply filesGrow_files|].
  unfold bind at 1. unfold debug at 1. unfold bind at 1.
  pose proof (getSMLVersionCache_grow S V (logLine (LogDebug (lit "Installing SML")) w) HS3)
    as Hcache.
  destruct (getSMLVersionCache P V _) as [[e|d] w1]; simpl in Hcache; [done|].
  unfold bind at 1.
  destruct (ensureExists_run (dirname (G ++ SMLDLLRelativePath)) w1) as (w2 & -> & Hf2 & _).
  unfold bind at 1.
  destruct (ensureExists_run (dirname (G ++ SMLPakRelativePath)) w2) as (w3 & -> & Hf3 & _).
  assert (H3 : filesGrow S w w3).
  { eapply filesGrow_trans; [exact Hcache|]. apply filesGrow_files. congruence. }
  clear Hcache Hf2 Hf3. unfold bind at 1.
  pose proof (copyFileSync_grow S (d ++ [SMLDLLFileName]) _ w3 HS1) as H4.
  destruct (copyFileSync _ _ w3) as [[e|[]] w4]; simpl in H4;
    [by eapply filesGrow_trans|].
  unfold bind, existsSync, ret.
  destruct (pathExists _ w4); [|by eapply filesGrow_trans].
  pose proof (copyFileSync_grow S (d ++ [SMLPakFileName]) _ w4 HS2) as H5.
  eapply filesGrow_trans; [exact H3|]. by eapply filesGrow_trans.
Qed.

(** X4: with no loader in the game directory and both artifacts of the
    version in the cache, [installSML] returns normally, asks nothing of the
    network, creates the [loaders] directory if it is missing, and copies the
    DLL and then the pak; [getSMLVersion] then reads the version of the
    cached DLL. *)
Theorem install_copies_both V G w v dll pak :
  truthyStr (getSMLVersion P G w) = false →
  whenTruthy (semver_valid_coerce P V) = Some v →
  files w !! (versionCacheDir P v ++ [SMLDLLFileName]) = Some dll →
  files w !! (versionCacheDir P v ++ [SMLPakFileName]) = Some pak →
  pathExists (versionCacheDir P v) w = true →
  let w' := snd (installSML P V G w) in
  fst (installSML P V G w) = inr tt
  ∧ files w' = <[G ++ SMLPakRelativePath := pak]> (<[G ++ SMLDLLRelativePath := dll]> (files w))
  ∧ getSMLVersion P G w' = smlVersionNative P dll
  ∧ pathExists (G ++ [lit "loaders"]) w' = true
  ∧ effects w'
    = effects w
      ++ (if pathExists (G ++ [lit "loaders"]) w then [] else [FsMkdir (G ++ [lit "loaders"])])
      ++ [FsCopyFile (versionCacheDir P v ++ [SMLDLLFileName]) (G ++ SMLDLLRelativePath);
          FsCopyFile (versionCacheDir P v ++ [SMLPakFileName]) (G ++ SMLPakRelativePath)].
Proof. apply installSML_both. Qed.

(** X9: on a game directory without loader files, [installSML] from the
    cache (with or without a pak there) followed by [uninstallSML] gives back
    the files as they were, provided the native reader recognises the DLL
    that was installed. *)
Theorem install_then_uninstall_restores_files V G w v dll :
  whenTruthy (semver_valid_coerce P V) = Some v →
  pathExists (versionCacheDir P v) w = true →
  files w !! (versionCacheDir P v ++ [SMLDLLFileName]) = Some dll →
  versionCacheDir P v ++ [SMLPakFileName] ∉ dirs w →
  ¬ versionCacheDir P v `prefix_of` G →
  truthyStr (smlVersionNative P dll) = true →
  files w !! (G ++ SMLDLLRelativePath) = None →
  files w !! (G ++ SMLPakRelativePath) = None →
  fst (installSML P V G w) = inr tt
  ∧ getSMLVersion P G (snd (installSML P V G w)) = smlVersionNative P dll
  ∧ files (snd (uninstallSML P G (snd (installSML P V G w)))) = files w.
Proof.
  intros Hv Hhit Hdll Hnodir Hout Hread Hnodll Hnopak.
  assert (Hnone : truthyStr (getSMLVersion P G w) = false).
  { by rewrite (getSMLVersion_no_file P G w Hnodll). }
  destruct (installSML_cached P V G w v dll) as (w1 & Hrun & Hf1); [done..|].
  rewrite Hrun. simpl.
  assert (Hne : G ++ SMLPakRelativePath ≠ G ++ SMLDLLRelativePath)
    by (intros H%app_inv_head; discriminate).
  assert (Hver : getSMLVersion P G w1 = smlVersionNative P dll).
  { unfold getSMLVersion. rewrite Hf1.
    destruct (files w !! (versionCacheDir P v ++ [SMLPakFileName])); simpl;
      by rewrite ?lookup_insert_ne, lookup_insert_eq by done. }
  split; [done|]. split; [done|].
  destruct (uninstallSML_truthy_files G w1) as [-> _]; [by rewrite Hver|].
  rewrite Hf1.
  destruct (files w !! (versionCacheDir P v ++ [SMLPakFileName])) as [pak|]; simpl.
  - rewrite delete_insert_ne by (by apply not_eq_sym).
    rewrite (delete_insert_id (files w) (G ++ SMLDLLRelativePath)) by done.
    by rewrite delete_insert_id.
  - rewrite delete_insert_id by done. by apply delete_id.
Qed.
(** X3: the download link of a file is the link of the release with its
    first [/tag/] turned into [/download/], what follows it kept, and the
    file name appended; a link without [/tag/] is kept whole. *)
Theorem download_link_of_release_link (a b fileName link : jsstring) :
  (includes (lit "/tag") a = false →
   downloadLink (a ++ lit "/tag/" ++ b) fileName
   = a ++ lit "/download/" ++ b ++ lit "/" ++ fileName)
  ∧ (includes (lit "/tag/") link = false →
     downloadLink link fileName = link ++ lit "/" ++ fileName).
Proof.
  split.
  - intros Ha. unfold downloadLink.
    rewrite (replace_at _ _ _ (length a)).
    + rewrite take_app_length.
      replace (a ++ lit "/tag/" ++ b) with ((a ++ lit "/tag/") ++ b) by (by rewrite <- app_assoc).
      rewrite drop_app_length' by (by rewrite length_app).
      by rewrite <- !app_assoc.
    + by apply indexOf_tag.
    + apply (bool_decide_unpack _). by vm_compute.
  - intros Hno. unfold downloadLink. by rewrite replace_absent.
Qed.
End FurtherSML.

(** ** The version of the game *)

Section FurtherExe.

Import SteamFlatpak.
Variable P : Platform.

Lemma takeDigits_digits s : forallb isDigit (takeDigits s) = true.
Proof.
  induction s as [|c s IH]; [done|]. simpl.
  destruct (isDigit c) eqn:Hc; [|done]. simpl. by rewrite Hc.
Qed.

Lemma matchCL_digits s digits :
  matchCL s = Some digits → digits ≠ [] ∧ forallb isDigit digits = true.
Proof.
  induction s as [|c s IH]; simpl.
  - unfold matchCLHere. destruct (startsWith _ _); [|done].
    destruct (takeDigits _) eqn:Hd; [done|]. intros [= <-]. split; [done|].
    rewrite <- Hd. apply takeDigits_digits.
  - unfold matchCLHere at 1. destruct (startsWith _ _); [|exact IH].
    destruct (takeDigits _) eqn:Hd; [exact IH|]. intros [= <-]. split; [done|].
    rewrite <- Hd. apply takeDigits_digits.
Qed.

Lemma takeDigits_app digits rest :
  forallb isDigit digits = true →
  match rest with [] => True | c :: _ => isDigit c = false end →
  takeDigits (digits ++ rest) = digits.
Proof.
  intros Hd Hrest. induction digits as [|d digits IH]; simpl.
  - destruct rest as [|c rest]; [done|]. simpl. by rewrite Hrest.
  - simpl in Hd. apply andb_true_iff in Hd as [-> Hd]. by rewrite IH.
Qed.

Lemma matchCLHere_other c s : c ≠ 67 → matchCLHere (c :: s) = None.
Proof.
  intros Hc. unfold matchCLHere. change (lit "CL-") with [67; 76; 45].
  cbn [startsWith]. destruct (N.eqb 67 c) eqn:Heq; [|done].
  apply N.eqb_eq in Heq. congruence.
Qed.

Lemma matchCL_found pre digits rest :
  67 ∉ pre → digits ≠ [] → forallb isDigit digits = true →
  match rest with [] => True | c :: _ => isDigit c = false end →
  matchCL (pre ++ lit "CL-" ++ digits ++ rest) = Some digits.
Proof.
  intros Hpre Hne Hd Hrest. induction pre as [|c pre IH].
  - rewrite app_nil_l.
    assert (matchCLHere (lit "CL-" ++ digits ++ rest) = Some digits) as Hhere.
    { unfold matchCLHere. rewrite startsWith_app.
      change (drop 3 (lit "CL-" ++ digits ++ rest)) with (digits ++ rest).
      rewrite takeDigits_app by done. by destruct digits. }
    destruct (lit "CL-" ++ digits ++ rest); simpl; by rewrite Hhere.
  - apply not_elem_of_cons in Hpre as [Hc Hpre].
    simpl app. simpl matchCL. rewrite matchCLHere_other by done. by apply IH.
Qed.

Lemma matchCL_absent s : includes (lit "CL-") s = false → matchCL s = None.
Proof.
  induction s as [|c s IH]; intros Hno; [by vm_compute|].
  simpl. unfold matchCLHere at 1. rewrite (includes_startsWith _ _ Hno).
  apply IH. by eapply includes_cons.
Qed.

(** X10: [getGameVersionFromExe] changes nothing; the version it returns
    is a non-empty string of digits; it is [0] when the product version has
    no [CL-]; and it throws [TypeError] when the executable has no product
    version. *)
Theorem game_version_is_a_number exePath w :
  snd (getGameVersionFromExe P exePath w) = w
  ∧ (∀ version,
       fst (getGameVersionFromExe P exePath w) = inr version →
       version ≠ [] ∧ forallb isDigit version = true)
  ∧ (∀ bytes,
       files w !! exePath = Some bytes → exiftool_read P bytes = Some None →
       fst (getGameVersionFromExe P exePath w) = inl TypeError)
  ∧ (∀ bytes productVersion,
       files w !! exePath = Some bytes →
       exiftool_read P bytes = Some (Some productVersion) →
       includes (lit "CL-") productVersion = false →
       fst (getGameVersionFromExe P exePath w) = inr (lit "0")).
Proof.
  unfold getGameVersionFromExe. split; [|split; [|split]].
  - destruct (files w !! exePath) as [bytes|]; [|done].
    destruct (exiftool_read P bytes) as [[pv|]|]; [|done..].
    by destruct (matchCL pv).
  - intros version. destruct (files w !! exePath) as [bytes|]; [|done].
    destruct (exiftool_read P bytes) as [[pv|]|]; [|done..].
    destruct (matchCL pv) as [d|] eqn:Hm; simpl; intros [= <-].
    + by apply matchCL_digits in Hm.
    + split; [|by vm_compute]. intros H. vm_compute in H. discriminate.
  - intros bytes -> ->. done.
  - intros bytes pv -> -> Hno.
    by rewrite matchCL_absent.
Qed.

(** X11: the version returned is the run of digits after the first [CL-]
    of the product version (here: no capital C before it). *)
Theorem changelist_number_is_read exePath w bytes pre digits rest :
  files w !! exePath = Some bytes →
  exiftool_read P bytes = Some (Some (pre ++ lit "CL-" ++ digits ++ rest)) →
  67 ∉ pre → digits ≠ [] → forallb isDigit digits = true →
  match rest with [] => True | c :: _ => isDigit c = false end →
  getGameVersionFromExe P exePath w = (inr digits, w).
Proof.
  intros Hfile Hread Hpre Hne Hd Hrest. unfold getGameVersionFromExe.
  by rewrite Hfile, Hread, matchCL_found.
Qed.
End FurtherExe.

(** ** The profiles [setupSteam] goes through *)

Section FurtherSetup.

Import SteamFlatpak.
Variable P : Platform.
Implicit Types (user : jsstring) (w : world).

Lemma assoc_assocSet_eq k v entries : assoc k (assocSet k v entries) = Some v.
Proof.
  induction entries as [|[k' v'] entries IH]; simpl.
  - unfold JS.eqb. by rewrite bool_decide_eq_true_2.
  - destruct (JS.eqb k' k) eqn:Heq; simpl.
    + unfold JS.eqb. by rewrite bool_decide_eq_true_2.
    + by rewrite Heq.
Qed.

Lemma assoc_assocSet_ne k k' v entries :
  k' ≠ k → assoc k' (assocSet k v entries) = assoc k' entries.
Proof.
  intros Hne. induction entries as [|[k0 v0] entries IH]; simpl.
  - unfold JS.eqb. by rewrite bool_decide_eq_false_2.
  - destruct (JS.eqb k0 k) eqn:Heq; simpl.
    + apply bool_decide_eq_true in Heq as ->.
      unfold JS.eqb. by rewrite !bool_decide_eq_false_2 by done.
    + by rewrite IH.
Qed.

Lemma lookupPath_app keys keys' v :
  lookupPath (keys ++ keys') v = lookupPath keys' (lookupPath keys v).
Proof.
  revert v. induction keys as [|k keys IH]; intros v; simpl; [done|].
  destruct v as [[s|entries]|]; [| apply IH |]; by destruct keys'.
Qed.

Lemma lookupPath_setIn keys new cf x :
  lookupPath keys (Some cf) = Some x →
  lookupPath keys (Some (setIn keys new cf)) = Some new.
Proof.
  revert cf. induction keys as [|k keys IH]; intros cf; simpl; [done|].
  destruct cf as [s|entries]; [done|].
  destruct (assoc k entries) as [child|] eqn:Hc; [|by destruct keys].
  intros Hx. simpl. rewrite assoc_assocSet_eq. by apply IH.
Qed.

(** Lines 63-71 on a configuration whose [Steam] object is there. *)
Lemma readLaunchOptions_steam user w text configFile steam :
  files w !! configFilePath P user = Some text →
  vdf_parse P text = Some configFile →
  lookupPath steamKeys (Some configFile) = Some (VObj steam) →
  readLaunchOptions P user w
  = let apps := assoc (lit "apps") steam in
    let Apps := if truthy apps then None else assoc (lit "Apps") steam in
    if negb (truthy apps) && negb (truthy Apps) then
      (inr None, logLine (LogError (appsKeyMissing P user)) w)
    else
      let aliased := negb (truthy apps) in
      let apps := if aliased then Apps else apps in
      (entry <- getProp apps STEAM_APP ;;
       launchOptions <- getProp entry (lit "LaunchOptions") ;;
       ret (Some (configFile, steam, apps, aliased, entry, launchOptions))) w.
Proof.
  intros Hfile Hparse Hsteam. unfold readLaunchOptions.
  unfold bind at 1. unfold bind at 1. unfold readFileSync at 1. rewrite Hfile.
  rewrite Hparse. unfold fromOption at 1. unfold ret at 1.
  revert Hsteam. unfold steamKeys. simpl lookupPath.
  destruct configFile as [|e0]; [done|]. unfold bind at 1. simpl getProp at 1.
  unfold ret at 1.
  destruct (assoc (lit "UserLocalConfigStore") e0) as [[|e1]|]; [done| |done].
  unfold bind at 1. simpl getProp at 1. unfold ret at 1.
  destruct (assoc (lit "Software") e1) as [[|e2]|]; [done| |done].
  unfold bind at 1. simpl getProp at 1. unfold ret at 1.
  destruct (assoc (lit "Valve") e2) as [[|e3]|]; [done| |done].
  unfold bind at 1. simpl getProp at 1. unfold ret at 1.
  intros ->.
  unfold bind at 1. simpl getProp at 1. unfold ret at 1.
  unfold bind at 1.
  destruct (truthy (assoc (lit "apps") steam)) eqn:Happs.
  - unfold ret at 1. simpl. done.
  - simpl getProp at 1. unfold ret at 1. simpl negb. cbv zeta.
    destruct (truthy (assoc (lit "Apps") steam)); simpl; [done|].
    unfold bind, error, ret. done.
Qed.

(** X15: a profile that cannot be patched is logged and skipped, with no
    check of the process table and no write: a missing configuration file,
    one that does not parse, one with neither [apps] nor [Apps] (the line of
    line 66), and one whose [apps] has no entry for the game (the
    [TypeError] of line 71). The callback returns normally each time. *)
Theorem unpatchable_profiles_are_skipped user w :
  (files w !! configFilePath P user = None →
   setupSteamUser P user w
   = (inr tt, logLine (LogErrorOf (ENOENT (configFilePath P user))) w))
  ∧ (∀ text,
       files w !! configFilePath P user = Some text → vdf_parse P text = None →
       setupSteamUser P user w = (inr tt, logLine (LogErrorOf VdfSyntaxError) w))
  ∧ (∀ text configFile steam,
       files w !! configFilePath P user = Some text →
       vdf_parse P text = Some configFile →
       lookupPath steamKeys (Some configFile) = Some (VObj steam) →
       (assoc (lit "apps") steam = None → assoc (lit "Apps") steam = None →
        setupSteamUser P user w
        = (inr tt, logLine (LogError (appsKeyMissing P user)) w))
       ∧ (∀ apps,
            assoc (lit "apps") steam = Some (VObj apps) →
            assoc STEAM_APP apps = None →
            setupSteamUser P user w = (inr tt, logLine (LogErrorOf TypeError) w))).
Proof.
  split; [|split].
  - intros Hfile. apply setupSteamUser_read_fails.
    unfold readLaunchOptions, bind, readFileSync. by rewrite Hfile.
  - intros text Hfile Hparse. apply setupSteamUser_read_fails.
    unfold readLaunchOptions, bind, readFileSync. by rewrite Hfile, Hparse.
  - intros text configFile steam Hfile Hparse Hsteam.
    pose proof (readLaunchOptions_steam user w text configFile steam Hfile Hparse Hsteam)
      as Hread.
    split.
    + intros Happs HApps. apply setupSteamUser_no_apps.
      rewrite Hread, Happs. simpl. by rewrite HApps.
    + intros apps Happs Hentry. apply setupSteamUser_read_fails.
      rewrite Hread, Happs. simpl. unfold bind, ret. simpl. by rewrite Hentry.
Qed.

(** Lines 63-71 on a configuration that has the entry of the game, under
    [apps] or, when [aliased], under [Apps] alone. *)
Lemma readLaunchOptions_entry user w text configFile steam apps entry (aliased : bool) :
  files w !! configFilePath P user = Some text →
  vdf_parse P text = Some configFile →
  lookupPath steamKeys (Some configFile) = Some (VObj steam) →
  (if aliased
   then assoc (lit "apps") steam = None ∧ assoc (lit "Apps") steam = Some (VObj apps)
   else assoc (lit "apps") steam = Some (VObj apps)) →
  assoc STEAM_APP apps = Some (VObj entry) →
  readLaunchOptions P user w
  = (inr (Some (configFile, steam, Some (VObj apps), aliased, Some (VObj entry),
               assoc (lit "LaunchOptions") entry)), w).
Proof.
  intros Hfile Hparse Hsteam Happs Hentry.
  rewrite (readLaunchOptions_steam user w text configFile steam) by done.
  destruct aliased.
  - destruct Happs as [-> ->]. simpl. unfold bind, ret. simpl. by rewrite Hentry.
  - rewrite Happs. simpl. unfold bind, ret. simpl. by rewrite Hentry.
Qed.

Lemma lookupPath_withLaunchOptions configFile steam0 steam apps entry aliased launchOptions :
  lookupPath steamKeys (Some configFile) = Some steam0 →
  lookupPath steamKeys
    (Some (withLaunchOptions configFile steam apps entry aliased launchOptions))
  = Some (VObj (let entry' := VObj (assocSet (lit "LaunchOptions") (VStr launchOptions) entry) in
                let apps' := VObj (assocSet STEAM_APP entry' apps) in
                if aliased then assocSet (lit "apps") apps' (assocSet (lit "Apps") apps' steam)
                else assocSet (lit "apps") apps' steam)).
Proof. intros H. unfold withLaunchOptions. by apply (lookupPath_setIn _ _ _ steam0). Qed.

Lemma keys_differ : lit "apps" ≠ lit "Apps".
Proof. intros H. vm_compute in H. discriminate. Qed.

(** X16: what is written for a profile that needs a change while Steam is
    not running: the configuration read, with the patched launch options in
    the entry of the game under [apps]; the other fields of that entry, the
    entries of the other games and the other keys of the [Steam] object are
    kept. When the entry was found under [Apps] alone, [Apps] now holds the
    same patched object as [apps]; otherwise [Apps] is as it was. *)
Theorem patched_configuration user w text configFile steam apps entry (aliased : bool) :
  files w !! configFilePath P user = Some text →
  vdf_parse P text = Some configFile →
  lookupPath steamKeys (Some configFile) = Some (VObj steam) →
  (if aliased
   then assoc (lit "apps") steam = None ∧ assoc (lit "Apps") steam = Some (VObj apps)
   else assoc (lit "apps") steam = Some (VObj apps)) →
  assoc STEAM_APP apps = Some (VObj entry) →
  snd (patch (assoc (lit "LaunchOptions") entry)) = true →
  lit "steam" ∉ processes w →
  let patched := fst (patch (assoc (lit "LaunchOptions") entry)) in
  let written := withLaunchOptions configFile steam apps entry aliased patched in
  files (snd (setupSteamUser P user w))
  = <[configFilePath P user := vdf_dump P written]> (files w)
  ∧ lookupPath (steamKeys ++ [lit "apps"; STEAM_APP; lit "LaunchOptions"]) (Some written)
    = Some (VStr patched)
  ∧ (∀ k, k ≠ lit "LaunchOptions" →
          lookupPath (steamKeys ++ [lit "apps"; STEAM_APP; k]) (Some written) = assoc k entry)
  ∧ (∀ app, app ≠ STEAM_APP →
            lookupPath (steamKeys ++ [lit "apps"; app]) (Some written) = assoc app apps)
  ∧ (∀ k, k ≠ lit "apps" → k ≠ lit "Apps" →
          lookupPath (steamKeys ++ [k]) (Some written) = assoc k steam)
  ∧ lookupPath (steamKeys ++ [lit "Apps"]) (Some written)
    = (if aliased then lookupPath (steamKeys ++ [lit "apps"]) (Some written)
       else assoc (lit "Apps") steam).
Proof.
  intros Hfile Hparse Hsteam Happs Hentry Hchanged Hstopped. cbv zeta.
  pose proof (readLaunchOptions_entry user w text configFile steam apps entry aliased
                Hfile Hparse Hsteam Happs Hentry) as Hread.
  split.
  { rewrite (setupSteamUser_read P user w _ _ _ _ _ _ (f_equal fst Hread)), Hchanged.
    rewrite bool_decide_eq_false_2 by done.
    unfold patchedConfig. by rewrite Hread. }
  pose proof (lookupPath_withLaunchOptions configFile (VObj steam) steam apps entry aliased
                (fst (patch (assoc (lit "LaunchOptions") entry))) Hsteam) as Hsteam'.
  cbv zeta in Hsteam'.
  pose proof keys_differ as Hk.
  assert (Happs' : ∀ x other,
            assoc (lit "apps")
              (if aliased then assocSet (lit "apps") x (assocSet (lit "Apps") x other)
               else assocSet (lit "apps") x other) = Some x).
  { intros x other. destruct aliased; apply assoc_assocSet_eq. }
  split; [|split; [|split; [|split]]].
  - rewrite lookupPath_app, Hsteam'. simpl lookupPath.
    by rewrite Happs', !assoc_assocSet_eq.
  - intros k Hne. rewrite lookupPath_app, Hsteam'. simpl lookupPath.
    by rewrite Happs', assoc_assocSet_eq, assoc_assocSet_ne.
  - intros app Hne. rewrite lookupPath_app, Hsteam'. simpl lookupPath.
    by rewrite Happs', assoc_assocSet_ne.
  - intros k Hne1 Hne2. rewrite lookupPath_app, Hsteam'. simpl lookupPath.
    destruct aliased; by rewrite !assoc_assocSet_ne.
  - rewrite !lookupPath_app, Hsteam'. simpl lookupPath. rewrite Happs'.
    destruct aliased.
    + by rewrite assoc_assocSet_ne, assoc_assocSet_eq.
    + by rewrite assoc_assocSet_ne.
Qed.

(** X17: once a profile has been patched to conformant launch options,
    the callback finds nothing to do, whether Steam is running or not: it
    returns normally and leaves the world as it is. The parser is assumed to
    read back what was dumped. *)
Theorem patched_profile_is_left_alone user w w' text configFile steam apps entry
    (aliased : bool) :
  files w !! configFilePath P user = Some text →
  vdf_parse P text = Some configFile →
  lookupPath steamKeys (Some configFile) = Some (VObj steam) →
  (if aliased
   then assoc (lit "apps") steam = None ∧ assoc (lit "Apps") steam = Some (VObj apps)
   else assoc (lit "apps") steam = Some (VObj apps)) →
  assoc STEAM_APP apps = Some (VObj entry) →
  snd (patch (assoc (lit "LaunchOptions") entry)) = true →
  lit "steam" ∉ processes w →
  let patched := fst (patch (assoc (lit "LaunchOptions") entry)) in
  let written := withLaunchOptions configFile steam apps entry aliased patched in
  conformant patched = true →
  vdf_parse P (vdf_dump P written) = Some written →
  files w' = files (snd (setupSteamUser P user w)) →
  setupSteamUser P user w' = (inr tt, w').
Proof.
  intros Hfile Hparse Hsteam Happs Hentry Hchanged Hstopped. cbv zeta.
  intros Hconf Hround Hfiles.
  pose proof (readLaunchOptions_entry user w text configFile steam apps entry aliased
                Hfile Hparse Hsteam Happs Hentry) as Hread.
  assert (Hf : files w' !! configFilePath P user
               = Some (vdf_dump P (withLaunchOptions configFile steam apps entry aliased
                                     (fst (patch (assoc (lit "LaunchOptions") entry)))))).
  { rewrite Hfiles.
    rewrite (setupSteamUser_read P user w _ _ _ _ _ _ (f_equal fst Hread)), Hchanged.
    rewrite bool_decide_eq_false_2 by done.
    unfold patchedConfig. rewrite Hread. simpl. apply lookup_insert_eq. }
  pose proof (lookupPath_withLaunchOptions configFile (VObj steam) steam apps entry aliased
                (fst (patch (assoc (lit "LaunchOptions") entry))) Hsteam) as Hsteam'.
  cbv zeta in Hsteam'.
  set (entry' := assocSet (lit "LaunchOptions") _ entry) in *.
  set (apps' := assocSet STEAM_APP (VObj entry') apps) in *.
  assert (Hread' : fst (readLaunchOptions P user w')
                   = inr (Some (withLaunchOptions configFile steam apps entry aliased
                                  (fst (patch (assoc (lit "LaunchOptions") entry))),
                                if aliased
                                then assocSet (lit "apps") (VObj apps')
                                       (assocSet (lit "Apps") (VObj apps') steam)
                                else assocSet (lit "apps") (VObj apps') steam,
                                Some (VObj apps'), false, Some (VObj entry'),
                                assoc (lit "LaunchOptions") entry'))).
  { erewrite (readLaunchOptions_entry user w' _ _ _ apps' entry' false); try done.
    - destruct aliased; apply assoc_assocSet_eq.
    - apply assoc_assocSet_eq. }
  rewrite (setupSteamUser_read P user w' _ _ _ _ _ _ Hread').
  unfold entry'. rewrite assoc_assocSet_eq.
  by rewrite (patch_conformant _ Hconf).
Qed.

(** X14: the patch sets [changed] exactly when the launch options are not
    a conformant string (missing, empty, not a string, without block, without
    the required value, or with the value doubled); when [changed] stays
    false the string is returned as it is. So a profile whose launch options
    are read needs a change exactly when it is not conformant. *)
Theorem change_is_due_unless_conformant :
  (∀ launchOptions,
     snd (patch launchOptions)
     = negb (match launchOptions with
             | Some (VStr s) => conformant s
             | _ => false
             end))
  ∧ (∀ launchOptions,
       snd (patch launchOptions) = false →
       ∃ s, launchOptions = Some (VStr s) ∧ fst (patch launchOptions) = s)
  ∧ (∀ user w launchOptions,
       launchOptionsRead P user w = Some launchOptions →
       profileNeedsChange P user w = negb (profileConformant P user w)).
Proof.
  assert (Hpatch : ∀ launchOptions,
            snd (patch launchOptions)
            = negb (match launchOptions with
                    | Some (VStr s) => conformant s
                    | _ => false
                    end)).
  { intros [[s|es]|]; [|by vm_compute|done].
    destruct (conformant s) eqn:Hc.
    - by rewrite (patch_conformant _ Hc).
    - destruct (snd (patch (Some (VStr s)))) eqn:Hp; [done|].
      apply patch_changed_not_conformant in Hp. congruence. }
  split; [exact Hpatch|split].
  - intros lo Hlo. rewrite Hpatch in Hlo.
    destruct lo as [[s|es]|]; try done. apply negb_false_iff in Hlo.
    exists s. split; [done|]. by rewrite (patch_conformant _ Hlo).
  - intros user w lo Hread. unfold profileNeedsChange, profileConformant.
    rewrite Hread. apply Hpatch.
Qed.




(** The files after the callback of one user. *)
Lemma setupSteamUser_files user w :
  files (snd (setupSteamUser P user w))
  = withFile (configFilePath P user)
      (if profileNeedsChange P user w && negb (bool_decide (lit "steam" ∈ processes w))
       then patchedConfig P user w else None)
      (files w)
  ∧ processes (snd (setupSteamUser P user w)) = processes w.
Proof.
  unfold profileNeedsChange, launchOptionsRead.
  destruct (fst (readLaunchOptions P user w))
    as [e|[[[[[[c s] a] al] en] lo]|]] eqn:Hread.
  - by rewrite (setupSteamUser_read_fails P _ _ e Hread).
  - rewrite (setupSteamUser_read P _ _ _ _ _ _ _ _ Hread).
    destruct (snd (patch lo)); [|done]. simpl.
    destruct (bool_decide (lit "steam" ∈ processes w)); [done|]. simpl.
    by destruct (patchedConfig P user w).
  - by rewrite (setupSteamUser_no_apps P _ _ Hread).
Qed.




End FurtherSetup.

(** ** What [getInstalls] returns *)

Section FurtherDiscovery.

Import SteamFlatpak.
Variable P : Platform.
Implicit Types (w : world) (root installdir : jsstring).

Lemma logLines_nil w : logLines [] w = w.
Proof. destruct w. unfold logLines. simpl. by rewrite app_nil_r. Qed.

Lemma logLines_one l w : logLine l w = logLines [l] w.
Proof. done. Qed.

Lemma logLines_app l1 l2 w : logLines l2 (logLines l1 w) = logLines (l1 ++ l2) w.
Proof. unfold logLines. simpl. by rewrite app_assoc. Qed.

(** The start of the callback on a folder whose game is found: the read of
    the executable is awaited. *)
Lemma libraryFolderStart_found root installdir acc w :
  exeFoundAt P root installdir w →
  ∃ manifest,
    libraryFolderStart P (VStr root) acc w
    = (inr (acc, Some {| pr_manifest := manifest;
                         pr_fullInstallPath := installPath root installdir;
                         pr_gameExe := exePath (installPath root installdir) |}), w).
Proof.
  unfold exeFoundAt, manifestPath, installPath, exePath, libraryFolderStart.
  intros (text & manifest & Hf & Hp & Hd & He). exists manifest.
  unfold bind, asString, ret, existsSync, readFileSync, fromOption.
  rewrite pathExists_file by eauto. rewrite Hf, Hp.
  unfold declaredInstallDir in Hd.
  destruct manifest as [|manifest]; [done|]. simpl.
  destruct (assoc (lit "AppState") manifest) as [[|AppState]|]; [done| |done]. simpl.
  destruct (assoc (lit "installdir") AppState) as [[d|]|]; [|done..].
  injection Hd as ->. simpl in He |- *. unfold ret. by rewrite He.
Qed.

(** What the start of the callback can do: at most one line of the log, at
    most one push, and a read is awaited only for a game that is found. *)
Lemma libraryFolderStart_cases libraryFolder acc w :
  outcome (libraryFolderStart P libraryFolder acc) w
    (λ r w',
       (w' = w ∨ ∃ m, w' = logLine (LogInfo m) w)
       ∧ match r with
         | inl _ => True
         | inr (acc', None) =>
             acc' = acc
             ∨ ∃ root installdir,
                 libraryFolder = VStr root
                 ∧ exeMissingAt P root installdir w
                 ∧ acc' = acc ++ [installPath root installdir]
         | inr (acc', Some t) =>
             acc' = acc
             ∧ ∃ root installdir,
                 libraryFolder = VStr root
                 ∧ exeFoundAt P root installdir w
                 ∧ pr_fullInstallPath t = installPath root installdir
                 ∧ pr_gameExe t = exePath (installPath root installdir)
                 ∧ (files w !! locate (cwd P) (manifestPath root) ≫= vdf_parse P)
                   = Some (pr_manifest t)
         end).
Proof.
  unfold libraryFolderStart.
  apply outcome_bind. destruct libraryFolder as [root|entries]; [|unfold outcome; simpl; eauto].
  unfold outcome at 1. simpl.
  apply outcome_bind. unfold outcome at 1. simpl.
  destruct (pathExists _ w) eqn:Hmanifest; [|unfold outcome; simpl; eauto].
  apply outcome_bind, outcome_bind. unfold outcome at 1, readFileSync.
  destruct (files w !! _) as [text|] eqn:Hfile; [|simpl; eauto]. simpl.
  unfold outcome at 1, fromOption.
  destruct (vdf_parse P text) as [manifest|] eqn:Hparse; [|simpl; eauto]. simpl.
  apply outcome_bind. unfold outcome at 1, getProp.
  destruct manifest as [s|manifest]; simpl.
  { rewrite orb_true_r. apply outcome_bind. unfold outcome. simpl. eauto. }
  destruct (assoc (lit "AppState") manifest) as [AppState|] eqn:HApp;
    [|apply outcome_bind; unfold outcome; simpl; eauto].
  destruct (truthy (Some AppState)); [|apply outcome_bind; unfold outcome; simpl; eauto].
  simpl.
  apply outcome_bind, outcome_bind. unfold outcome at 1.
  destruct AppState as [s|AppState]; simpl.
  { unfold outcome. simpl. eauto. }
  unfold outcome at 1, asString.
  destruct (assoc (lit "installdir") AppState) as [[installdir|?]|] eqn:Hdir;
    [|simpl; eauto..]. simpl.
  apply outcome_bind. unfold outcome at 1. simpl.
  match goal with
  | |- context [negb (pathExists ?p w)] => destruct (pathExists p w) eqn:Hexe
  end; simpl; unfold outcome; simpl.
  - split; [eauto|]. split; [done|]. exists root, installdir.
    split; [done|]. split; [|split; [done|split; [done|]]].
    + exists text, (VObj manifest). unfold manifestPath, declaredInstallDir.
      by rewrite HApp, Hdir.
    + unfold manifestPath. by rewrite Hfile.
  - split; [eauto|]. right. exists root, installdir. split; [done|]. split; [|done].
    exists text, (VObj manifest). unfold manifestPath, declaredInstallDir.
    by rewrite HApp, Hdir.
Qed.

(** The rest of the callback gives the same install whatever was pushed
    before. *)
Lemma libraryFolderResume_acc t acc w :
  libraryFolderResume P t acc w
  = (match fst (libraryFolderResume P t [] w) with
     | inl e => inl e
     | inr l => inr (acc ++ l)
     end, w).
Proof.
  unfold libraryFolderResume.
  unfold bind, getGameVersionFromExe, getProp, ret, throw.
  repeat (simpl; case_match; simplify_eq; try done).
Qed.

Lemma libraryFolderResume_fields t w installs :
  fst (libraryFolderResume P t [] w) = inr installs →
  ∃ i, installs = [i]
       ∧ installLocation i = pr_fullInstallPath t
       ∧ launchPath i = lit "flatpak run com.valvesoftware.Steam steam://rungameid/526870"
       ∧ setup i = Some SetupSteam
       ∧ fst (getGameVersionFromExe P (locate (cwd P) (pr_gameExe t)) w)
         = inr (version i)
       ∧ branch i ≠ []
       ∧ ∃ n, name i
              = n ++ lit " "
                ++ (if JS.eqb (toLowerCase (branch i)) (lit "experimental")
                    then lit "Experimental" else lit "Early Access")
                ++ lit " (Steam)".
Proof.
  unfold libraryFolderResume.
  unfold bind, getProp, ret, throw.
  destruct (getGameVersionFromExe P (locate (cwd P) (pr_gameExe t)) w)
    as [[e|v] w1] eqn:Hv; [done|].
  repeat (simpl; case_match; simplify_eq; try done);
    simpl; intros [= <-]; eexists; (split; [reflexivity|]); simpl;
    repeat split; try done.
  all: eexists;
    first [ match goal with
            | H : JS.eqb _ _ = _ |- _ => simpl in H |- *; rewrite H; reflexivity
            end
          | replace (JS.eqb (toLowerCase (lit "EA")) (lit "experimental")) with false
              by (by vm_compute);
            reflexivity ].
Qed.

(** The reads that complete, in order: every install comes from a read, and
    when nothing is thrown every read gives its install. *)
Lemma awaitReads_run ordered acc w :
  ∃ installs thrown,
    awaitReads P ordered acc w = (inr (installs, thrown), w)
    ∧ (∀ i, i ∈ installs →
            i ∈ acc ∨ ∃ t, t ∈ ordered ∧ fst (libraryFolderResume P t [] w) = inr [i])
    ∧ (thrown = None →
       (∀ i, i ∈ acc → i ∈ installs)
       ∧ ∀ t, t ∈ ordered →
              ∃ i, i ∈ installs ∧ fst (libraryFolderResume P t [] w) = inr [i]).
Proof.
  revert acc. induction ordered as [|t ordered IH]; intros acc.
  - exists acc, None. split; [done|]. split; [by left|].
    intros _. split; [done|]. by intros t ?%elem_of_nil.
  - simpl. unfold bind at 1, settle at 1.
    rewrite (libraryFolderResume_acc t acc w).
    destruct (fst (libraryFolderResume P t [] w)) as [e|l] eqn:Hl; simpl.
    + exists acc, (Some e). split; [done|]. split; [by left|done].
    + destruct (libraryFolderResume_fields t w l Hl) as (i0 & -> & _).
      destruct (IH (acc ++ [i0])) as (installs & thrown & -> & Hin & Hall).
      exists installs, thrown. split; [done|]. split.
      * intros i [[Hi| ->%list_elem_of_singleton]%elem_of_app|(t' & Ht' & Hr)]%Hin.
        -- by left.
        -- right. exists t. split; [by left|done].
        -- right. exists t'. split; [by right|done].
      * intros Hnone. destruct (Hall Hnone) as [Hacc Hord]. split.
        -- intros i Hi. apply Hacc, elem_of_app. by left.
        -- intros t' [->|Ht']%elem_of_cons; [|by apply Hord].
           exists i0. split; [|done]. apply Hacc, elem_of_app. right. by left.
Qed.

Lemma promiseAll_run completion promises w :
  ∃ installs thrown,
    promiseAll P completion promises w = (inr (installs, thrown), w)
    ∧ (∀ i, i ∈ installs →
            ∃ t, inr (Some t) ∈ promises ∧ fst (libraryFolderResume P t [] w) = inr [i])
    ∧ (∀ e, inl e ∈ promises → installs = [] ∧ is_Some thrown)
    ∧ (thrown = None →
       ∀ t, inr (Some t) ∈ promises →
            ∃ i, i ∈ installs ∧ fst (libraryFolderResume P t [] w) = inr [i]).
Proof.
  unfold promiseAll.
  destruct (omap (λ p, match p with inl e => Some e | inr _ => None end) promises)
    as [|e rejected] eqn:Hrej.
  - set (pending := omap (λ p, match p with inr t => t | inl _ => None end) promises).
    destruct (awaitReads_run (completionOrder (length pending) completion pending) [] w)
      as (installs & thrown & -> & Hin & Hall).
    exists installs, thrown. split; [done|]. split; [|split].
    + intros i [Hi|(t & Ht & Hl)]%Hin; [by apply elem_of_nil in Hi|].
      exists t. split; [|done].
      apply completionOrder_subset, list_elem_of_omap in Ht as (p & Hp & Hpt).
      destruct p as [|[t'|]]; simplify_eq. done.
    + intros e He. exfalso.
      assert (e ∈ omap (λ p : exn + option pendingRead,
                          match p with inl e => Some e | inr _ => None end) promises)
        as Hin' by (apply list_elem_of_omap; eauto).
      rewrite Hrej in Hin'. by apply elem_of_nil in Hin'.
    + intros Hnone t Ht. destruct (Hall Hnone) as [_ Hord]. apply Hord.
      rewrite (completionOrder_perm completion pending).
      apply list_elem_of_omap. by exists (inr (Some t)).
  - exists [], (Some e). split; [done|]. split; [|split].
    + by intros i ?%elem_of_nil.
    + eauto.
    + done.
Qed.

(** [libraryfolders.map(async ...)]: only lines of [info] are logged; the
    reads awaited are those of the folders whose game is found; what is
    pushed on [invalidInstalls] are the install paths of the folders whose
    executable is missing; a folder that is not a string leaves a rejected
    promise. *)
Lemma startAll_run roots acc w :
  ∃ pushed promises lines,
    startAll P roots acc w = (inr (acc ++ pushed, promises), logLines lines w)
    ∧ existsb isErrorOf lines = false
    ∧ (∀ t, inr (Some t) ∈ promises →
            ∃ root installdir,
              VStr root ∈ roots
              ∧ exeFoundAt P root installdir w
              ∧ pr_fullInstallPath t = installPath root installdir
              ∧ pr_gameExe t = exePath (installPath root installdir))
    ∧ (∀ root installdir,
         VStr root ∈ roots → exeFoundAt P root installdir w →
         ∃ t, inr (Some t) ∈ promises
              ∧ pr_fullInstallPath t = installPath root installdir)
    ∧ (∀ p, p ∈ pushed →
            ∃ root installdir,
              VStr root ∈ roots
              ∧ exeMissingAt P root installdir w
              ∧ p = installPath root installdir)
    ∧ (∀ entries, VObj entries ∈ roots → ∃ e, inl e ∈ promises).
Proof.
  revert acc w. induction roots as [|lf roots IH]; intros acc w.
  - exists [], [], []. rewrite logLines_nil, app_nil_r. split; [done|]. split; [done|].
    repeat split; intros; by rewrite ?elem_of_nil in *.
  - rewrite startAll_cons.
    pose proof (libraryFolderStart_cases lf acc w) as Hpost. unfold outcome in Hpost.
    destruct (libraryFolderStart P lf acc w) as [r w1] eqn:Hstart.
    simpl in Hpost. destruct Hpost as [Hw1 Hr].
    assert (∃ l1, w1 = logLines l1 w ∧ existsb isErrorOf l1 = false) as (l1 & -> & Hl1).
    { destruct Hw1 as [->|[m ->]]; [exists []|exists [LogInfo m]];
        by rewrite ?logLines_nil. }
    assert (∃ p1, match r with inr (acc1, _) => acc1 | inl _ => acc end = acc ++ p1
                  ∧ ∀ p, p ∈ p1 →
                         ∃ root installdir,
                           lf = VStr root ∧ exeMissingAt P root installdir w
                           ∧ p = installPath root installdir) as (p1 & Hp1 & Hmiss1).
    { destruct r as [e|[acc1 [t|]]].
      - exists []. rewrite app_nil_r. split; [done|]. by intros p ?%elem_of_nil.
      - destruct Hr as [-> _]. exists []. rewrite app_nil_r. split; [done|].
        by intros p ?%elem_of_nil.
      - destruct Hr as [->|(root & installdir & -> & Hm & ->)].
        + exists []. rewrite app_nil_r. split; [done|]. by intros p ?%elem_of_nil.
        + exists [installPath root installdir]. split; [done|].
          intros p ->%list_elem_of_singleton. eauto. }
    rewrite Hp1.
    destruct (IH (acc ++ p1) (logLines l1 w))
      as (p2 & promises & l2 & -> & Hl2 & Hsound & Hcomplete & Hmiss2 & Hobj).
    exists (p1 ++ p2),
      (match r with inl e => inl e | inr (_, awaiting) => inr awaiting end :: promises),
      (l1 ++ l2).
    rewrite logLines_app, app_assoc. split; [done|].
    split; [by rewrite existsb_app, Hl1, Hl2|]. split; [|split; [|split]].
    + intros t [Ht|Ht]%elem_of_cons.
      * destruct r as [e|[acc1 [t'|]]]; simplify_eq.
        destruct Hr as (_ & root & installdir & -> & Hfound & Hpath & Hexe & _).
        exists root, installdir. split; [by left|done].
      * destruct (Hsound t Ht) as (root & installdir & Hin & Hfound & Hfields).
        exists root, installdir. split; [by right|done].
    + intros root installdir [Hin|Hin]%elem_of_cons Hfound.
      * subst lf.
        destruct (libraryFolderStart_found root installdir acc w Hfound) as [manifest Hrun].
        rewrite Hrun in Hstart. simplify_eq. eexists. split; [by left|done].
      * destruct (Hcomplete root installdir Hin Hfound) as (t & Ht & Hpath).
        exists t. split; [by right|done].
    + intros p [Hp|Hp]%elem_of_app.
      * destruct (Hmiss1 p Hp) as (root & installdir & -> & Hm & ->).
        exists root, installdir. split; [by left|done].
      * destruct (Hmiss2 p Hp) as (root & installdir & Hin & Hm & ->).
        exists root, installdir. split; [by right|done].
    + intros entries [Hin|Hin]%elem_of_cons.
      * subst lf. unfold libraryFolderStart, bind, asString, throw in Hstart.
        simpl in Hstart. simplify_eq. exists TypeError. by left.
      * destruct (Hobj entries Hin) as [e He]. exists e. by right.
Qed.

Lemma getGameVersionFromExe_ext exePath w w' :
  files w' = files w →
  fst (getGameVersionFromExe P exePath w') = fst (getGameVersionFromExe P exePath w).
Proof.
  intros Hf. unfold getGameVersionFromExe. rewrite Hf.
  repeat (case_match; simplify_eq; try done).
Qed.

(** Lines 121-148 on the library folders [roots]. *)
Lemma awaitLibraryFolders_run completion roots w :
  ∃ res lines,
    awaitLibraryFolders P completion roots w = (inr res, logLines lines w)
    ∧ (∀ i, i ∈ installs res →
            ∃ root installdir,
              VStr root ∈ roots
              ∧ exeFoundAt P root installdir w
              ∧ installLocation i = installPath root installdir
              ∧ launchPath i
                = lit "flatpak run com.valvesoftware.Steam steam://rungameid/526870"
              ∧ setup i = Some SetupSteam
              ∧ fst (getGameVersionFromExe P
                       (locate (cwd P) (exePath (installLocation i))) w)
                = inr (version i)
              ∧ branch i ≠ []
              ∧ ∃ n, name i
                     = n ++ lit " "
                       ++ (if JS.eqb (toLowerCase (branch i)) (lit "experimental")
                           then lit "Experimental" else lit "Early Access")
                       ++ lit " (Steam)")
    ∧ (∀ p, p ∈ invalidInstalls res →
            ∃ root installdir,
              VStr root ∈ roots
              ∧ exeMissingAt P root installdir w
              ∧ p = installPath root installdir)
    ∧ (existsb isErrorOf lines = false →
       ∀ root installdir,
         VStr root ∈ roots → exeFoundAt P root installdir w →
         ∃ i, i ∈ installs res ∧ installLocation i = installPath root installdir)
    ∧ (∀ entries, VObj entries ∈ roots →
                  installs res = [] ∧ existsb isErrorOf lines = true).
Proof.
  unfold awaitLibraryFolders.
  destruct (startAll_run roots [] w)
    as (inv & promises & l1 & Hstart & Hl1 & Hsound & Hcomplete & Hmiss & Hobj).
  destruct (promiseAll_run completion promises (logLines l1 w))
    as (installs & thrown & Hawait & Hin & Hrej & Hall).
  unfold bind. rewrite Hstart. simpl. rewrite Hawait. simpl.
  exists {| installs := installs; invalidInstalls := inv |},
    (l1 ++ match thrown with Some e => [LogErrorOf e] | None => [] end).
  split.
  { destruct thrown; simpl; unfold errorOf, ret; simpl.
    - by rewrite logLines_one, logLines_app.
    - by rewrite app_nil_r. }
  simpl. split; [|split; [done|split]].
  - intros i (t & Ht & Hres)%Hin.
    destruct (Hsound t Ht) as (root & installdir & Hroot & Hfound & Hpath & Hexe).
    destruct (libraryFolderResume_fields t (logLines l1 w) [i] Hres)
      as (i' & [= <-] & Hloc & Hlaunch & Hsetup & Hversion & Hbranch & Hname).
    exists root, installdir. repeat split; try done; try congruence.
    rewrite <- Hversion, Hloc, Hpath, <- Hexe. by apply getGameVersionFromExe_ext.
  - rewrite existsb_app, Hl1. simpl. intros Hnone root installdir Hroot Hfound.
    assert (thrown = None) as -> by (by destruct thrown).
    destruct (Hcomplete root installdir Hroot Hfound) as (t & Ht & Hpath).
    destruct (Hall eq_refl t Ht) as (i & Hi & Hres).
    destruct (libraryFolderResume_fields t (logLines l1 w) [i] Hres)
      as (i' & [= <-] & Hloc & _).
    exists i. split; [done|congruence].
  - intros entries Hentries. destruct (Hobj entries Hentries) as [e He].
    destruct (Hrej e He) as [-> [e' ->]]. split; [done|].
    rewrite existsb_app. simpl. apply orb_true_r.
Qed.

(** [getInstalls], by the cases of lines 116-151. *)
Lemma getInstalls_run completion w :
  ∃ res lines,
    getInstalls P completion w = (inr res, record ExifToolEnd (logLines lines w))
    ∧ (if pathExists (components (STEAM_DATA_LOCATION P) ++ [lit "steamapps"]) w then
         match fst (readLibraryFolders P w) with
         | inl e => res = {| installs := []; invalidInstalls := [] |}
                    ∧ lines = [LogErrorOf e]
         | inr roots =>
             awaitLibraryFolders P completion roots w = (inr res, logLines lines w)
         end
       else res = {| installs := []; invalidInstalls := [] |}
            ∧ lines = [LogDebug (lit "Steam-flatpak is not installed")]).
Proof.
  pose proof (readLibraryFolders_world P w) as Hw.
  unfold getInstalls. unfold bind at 1, existsSync at 1.
  destruct (pathExists _ w) eqn:Hfound.
  - unfold bind at 1, tryCatch at 1, bind at 1.
    destruct (readLibraryFolders P w) as [[e|roots] w1]; simpl in Hw; subst w1.
    + eexists _, [LogErrorOf e]. split; [|done]. done.
    + destruct (awaitLibraryFolders_run completion roots w) as (res & lines & Hrun & _).
      rewrite Hrun. exists res, lines. split; [done|]. simpl. done.
  - eexists _, [LogDebug _]. split; [|done]. done.
Qed.

(** X20: [getInstalls] never rejects; it adds lines to the log, ends
    exiftool once, as its last effect, and changes nothing else. *)
Theorem discovery_reads_and_logs completion w :
  ∃ res lines,
    getInstalls P completion w = (inr res, record ExifToolEnd (logLines lines w)).
Proof.
  destruct (getInstalls_run completion w) as (res & lines & Hrun & _). eauto.
Qed.





End FurtherDiscovery.

(** ** The further properties, applied *)

Section FurtherExamples.

Import SML SteamFlatpak Example.

(** X1, applied: the DLL is downloaded, the next call is a cache hit. *)
Lemma resolved_version_is_cached_witness :
  whenTruthy (semver_valid_coerce platform (lit "v2.2.1")) = Some (lit "2.2.1")
  ∧ fst (getSMLVersionCache platform (lit "v2.2.1") dllOnlyWorld)
    = inr (versionCacheDir platform (lit "2.2.1"))
  ∧ getSMLVersionCache platform (lit "v2.2.1")
      (snd (getSMLVersionCache platform (lit "v2.2.1") dllOnlyWorld))
    = (inr (versionCacheDir platform (lit "2.2.1")),
       snd (getSMLVersionCache platform (lit "v2.2.1") dllOnlyWorld)).
Proof.
  assert (Hv : whenTruthy (semver_valid_coerce platform (lit "v2.2.1"))
               = Some (lit "2.2.1")) by (by vm_compute).
  split; [exact Hv|].
  apply (resolved_version_is_cached platform (lit "v2.2.1") (lit "v2.2.1") dllOnlyWorld
           (lit "2.2.1") Hv Hv).
  exists (versionCacheDir platform (lit "2.2.1")). by vm_compute.
Defined.

(** X2, applied: the version coerces, the release is not known. *)
Lemma resolve_failures_witness :
  fst (getSMLVersionCache platform (lit "v2.2.1") emptyWorld)
  = inl (notFound (lit "v2.2.1"))
  ∧ effects (snd (getSMLVersionCache platform (lit "v2.2.1") emptyWorld))
    = [NetVersionInfo (lit "v2.2.1")]
  ∧ files (snd (getSMLVersionCache platform (lit "v2.2.1") emptyWorld)) = ∅.
Proof.
  assert (He : fst (getSMLVersionCache platform (lit "v2.2.1") emptyWorld)
               = inl (notFound (lit "v2.2.1"))) by (by vm_compute).
  split; [exact He|].
  destruct (resolve_failures platform (lit "v2.2.1") emptyWorld _ He)
    as [(_ & Hf & _ & He')|(link & Hlink & _)].
  - split; [|exact Hf]. by vm_compute.
  - vm_compute in Hlink. discriminate.
Defined.

(** X3, applied to the link of a release on GitHub. *)
Lemma download_link_of_release_link_witness :
  downloadLink releaseLink SMLDLLFileName = dllURL
  ∧ downloadLink (lit "https://example.org/releases/v2.2.1") SMLPakFileName
    = lit "https://example.org/releases/v2.2.1/SML.pak".
Proof.
  split.
  - destruct (download_link_of_release_link
                (lit "https://github.com/satisfactorymodding/SatisfactoryModLoader/releases")
                (lit "v2.2.1") SMLDLLFileName []) as [H _].
    etrans; [|etrans; [apply H; by vm_compute|]]; by vm_compute.
  - destruct (download_link_of_release_link [] [] SMLPakFileName
                (lit "https://example.org/releases/v2.2.1")) as [_ H].
    etrans; [apply H; by vm_compute|]. by vm_compute.
Defined.

Lemma cachedWorld_facts :
  truthyStr (getSMLVersion platform gameDir cachedWorld) = false
  ∧ whenTruthy (semver_valid_coerce platform (lit "v2.2.1")) = Some (lit "2.2.1")
  ∧ files cachedWorld !! (versionCacheDir platform (lit "2.2.1") ++ [SMLDLLFileName])
    = Some (lit "SML 2.2.1")
  ∧ files cachedWorld !! (versionCacheDir platform (lit "2.2.1") ++ [SMLPakFileName])
    = Some (lit "PAK")
  ∧ pathExists (versionCacheDir platform (lit "2.2.1")) cachedWorld = true.
Proof. repeat split; by vm_compute. Qed.

(** X4, applied: both artifacts are cached and both are copied. *)
Lemma install_copies_both_witness :
  truthyStr (getSMLVersion platform gameDir cachedWorld) = false
  ∧ fst (installSML platform (lit "v2.2.1") gameDir cachedWorld) = inr tt
  ∧ files (snd (installSML platform (lit "v2.2.1") gameDir cachedWorld))
    = <[gameDir ++ SMLPakRelativePath := lit "PAK"]>
        (<[gameDir ++ SMLDLLRelativePath := lit "SML 2.2.1"]> (files cachedWorld))
  ∧ getSMLVersion platform gameDir
      (snd (installSML platform (lit "v2.2.1") gameDir cachedWorld))
    = Some (lit "2.2.1").
Proof.
  destruct cachedWorld_facts as (H1 & H2 & H3 & H4 & H5).
  destruct (install_copies_both platform (lit "v2.2.1") gameDir cachedWorld (lit "2.2.1")
              (lit "SML 2.2.1") (lit "PAK") H1 H2 H3 H4 H5) as (Hr & Hf & Hv & _).
  split; [exact H1|]. split; [exact Hr|]. split; [exact Hf|].
  rewrite Hv. by vm_compute.
Defined.

(** X5, applied: a second install, of a version that does not exist. *)
Lemma second_install_changes_nothing_witness :
  truthyStr (smlVersionNative platform (lit "SML 2.2.1")) = true
  ∧ installSML platform (lit "abc") gameDir
      (snd (installSML platform (lit "v2.2.1") gameDir cachedWorld))
    = (inr tt,
       logLine (LogDebug (lit "SML is already installed"))
         (snd (installSML platform (lit "v2.2.1") gameDir cachedWorld))).
Proof.
  destruct cachedWorld_facts as (H1 & H2 & H3 & H4 & H5).
  assert (H6 : truthyStr (smlVersionNative platform (lit "SML 2.2.1")) = true)
    by (by vm_compute).
  split; [exact H6|].
  apply (second_install_changes_nothing platform (lit "v2.2.1") (lit "abc") gameDir
           cachedWorld (lit "2.2.1") (lit "SML 2.2.1") (lit "PAK") H1 H2 H3 H4 H5 H6).
Defined.

Lemma cachedWorld_pak_no_directory :
  versionCacheDir platform (lit "2.2.1") ++ [SMLPakFileName] ∉ dirs cachedWorld.
Proof.
  intros Hin. apply elem_of_list_to_set, ancestors_prefix in Hin as [k Hk].
  apply (f_equal length) in Hk. rewrite !length_app in Hk. simpl in Hk. lia.
Qed.

Lemma gameDir_outside_cache :
  ¬ versionCacheDir platform (lit "2.2.1") `prefix_of` gameDir.
Proof.
  intros [k Hk]. apply (f_equal length) in Hk. rewrite length_app in Hk.
  vm_compute in Hk. lia.
Qed.

(** X9, applied: install from the cache, uninstall, and the files are those
    of before. *)
Lemma install_then_uninstall_restores_files_witness :
  files cachedWorld !! (gameDir ++ SMLDLLRelativePath) = None
  ∧ files cachedWorld !! (gameDir ++ SMLPakRelativePath) = None
  ∧ fst (installSML platform (lit "v2.2.1") gameDir cachedWorld) = inr tt
  ∧ getSMLVersion platform gameDir
      (snd (installSML platform (lit "v2.2.1") gameDir cachedWorld))
    = Some (lit "2.2.1")
  ∧ files (snd (uninstallSML platform gameDir
                  (snd (installSML platform (lit "v2.2.1") gameDir cachedWorld))))
    = files cachedWorld.
Proof.
  destruct cachedWorld_facts as (_ & H2 & H3 & _ & H5).
  assert (H6 : truthyStr (smlVersionNative platform (lit "SML 2.2.1")) = true)
    by (by vm_compute).
  assert (H7 : files cachedWorld !! (gameDir ++ SMLDLLRelativePath) = None)
    by (by vm_compute).
  assert (H8 : files cachedWorld !! (gameDir ++ SMLPakRelativePath) = None)
    by (by vm_compute).
  destruct (install_then_uninstall_restores_files platform (lit "v2.2.1") gameDir
              cachedWorld (lit "2.2.1") (lit "SML 2.2.1") H2 H5 H3
              cachedWorld_pak_no_directory gameDir_outside_cache H6 H7 H8)
    as (Hr & Hv & Hf).
  split; [exact H7|]. split; [exact H8|]. split; [exact Hr|].
  split; [|exact Hf]. rewrite Hv. by vm_compute.
Defined.

(** X11, applied to the executable of the example. *)
Lemma changelist_number_is_read_witness :
  exiftool_read platform gameExeBytes
  = Some (Some (lit "++FactoryGame+rel-main-" ++ lit "CL-" ++ lit "211839" ++ []))
  ∧ getGameVersionFromExe platform
      (locate (cwd platform)
         (exePath (installPath (STEAM_DATA_LOCATION platform) (lit "Satisfactory"))))
      (steamWorld (lit "appmanifest"))
    = (inr (lit "211839"), steamWorld (lit "appmanifest")).
Proof.
  assert (Hread : exiftool_read platform gameExeBytes
                  = Some (Some (lit "++FactoryGame+rel-main-" ++ lit "CL-"
                                ++ lit "211839" ++ []))) by (by vm_compute).
  split; [exact Hread|].
  apply (changelist_number_is_read platform _ _ gameExeBytes
           (lit "++FactoryGame+rel-main-") (lit "211839") []).
  - by vm_compute.
  - exact Hread.
  - apply (bool_decide_unpack _). by vm_compute.
  - intros H. vm_compute in H. discriminate.
  - by vm_compute.
  - exact I.
Defined.

(** X13, applied: an override of another DLL is kept. *)
Lemma missing_value_is_appended_witness :
  includes REQUIRED (lit "winhttp=n,b") = false
  ∧ patch (Some (VStr (block (lit "winhttp=n,b") ++ lit " %command%")))
    = (block (lit "winhttp=n,b;msdia140.dll,xinput1_3.dll=n,b") ++ lit " %command%", true)
  ∧ conformant (block (lit "winhttp=n,b;msdia140.dll,xinput1_3.dll=n,b") ++ lit " %command%")
    = true.
Proof.
  assert (Hno : includes REQUIRED (lit "winhttp=n,b") = false) by (by vm_compute).
  split; [exact Hno|].
  destruct (missing_value_is_appended (lit "winhttp=n,b") (lit " %command%")) as [Hp Hc].
  - apply (bool_decide_unpack _). by vm_compute.
  - apply (bool_decide_unpack _). by vm_compute.
  - by vm_compute.
  - exact Hno.
  - split.
    + etrans; [exact Hp|]. by vm_compute.
    + etrans; [|exact Hc]. by vm_compute.
Defined.

Lemma legacyWorld_facts :
  let steam := [(lit "Apps", under [STEAM_APP; lit "LaunchOptions"] (VStr (lit "%command%")))] in
  let apps := [(STEAM_APP, under [lit "LaunchOptions"] (VStr (lit "%command%")))] in
  let entry := [(lit "LaunchOptions", VStr (lit "%command%"))] in
  files (legacyWorld []) !! configFilePath legacyPlatform (lit "1001")
  = Some (dump (legacyConfig (lit "%command%")))
  ∧ vdf_parse legacyPlatform (dump (legacyConfig (lit "%command%")))
    = Some (legacyConfig (lit "%command%"))
  ∧ lookupPath steamKeys (Some (legacyConfig (lit "%command%"))) = Some (VObj steam)
  ∧ (assoc (lit "apps") steam = None ∧ assoc (lit "Apps") steam = Some (VObj apps))
  ∧ assoc STEAM_APP apps = Some (VObj entry)
  ∧ snd (patch (assoc (lit "LaunchOptions") entry)) = true
  ∧ withLaunchOptions (legacyConfig (lit "%command%")) steam apps entry true
      (fst (patch (assoc (lit "LaunchOptions") entry)))
    = legacyPatched conformantOptions.
Proof. cbv zeta. repeat split; by vm_compute. Qed.

Lemma steam_stopped (w : world) : processes w = ∅ → lit "steam" ∉ processes w.
Proof. intros ->. apply not_elem_of_empty. Qed.

(** X16, applied to a profile of the older layout: both keys hold the
    patched launch options. *)
Lemma patched_configuration_witness :
  files (snd (setupSteamUser legacyPlatform (lit "1001") (legacyWorld [])))
  = <[configFilePath legacyPlatform (lit "1001") := dump (legacyPatched conformantOptions)]>
      (files (legacyWorld []))
  ∧ lookupPath (steamKeys ++ [lit "apps"; STEAM_APP; lit "LaunchOptions"])
      (Some (legacyPatched conformantOptions))
    = Some (VStr conformantOptions)
  ∧ lookupPath (steamKeys ++ [lit "Apps"]) (Some (legacyPatched conformantOptions))
    = lookupPath (steamKeys ++ [lit "apps"]) (Some (legacyPatched conformantOptions)).
Proof.
  destruct legacyWorld_facts as (H1 & H2 & H3 & H4 & H5 & H6 & H7).
  destruct (patched_configuration legacyPlatform (lit "1001") (legacyWorld []) _ _ _ _ _ true
              H1 H2 H3 H4 H5 H6 (steam_stopped (legacyWorld []) eq_refl))
    as (Hf & Hlo & _ & _ & _ & Halias).
  rewrite H7 in Hf, Hlo, Halias.
  split; [exact Hf|]. split; [|exact Halias].
  etrans; [exact Hlo|]. by vm_compute.
Defined.

(** X17, applied: the patched profile, read again while Steam is running. *)
Lemma patched_profile_is_left_alone_witness :
  lit "steam" ∈ processes (legacyPatchedWorld [lit "steam"])
  ∧ conformant conformantOptions = true
  ∧ vdf_parse legacyPlatform (dump (legacyPatched conformantOptions))
    = Some (legacyPatched conformantOptions)
  ∧ setupSteamUser legacyPlatform (lit "1001") (legacyPatchedWorld [lit "steam"])
    = (inr tt, legacyPatchedWorld [lit "steam"]).
Proof.
  destruct legacyWorld_facts as (H1 & H2 & H3 & H4 & H5 & H6 & H7).
  assert (Hc : conformant conformantOptions = true) by (by vm_compute).
  assert (Hp : vdf_parse legacyPlatform (dump (legacyPatched conformantOptions))
               = Some (legacyPatched conformantOptions)) by (by vm_compute).
  split; [apply elem_of_list_to_set; by left|]. split; [exact Hc|]. split; [exact Hp|].
  apply (patched_profile_is_left_alone legacyPlatform (lit "1001") (legacyWorld []) _ _ _ _ _ _ true
           H1 H2 H3 H4 H5 H6 (steam_stopped (legacyWorld []) eq_refl)).
  - by vm_compute.
  - by rewrite H7.
  - destruct (setupSteamUser_files legacyPlatform (lit "1001") (legacyWorld [])) as [-> _].
    assert (profileNeedsChange legacyPlatform (lit "1001") (legacyWorld []) = true) as ->
      by (by vm_compute).
    assert (patchedConfig legacyPlatform (lit "1001") (legacyWorld [])
            = Some (dump (legacyPatched conformantOptions))) as -> by (by vm_compute).
    rewrite bool_decide_eq_false_2 by apply (steam_stopped (legacyWorld []) eq_refl).
    symmetry. apply insert_singleton_eq.
Defined.






(** X15, applied: a configuration that does not parse, and a user without
    configuration file. *)
Lemma unpatchable_profiles_are_skipped_witness :
  setupSteamUser platform (lit "1003") (profilesWorld threeProfiles [lit "steam"])
  = (inr tt, logLine (LogErrorOf VdfSyntaxError) (profilesWorld threeProfiles [lit "steam"]))
  ∧ setupSteamUser platform (lit "1004") (profilesWorld threeProfiles [lit "steam"])
    = (inr tt,
       logLine (LogErrorOf (ENOENT (configFilePath platform (lit "1004"))))
         (profilesWorld threeProfiles [lit "steam"])).
Proof.
  split.
  - destruct (unpatchable_profiles_are_skipped platform (lit "1003")
                (profilesWorld threeProfiles [lit "steam"])) as (_ & H & _).
    apply (H (lit "junk")); by vm_compute.
  - destruct (unpatchable_profiles_are_skipped platform (lit "1004")
                (profilesWorld threeProfiles [lit "steam"])) as (H & _).
    apply H. by vm_compute.
Defined.



(** X7, applied to a game directory with SML 2.2.0: the DLL is removed, the
    directories stay. *)
Lemma uninstall_removes_the_loader_only_witness :
  truthyStr (getSMLVersion platform gameDir installedWorld) = true
  ∧ files (snd (uninstallSML platform gameDir installedWorld))
      !! (gameDir ++ SMLDLLRelativePath) = None
  ∧ dirs (snd (uninstallSML platform gameDir installedWorld)) = dirs installedWorld.
Proof.
  assert (Ht : truthyStr (getSMLVersion platform gameDir installedWorld) = true)
    by (by vm_compute).
  destruct (uninstall_removes_the_loader_only platform gameDir installedWorld)
    as (Hd & _ & _ & Hgone & _).
  split; [exact Ht|]. split; [exact (proj1 (Hgone Ht))|exact Hd].
Defined.

(** X12, applied: launch options without a block. *)
Lemma missing_block_is_prepended_witness :
  patch None = (conformantOptions, true)
  ∧ patch (Some (VStr (lit "-dx11 %command%")))
    = (block REQUIRED ++ lit " -dx11 %command%", true)
  ∧ patch (Some (VStr (block REQUIRED ++ lit " -dx11 %command%")))
    = (block REQUIRED ++ lit " -dx11 %command%", false).
Proof.
  destruct missing_block_is_prepended as (Hnone & Hfront & Hagain).
  split; [exact (Hnone None eq_refl)|]. split.
  - etrans; [apply (Hfront (VStr (lit "-dx11 %command%"))); by vm_compute|]. done.
  - exact (proj2 (Hagain (lit " -dx11 %command%"))).
Defined.
End FurtherExamples.
